(** * Brain coder: interpreter, scoring, search primitives and results store

    A shallow embedding of the parts of the repository that its natural
    language specification makes claims about:

    - [bf.py]: [buildbracemap] and [evaluate];
    - [code_tasks.py]: [clipped_linear] and [MultiIOTaskManager];
    - [utils.py]: [MaxUniquePriorityQueue] and [RouletteWheel];
    - [results_lib.py]: [Results.read_all];
    - [ga_lib.py]: [crossover].

    Conventions.  Python integers are [Z] where they can be negative and
    [nat] where they are positions or counters.  Python floats are idealised
    as rationals [Q]: no claim below depends on rounding.  Python exceptions
    are values of the [outcome] type. *)

From Stdlib Require Import Ascii String QArith Lqa.
From stdpp Require Import gmap strings list.

Open Scope nat_scope.

(** ** Outcomes: results, exceptions, and exhausted fuel *)

Inductive exn : Type :=
  | IndexError
  | KeyError
  | ValueError
  | RuntimeError
  | AssertionError
  | ZeroDivisionError.

(** [NoFuel] is not a Python outcome: it marks a loop of the model that was
    given too few iterations to reach the point where the Python loop ends. *)
Inductive outcome (A : Type) : Type :=
  | Ok (a : A)
  | Raise (e : exn)
  | NoFuel.

Arguments Ok {A} a.
Arguments Raise {A} e.
Arguments NoFuel {A}.

Definition obind {A B} (f : A → outcome B) (x : outcome A) : outcome B :=
  match x with
  | Ok a => f a
  | Raise e => Raise e
  | NoFuel => NoFuel
  end.

#[global] Instance outcome_ret : MRet outcome := fun A a => Ok a.
#[global] Instance outcome_bind : MBind outcome := fun A B f x => obind f x.

(** [l[i]] for a non-negative index. *)
Definition getitem {A} (l : list A) (i : nat) : outcome A :=
  match l !! i with
  | Some x => Ok x
  | None => Raise IndexError
  end.

(** [l[i] = x] for a non-negative index. *)
Definition setitem {A} (l : list A) (i : nat) (x : A) : outcome (list A) :=
  if decide (i < length l) then Ok (<[i:=x]> l) else Raise IndexError.

(** * bf.py *)

Module bf.

Inductive Status : Type := SUCCESS | TIMEOUT | STEP_LIMIT | SYNTAX_ERROR.

#[global] Instance Status_eq_dec : EqDecision Status.
Proof. solve_decision. Defined.

(** The value of [Status.X], a Python string. *)
Definition Status_str (s : Status) : string :=
  match s with
  | SUCCESS => "success"
  | TIMEOUT => "timeout"
  | STEP_LIMIT => "step-limit"
  | SYNTAX_ERROR => "syntax-error"
  end.

Definition CHARS : list ascii :=
  [">"; "<"; "+"; "-"; "["; "]"; "."; ","]%char.

(** ** buildbracemap *)

(** The scan state: [bracestack] (kept top first: Python appends and pops at
    the end of its list), [bracemap] and [correct_syntax]. *)
Record scan_state : Type := ScanState {
  bracestack : list nat;
  bracemap : gmap nat nat;
  correct_syntax : bool
}.

(** One iteration of [for position, command in enumerate(code)]. *)
Definition scan_step (position : nat) (command : ascii) (s : scan_state)
    : scan_state :=
  let s :=
    if (command =? "[")%char
    then ScanState (position :: bracestack s) (bracemap s) (correct_syntax s)
    else s in
  if (command =? "]")%char then
    match bracestack s with
    | [] => ScanState [] (<[position := position]> (bracemap s)) false
    | start :: rest =>
        ScanState rest
          (<[position := start]> (<[start := position]> (bracemap s)))
          (correct_syntax s)
    end
  else s.

Fixpoint scan (position : nat) (code : list ascii) (s : scan_state)
    : scan_state :=
  match code with
  | [] => s
  | command :: rest => scan (S position) rest (scan_step position command s)
  end.

(** [if bracestack: for pos in bracestack: ...], bottom of the stack first. *)
Definition close_unmatched (s : scan_state) : gmap nat nat * bool :=
  match bracestack s with
  | [] => (bracemap s, correct_syntax s)
  | _ :: _ =>
      (foldl (fun m pos => <[pos := pos]> m) (bracemap s)
             (reverse (bracestack s)),
       false)
  end.

Definition buildbracemap (code : list ascii) : gmap nat nat * bool :=
  close_unmatched (scan 0 code (ScanState [] ∅ true)).

(** ** evaluate *)

Record ExecutionSnapshot : Type := Snapshot {
  snap_codeptr : nat;
  snap_codechar : option ascii;   (* [None] stands for the empty string *)
  snap_memptr : nat;
  snap_memval : Z;
  snap_memory : list Z;
  snap_next_input : Z;
  snap_output_buffer : list Z
}.

(** [EvalResult] without its [time] field. *)
Record EvalResult : Type := MkEvalResult {
  output : list Z;
  success : bool;
  failure_reason : Status;
  steps : nat;
  memory : option (list Z);
  program_trace : option (list ExecutionSnapshot)
}.

(** The local variables of [evaluate] that its loop updates.  [input_iter]
    is what the [LookAheadIterator] has not handed out yet. *)
Record Machine : Type := MkMachine {
  codeptr : nat;
  cellptr : nat;
  cells : list Z;
  input_iter : list Z;
  output_buffer : list Z;
  m_steps : nat;
  m_trace : option (list ExecutionSnapshot)
}.

Definition null_value : Z := 0.

(** [input_iter.peek(null_value)] *)
Definition peek (it : list Z) : Z :=
  match it with
  | [] => null_value
  | x :: _ => x
  end.

(** [next(input_iter, null_value)] *)
Definition next (it : list Z) : Z * list Z :=
  match it with
  | [] => (null_value, [])
  | x :: rest => (x, rest)
  end.

Section Evaluate.

Variable code : list ascii.
Variable bmap : gmap nat nat.
Variable base : Z.
(** [timeout] in seconds, [None] to disable. *)
Variable timeout : option Q.
Variable max_steps : option Z.
(** The wall clock: [clock 0] is [start_time] and [clock k] is what
    [time.time()] returns when the loop reads it with [steps = k]. *)
Variable clock : nat → Q.

Definition snapshot (command : option ascii) (m : Machine)
    : outcome ExecutionSnapshot :=
  memval ← getitem (cells m) (cellptr m);
  Ok (Snapshot (codeptr m) command (cellptr m) memval (cells m)
        (peek (input_iter m)) (output_buffer m)).

(** [if debug: program_trace.append(ExecutionSnapshot(...))] *)
Definition record_snapshot (command : option ascii) (m : Machine)
    : outcome Machine :=
  match m_trace m with
  | None => Ok m
  | Some tr =>
      s ← snapshot command m;
      Ok (MkMachine (codeptr m) (cellptr m) (cells m) (input_iter m)
            (output_buffer m) (m_steps m) (Some (tr ++ [s])))
  end.

Definition op_right (command : ascii) (m : Machine) : outcome Machine :=
  if (command =? ">")%char then
    let cellptr' := cellptr m + 1 in
    let cells' :=
      if decide (cellptr' = length (cells m))
      then cells m ++ [null_value] else cells m in
    Ok (MkMachine (codeptr m) cellptr' cells' (input_iter m)
          (output_buffer m) (m_steps m) (m_trace m))
  else Ok m.

Definition op_left (command : ascii) (m : Machine) : outcome Machine :=
  if (command =? "<")%char then
    Ok (MkMachine (codeptr m)
          (if decide (cellptr m ≤ 0) then 0 else cellptr m - 1)
          (cells m) (input_iter m) (output_buffer m) (m_steps m) (m_trace m))
  else Ok m.

Definition set_cell (m : Machine) (v : Z) : outcome Machine :=
  cells' ← setitem (cells m) (cellptr m) v;
  Ok (MkMachine (codeptr m) (cellptr m) cells' (input_iter m)
        (output_buffer m) (m_steps m) (m_trace m)).

Definition op_plus (command : ascii) (m : Machine) : outcome Machine :=
  if (command =? "+")%char then
    c ← getitem (cells m) (cellptr m);
    set_cell m (if decide (c < base - 1)%Z then (c + 1)%Z else 0%Z)
  else Ok m.

Definition op_minus (command : ascii) (m : Machine) : outcome Machine :=
  if (command =? "-")%char then
    c ← getitem (cells m) (cellptr m);
    set_cell m (if decide (c > 0)%Z then (c - 1)%Z else (base - 1)%Z)
  else Ok m.

Definition jump (m : Machine) : outcome Machine :=
  match bmap !! codeptr m with
  | Some target =>
      Ok (MkMachine target (cellptr m) (cells m) (input_iter m)
            (output_buffer m) (m_steps m) (m_trace m))
  | None => Raise KeyError
  end.

Definition op_open (command : ascii) (m : Machine) : outcome Machine :=
  if (command =? "[")%char then
    c ← getitem (cells m) (cellptr m);
    if decide (c = 0%Z) then jump m else Ok m
  else Ok m.

Definition op_close (command : ascii) (m : Machine) : outcome Machine :=
  if (command =? "]")%char then
    c ← getitem (cells m) (cellptr m);
    if decide (c ≠ 0%Z) then jump m else Ok m
  else Ok m.

Definition op_write (command : ascii) (m : Machine) : outcome Machine :=
  if (command =? ".")%char then
    c ← getitem (cells m) (cellptr m);
    Ok (MkMachine (codeptr m) (cellptr m) (cells m) (input_iter m)
          (output_buffer m ++ [c]) (m_steps m) (m_trace m))
  else Ok m.

Definition op_read (command : ascii) (m : Machine) : outcome Machine :=
  if (command =? ",")%char then
    let '(v, rest) := next (input_iter m) in
    cells' ← setitem (cells m) (cellptr m) v;
    Ok (MkMachine (codeptr m) (cellptr m) cells' rest
          (output_buffer m) (m_steps m) (m_trace m))
  else Ok m.

(** [codeptr += 1; steps += 1] *)
Definition advance (m : Machine) : Machine :=
  MkMachine (codeptr m + 1) (cellptr m) (cells m) (input_iter m)
    (output_buffer m) (m_steps m + 1) (m_trace m).

(** The loop body up to and including [steps += 1]. *)
Definition loop_body (m : Machine) : outcome Machine :=
  command ← getitem code (codeptr m);
  m ← record_snapshot (Some command) m;
  m ← op_right command m;
  m ← op_left command m;
  m ← op_plus command m;
  m ← op_minus command m;
  m ← op_open command m;
  m ← op_close command m;
  m ← op_write command m;
  m ← op_read command m;
  Ok (advance m).

(** [time.time() - start_time > timeout] *)
Definition timed_out (m : Machine) : bool :=
  match timeout with
  | None => false
  | Some t => negb (Qle_bool (clock (m_steps m) - clock 0) t)
  end.

(** [steps >= max_steps] *)
Definition step_limit_hit (m : Machine) : bool :=
  match max_steps with
  | None => false
  | Some n => bool_decide (Z.of_nat (m_steps m) >= n)%Z
  end.

(** The two [break]s at the end of the loop body, in the order of the
    source. *)
Definition stop_check (m : Machine) : option Status :=
  if timed_out m then Some TIMEOUT
  else if step_limit_hit m then Some STEP_LIMIT
  else None.

(** [while codeptr < len(code): ...]; returns the machine at loop exit with
    [success] and [reason]. *)
Fixpoint while_loop (fuel : nat) (m : Machine)
    : outcome (Machine * bool * Status) :=
  if decide (codeptr m < length code) then
    match fuel with
    | 0 => NoFuel
    | S fuel' =>
        m' ← loop_body m;
        match stop_check m' with
        | Some reason => Ok (m', false, reason)
        | None => while_loop fuel' m'
        end
    end
  else Ok (m, true, SUCCESS).

End Evaluate.

(** [evaluate(code, input_buffer, init_memory, base, timeout, max_steps,
    require_correct_syntax, output_memory, debug)].  [input_buffer=None] and
    [input_buffer=[]] behave alike, so the buffer is a list. *)
Definition evaluate (fuel : nat) (clock : nat → Q) (code : list ascii)
    (input_buffer : list Z) (init_memory : option (list Z)) (base : Z)
    (timeout : option Q) (max_steps : option Z)
    (require_correct_syntax output_memory debug : bool)
    : outcome EvalResult :=
  let '(bmap, correct_syntax) := buildbracemap code in
  if require_correct_syntax && negb correct_syntax then
    Ok (MkEvalResult [] false SYNTAX_ERROR 0
          (if output_memory then Some [] else None)
          (if debug then Some [] else None))
  else
    let cells0 :=
      match init_memory with
      | Some (c :: l) => c :: l
      | _ => [0%Z]
      end in
    let m0 := MkMachine 0 0 cells0 input_buffer [] 0
                (if debug then Some [] else None) in
    '(m, success, reason) ←
      while_loop code bmap base timeout max_steps clock fuel m0;
    m ← record_snapshot (code !! codeptr m) m;
    Ok (MkEvalResult (output_buffer m) success reason (m_steps m)
          (if output_memory then Some (cells m) else None)
          (m_trace m)).

(** A program given as a Python string: [code = list(code)]. *)
Definition program (s : string) : list ascii := list_ascii_of_string s.

End bf.

(** * reward.py *)

Module reward.

Definition abs_diff (a b base : Z) : Z := Z.abs (a - b).

(** [absolute_distance(pred, target, base, scalar_diff_fn)] *)
Definition absolute_distance (pred target : list Z) (base : Z)
    (scalar_diff_fn : Z → Z → Z → Z) : Z :=
  let d :=
    foldl (fun d '(i, target_t) =>
             match pred !! i with
             | None => d + base
             | Some p => d + scalar_diff_fn p target_t base
             end)%Z
          0%Z (imap pair target) in
  if decide (length target < length pred)
  then (d + (Z.of_nat (length pred) - Z.of_nat (length target)) * base)%Z
  else d.

(** [absolute_distance_reward(pred, target, base)] with the default
    [scalar_diff_fn=abs_diff]. *)
Definition absolute_distance_reward (pred target : list Z) (base : Z)
    : outcome Q :=
  let unit_dist := (base * Z.of_nat (length target))%Z in
  let unit_dist := if decide (unit_dist = 0%Z) then base else unit_dist in
  let dist := absolute_distance pred target base abs_diff in
  if decide (unit_dist = 0%Z) then Raise ZeroDivisionError
  else Ok ((inject_Z unit_dist - inject_Z dist) / inject_Z unit_dist)%Q.

(** [mod_abs_diff(a, b, base)]: [diff %= base] raises when [base] is 0;
    Python's [%] and [Z.modulo] both take the sign of the divisor. *)
Definition mod_abs_diff (a b base : Z) : outcome Z :=
  let diff := Z.abs (a - b) in
  diff ← (if decide (base ≤ diff)%Z
          then if decide (base = 0%Z) then Raise ZeroDivisionError
               else Ok (diff `mod` base)%Z
          else Ok diff);
  Ok (Z.min diff (- diff + base)).

(** [RewardManager.__init__]: the attributes every manager has. *)
Record RewardManager : Type := MkRewardManager {
  _target : list Z;
  _base : Z;
  _distance_fn : list Z → list Z → Z → Z
}.

(** The default [distance_fn=absolute_distance], itself called with its
    default [scalar_diff_fn]. *)
Definition default_distance_fn (pred target : list Z) (base : Z) : Z :=
  absolute_distance pred target base abs_diff.

(** [x / float(base)] *)
Definition float_div (x base : Z) : outcome Q :=
  if decide (base = 0%Z) then Raise ZeroDivisionError
  else Ok (inject_Z x / inject_Z base)%Q.

Module DeltaRewardManager.

Record t : Type := Mk {
  super : RewardManager;
  _last_diff : Z
}.

Definition __init__ (target : list Z) (base : Z)
    (distance_fn : list Z → list Z → Z → Z) : t :=
  Mk (MkRewardManager target base distance_fn) 0.

Definition _diff (self : t) (seq : list Z) : Z :=
  _distance_fn (super self) seq (_target (super self)) (_base (super self)).

Definition _delta_reward (self : t) (seq : list Z) : outcome (Q * t) :=
  let diff := _diff self seq in
  reward ← float_div (_last_diff self - diff) (_base (super self));
  Ok (reward, Mk (super self) diff).

Definition __call__ (self : t) (seq : list Z) : outcome (Q * t) :=
  _delta_reward self seq.

(** The rewards of an episode: the manager called on each sequence in
    turn. *)
Fixpoint episode (self : t) (seqs : list (list Z)) : outcome (list Q * t) :=
  match seqs with
  | [] => Ok ([], self)
  | seq :: seqs =>
      '(reward, self) ← __call__ self seq;
      '(rewards, self) ← episode self seqs;
      Ok (reward :: rewards, self)
  end.

End DeltaRewardManager.

Module FloorRewardManager.

Record t : Type := Mk {
  super : RewardManager;
  _last_diff : Z;
  _min_diff : Z;
  _too_long_penality_given : bool
}.

Definition _max_diff (super : RewardManager) : Z :=
  _distance_fn super [] (_target super) (_base super).

Definition __init__ (target : list Z) (base : Z)
    (distance_fn : list Z → list Z → Z → Z) : t :=
  let super := MkRewardManager target base distance_fn in
  Mk super 0 (_max_diff super) false.

Definition _diff (self : t) (seq : list Z) : Z :=
  _distance_fn (super self) seq (_target (super self)) (_base (super self)).

Definition _delta_reward (self : t) (seq : list Z) : outcome (Q * t) :=
  let diff := _diff self seq in
  if decide (diff < _min_diff self)%Z then
    reward ← float_div (_min_diff self - diff) (_base (super self));
    Ok (reward,
        Mk (super self) (_last_diff self) diff
           (_too_long_penality_given self))
  else Ok (0%Q, self).

Definition __call__ (self : t) (seq : list Z) : outcome (Q * t) :=
  if decide (length (_target (super self)) < length seq) then
    if negb (_too_long_penality_given self)
    then Ok ((-1)%Q,
             Mk (super self) (_last_diff self) (_min_diff self) true)
    else Ok (0%Q, self)
  else
    '(reward, self) ← _delta_reward self seq;
    if _too_long_penality_given self
    then Ok ((reward + 1)%Q,
             Mk (super self) (_last_diff self) (_min_diff self) false)
    else Ok (reward, self).

Fixpoint episode (self : t) (seqs : list (list Z)) : outcome (list Q * t) :=
  match seqs with
  | [] => Ok ([], self)
  | seq :: seqs =>
      '(reward, self) ← __call__ self seq;
      '(rewards, self) ← episode self seqs;
      Ok (reward :: rewards, self)
  end.

End FloorRewardManager.

End reward.

(** * code_tasks.py *)

Module code_tasks.

Definition MAX_EXECUTION_STEPS : Z := 5000.

(** Python's [max(a, b)] and [min(a, b)] on numbers: the first argument
    wins a tie. *)
Definition py_max (a b : Q) : Q := if Qle_bool b a then a else b.
Definition py_min (a b : Q) : Q := if Qle_bool a b then a else b.

Definition clipped_linear (x x0 y0 slope : Q) (y_range : Q * Q) : Q :=
  let '(min_y, max_y) := y_range in
  py_min (py_max (slope * (x - x0) + y0) min_y) max_y.

Inductive IOType : Type := io_string | io_integer | io_boolean.

(** A task: its [base], the value of [make_io_set()] (equal on every call)
    and the [input_type] and [output_type] attributes when it has them. *)
Record BaseTask : Type := MkTask {
  task_base : Z;
  make_io_set : list (list Z * list Z);
  task_input_type : option IOType;
  task_output_type : option IOType
}.

Definition reward_fn_t : Type := list Z → list Z → Z → outcome Q.

Record MultiIOTaskManager : Type := MkManager {
  task : BaseTask;
  max_code_length : Q;
  min_code_length : Q;
  max_execution_steps : Z;
  require_correct_syntax : bool;
  correct_bonus : Q;
  code_length_bonus : Q;
  failure_reward : Q;
  time_penalty : Q;
  reward_fn : reward_fn_t;
  input_type : IOType;
  output_type : IOType;
  best_reward : Q;
  good_reward : Q
}.

(** [_compute_best_reward]: the sum over the test cases, in their order. *)
Fixpoint _compute_best_reward (fn : reward_fn_t) (base : Z)
    (correct_bonus code_length_bonus : Q)
    (io_seqs : list (list Z * list Z)) (reward : Q) : outcome Q :=
  match io_seqs with
  | [] => Ok reward
  | (_, output_seq) :: rest =>
      r ← fn output_seq output_seq base;
      _compute_best_reward fn base correct_bonus code_length_bonus rest
        (reward + r + correct_bonus + code_length_bonus)%Q
  end.

(** [MultiIOTaskManager.__init__]: a keyword argument left out is [None]
    here and takes the default of the signature. *)
Definition __init__ (task : BaseTask)
    (max_code_length min_code_length : option Q)
    (max_execution_steps : option Z)
    (correct_bonus code_length_bonus failure_reward : option Q)
    (reward_fn : option reward_fn_t) (require_correct_syntax : option bool)
    : outcome MultiIOTaskManager :=
  let max_code_length := default 32%Q max_code_length in
  let min_code_length := default 0%Q min_code_length in
  let max_execution_steps := default MAX_EXECUTION_STEPS max_execution_steps in
  let correct_bonus := default 1%Q correct_bonus in
  let code_length_bonus := default 1%Q code_length_bonus in
  let failure_reward := default (-2)%Q failure_reward in
  let require_correct_syntax := default false require_correct_syntax in
  let time_penalty :=
    if negb (Qle_bool max_code_length min_code_length)
    then (1 / (max_code_length - min_code_length))%Q else 0%Q in
  let reward_fn := default reward.absolute_distance_reward reward_fn in
  best ← _compute_best_reward reward_fn (task_base task) correct_bonus
            code_length_bonus (make_io_set task) 0%Q;
  Ok (MkManager task max_code_length min_code_length max_execution_steps
        require_correct_syntax correct_bonus code_length_bonus failure_reward
        time_penalty reward_fn
        (default io_integer (task_input_type task))
        (default io_integer (task_output_type task))
        best (0.75 * best)%Q).

Record RewardInfo : Type := MkRewardInfo {
  episode_rewards : list Q;
  input_case : list (list Z);
  correct_output : list (list Z);
  code_output : list (list Z);
  ri_input_type : IOType;
  ri_output_type : IOType;
  reason : string
}.

Section Scoring.

Variable self : MultiIOTaskManager.
Variable code : list ascii.
(** [clocks k] is the wall clock during the run on test case [k]. *)
Variable clocks : nat → nat → Q.

(** The call of [bf.evaluate] in [_score_code].  [max_steps] is a number
    there, so the loop ends within [max(max_steps, 1)] iterations and the
    fuel given is enough. *)
Definition run_case (k : nat) (input_seq : list Z) : outcome bf.EvalResult :=
  bf.evaluate (S (Z.to_nat (max_execution_steps self))) (clocks k) code
    input_seq None (task_base (task self)) (Some 0.1%Q)
    (Some (max_execution_steps self)) (require_correct_syntax self)
    false false.

(** The local variables [terminal_reward], [results] and [reason]. *)
Definition score_state : Type := Q * list (list Z) * string.

(** The bonus added when [result == output_seq]. *)
Definition length_bonus : Q :=
  if Qeq_bool (min_code_length self) (max_code_length self)
  then code_length_bonus self
  else (code_length_bonus self *
        clipped_linear (inject_Z (Z.of_nat (length code)))
          (min_code_length self) 1 (- time_penalty self) (0, 1))%Q.

(** [for input_seq, output_seq in io_seqs: ...] from test case [k] on. *)
Fixpoint score_loop (k : nat) (io_seqs : list (list Z * list Z))
    (st : score_state) : outcome score_state :=
  match io_seqs with
  | [] => Ok st
  | (input_seq, output_seq) :: rest =>
      let '(terminal_reward, results, reason) := st in
      eval_result ← run_case k input_seq;
      let result := bf.output eval_result in
      if negb (bf.success eval_result) then
        Ok (failure_reward self, [],
            bf.Status_str (bf.failure_reason eval_result))
      else
        r ← reward_fn self result output_seq (task_base (task self));
        let terminal_reward := (terminal_reward + r)%Q in
        let '(terminal_reward, reason) :=
          if decide (result = output_seq)
          then ((terminal_reward + correct_bonus self + length_bonus)%Q,
                reason)
          else (terminal_reward,
                if decide (reason = "correct") then "wrong" else reason) in
        score_loop (S k) rest (terminal_reward, results ++ [result], reason)
  end.

(** [_score_code(code)] on the test cases [io_seqs = task.make_io_set()]. *)
Definition score_on (io_seqs : list (list Z * list Z))
    : outcome RewardInfo :=
  '(terminal_reward, results, reason) ←
    score_loop 0 io_seqs (0%Q, [], "correct");
  terminal_reward ←
    (if Qeq_bool (best_reward self) 0 then Raise ZeroDivisionError
     else Ok (terminal_reward / best_reward self)%Q);
  Ok (MkRewardInfo
        (replicate (length code - 1) 0%Q ++ [terminal_reward])
        (io_seqs.*1) (io_seqs.*2) results
        (input_type self) (output_type self) reason).

Definition _score_code : outcome RewardInfo :=
  score_on (make_io_set (task self)).

End Scoring.

End code_tasks.

(** * heapq (Python standard library)

    The array heap that [MaxUniquePriorityQueue] is built on.  The functions
    follow [heapq.py]; an index read that the algorithm keeps in range falls
    back on the item being placed. *)

Module heapq.

Section Heap.

Context {A : Type}.
(** [cmp_lt(x, y)], the only comparison the module makes. *)
Variable lt : A → A → bool.

(** The [while pos > startpos] loop of [_siftdown]; [pos] decreases in
    every iteration, so [pos] iterations are enough. *)
Fixpoint siftdown_loop (fuel : nat) (heap : list A) (newitem : A)
    (startpos pos : nat) : list A * nat :=
  match fuel with
  | 0 => (heap, pos)
  | S fuel' =>
      if decide (startpos < pos) then
        let parentpos := (pos - 1) / 2 in
        let parent := default newitem (heap !! parentpos) in
        if lt newitem parent
        then siftdown_loop fuel' (<[pos := parent]> heap) newitem
               startpos parentpos
        else (heap, pos)
      else (heap, pos)
  end.

Definition _siftdown (heap : list A) (startpos pos : nat) : list A :=
  match heap !! pos with
  | None => heap
  | Some newitem =>
      let '(heap, pos) := siftdown_loop pos heap newitem startpos pos in
      <[pos := newitem]> heap
  end.

(** The [while childpos < endpos] loop of [_siftup]: the smaller child is
    moved up until a leaf is reached. *)
Fixpoint siftup_loop (fuel : nat) (heap : list A) (newitem : A) (pos : nat)
    : list A * nat :=
  match fuel with
  | 0 => (heap, pos)
  | S fuel' =>
      let endpos := length heap in
      let childpos := 2 * pos + 1 in
      if decide (childpos < endpos) then
        let rightpos := childpos + 1 in
        let childpos :=
          if decide (rightpos < endpos) then
            if negb (lt (default newitem (heap !! childpos))
                        (default newitem (heap !! rightpos)))
            then rightpos else childpos
          else childpos in
        siftup_loop fuel'
          (<[pos := default newitem (heap !! childpos)]> heap) newitem
          childpos
      else (heap, pos)
  end.

Definition _siftup (heap : list A) (pos : nat) : list A :=
  match heap !! pos with
  | None => heap
  | Some newitem =>
      let startpos := pos in
      let '(heap, pos) := siftup_loop (length heap) heap newitem pos in
      _siftdown (<[pos := newitem]> heap) startpos pos
  end.

(** [heappush(heap, item)] *)
Definition heappush (heap : list A) (item : A) : list A :=
  let heap := heap ++ [item] in
  _siftdown heap 0 (length heap - 1).

(** [heappushpop(heap, item)]: the item returned and the heap left. *)
Definition heappushpop (heap : list A) (item : A) : A * list A :=
  match heap with
  | heap0 :: _ =>
      if lt heap0 item
      then (heap0, _siftup (<[0 := item]> heap) 0)
      else (item, heap)
  | [] => (item, heap)
  end.

(** [heappop(heap)]: [heap.pop()] raises on an empty list. *)
Definition heappop (heap : list A) : outcome (A * list A) :=
  match last heap with
  | None => Raise IndexError
  | Some lastelt =>
      let heap := take (length heap - 1) heap in
      match heap with
      | returnitem :: _ =>
          Ok (returnitem, _siftup (<[0 := lastelt]> heap) 0)
      | [] => Ok (lastelt, heap)
      end
  end.

(** The builtins [max(iterable)] and [min(iterable)] on a list that is not
    empty: a later item replaces the current one when it compares strictly
    greater, respectively smaller. *)
Definition py_max (first : A) (rest : list A) : A :=
  foldl (fun maxitem item => if lt maxitem item then item else maxitem)
    first rest.

Definition py_min (first : A) (rest : list A) : A :=
  foldl (fun minitem item => if lt item minitem then item else minitem)
    first rest.

(** [nlargest(1, heap)] and [nsmallest(1, heap)], which go through [max]
    and [min]. *)
Definition nlargest_1 (heap : list A) : list A :=
  match heap with
  | [] => []
  | first :: rest => [py_max first rest]
  end.

Definition nsmallest_1 (heap : list A) : list A :=
  match heap with
  | [] => []
  | first :: rest => [py_min first rest]
  end.

End Heap.

End heapq.

(** * utils.py *)

Module utils.

(** ** MaxUniquePriorityQueue *)

Section MPQ.

Context {Item : Type} `{Countable Item} {Extra : Type}.

Record MPQItemContainer : Type := Container {
  score : Q;
  item : Item;
  extra_data : option Extra
}.

(** [x < y] on containers goes through [__cmp__], which compares the scores
    only. *)
Definition container_lt (x y : MPQItemContainer) : bool :=
  negb (Qle_bool (score y) (score x)).

Record MaxUniquePriorityQueue : Type := MkQueue {
  capacity : nat;
  heap : list MPQItemContainer;
  unique_items : gset Item
}.

Definition mpq_init (capacity : nat) : MaxUniquePriorityQueue :=
  MkQueue capacity [] ∅.

(** [s.remove(x)] on a Python set. *)
Definition set_remove (x : Item) (s : gset Item) : outcome (gset Item) :=
  if decide (x ∈ s) then Ok (s ∖ {[x]}) else Raise KeyError.

Definition push (score : Q) (item : Item) (extra_data : option Extra)
    (self : MaxUniquePriorityQueue) : outcome MaxUniquePriorityQueue :=
  if decide (item ∈ unique_items self) then Ok self
  else if decide (capacity self ≤ length (heap self)) then
    let '(Container _ popped_item _, heap') :=
      heapq.heappushpop container_lt (heap self)
        (Container score item extra_data) in
    items ← set_remove popped_item ({[item]} ∪ unique_items self);
    Ok (MkQueue (capacity self) heap' items)
  else
    Ok (MkQueue (capacity self)
          (heapq.heappush container_lt (heap self)
             (Container score item extra_data))
          ({[item]} ∪ unique_items self)).

(** A sequence of [push] calls, first call first. *)
Fixpoint push_all (calls : list MPQItemContainer)
    (self : MaxUniquePriorityQueue) : outcome MaxUniquePriorityQueue :=
  match calls with
  | [] => Ok self
  | c :: rest =>
      self ← push (score c) (item c) (extra_data c) self;
      push_all rest self
  end.

(** [score, item, extra_data = container]: unpacking through [__iter__]. *)
Definition unpack (c : MPQItemContainer) : Q * Item * option Extra :=
  (score c, item c, extra_data c).

(** [pop()]: [None] stands for the empty tuple returned on an empty
    queue. *)
Definition pop (self : MaxUniquePriorityQueue)
    : outcome (option (Q * Item * option Extra) * MaxUniquePriorityQueue) :=
  match heap self with
  | [] => Ok (None, self)
  | _ =>
      '(c, heap') ← heapq.heappop container_lt (heap self);
      items ← set_remove (item c) (unique_items self);
      Ok (Some (unpack c), MkQueue (capacity self) heap' items)
  end.

Definition get_max (self : MaxUniquePriorityQueue)
    : outcome (option (Q * Item * option Extra)) :=
  match heap self with
  | [] => Ok None
  | _ =>
      c ← getitem (heapq.nlargest_1 container_lt (heap self)) 0;
      Ok (Some (unpack c))
  end.

Definition get_min (self : MaxUniquePriorityQueue)
    : outcome (option (Q * Item * option Extra)) :=
  match heap self with
  | [] => Ok None
  | _ =>
      c ← getitem (heapq.nsmallest_1 container_lt (heap self)) 0;
      Ok (Some (unpack c))
  end.

End MPQ.

Arguments MPQItemContainer : clear implicits.
Arguments MaxUniquePriorityQueue Item {_ _} Extra.

(** ** RouletteWheel *)

Section Roulette.

Context {Obj : Type} {Key : Type} `{Countable Key}.

(** One pickled record of the save file: [(obj, weight, key)]. *)
Definition entry : Type := Obj * Q * option Key.

(** The files on disk: path to the records pickled into the file. *)
Abbreviation disk := (gmap string (list entry)).

Record RouletteWheel : Type := MkWheel {
  unique_mode : bool;
  objects : list Obj;
  weights : list Q;
  partial_sums : list Q;
  keys_to_weights : gmap Key Q;   (* only used in unique mode *)
  save_file : option string;
  save_to_disk_buffer : list entry
}.

Definition total_weight (self : RouletteWheel) : Q :=
  match last (partial_sums self) with
  | Some w => w
  | None => 0%Q
  end.

(** [__iter__]: [zip(self.objects, self.weights)]. *)
Definition wheel_iter (self : RouletteWheel) : list (Obj * Q) :=
  zip (objects self) (weights self).

Definition add (obj : Obj) (weight : Q) (key : option Key)
    (self : RouletteWheel) : outcome (bool * RouletteWheel) :=
  if negb (Qle_bool 0 weight) then Raise ValueError
  else
    let appended (k2w : gmap Key Q) :=
      Ok (true,
          MkWheel (unique_mode self) (objects self ++ [obj])
            (weights self ++ [weight])
            (partial_sums self ++ [(total_weight self + weight)%Q])
            k2w (save_file self)
            (match save_file self with
             | Some _ => save_to_disk_buffer self ++ [(obj, weight, key)]
             | None => save_to_disk_buffer self
             end)) in
    if unique_mode self then
      match key with
      | None => Raise ValueError
      | Some k =>
          match keys_to_weights self !! k with
          | Some _ => Ok (false, self)
          | None => appended (<[k := weight]> (keys_to_weights self))
          end
      end
    else
      match key with
      | Some _ => Raise ValueError
      | None => appended (keys_to_weights self)
      end.

(** [self.save_to_disk_buffer = []] *)
Definition clear_buffer (self : RouletteWheel) : RouletteWheel :=
  MkWheel (unique_mode self) (objects self) (weights self)
    (partial_sums self) (keys_to_weights self) (save_file self) [].

(** The [while 1: ... cPickle.load(f) ... self.add(obj, weight, key)] loop
    of the constructor over the records of the file. *)
Fixpoint load_entries (records : list entry) (self : RouletteWheel)
    : outcome RouletteWheel :=
  match records with
  | [] => Ok self
  | (obj, weight, key) :: rest =>
      '(_, self) ← add obj weight key self;
      load_entries rest self
  end.

Definition wheel_init (unique_mode : bool) (save_file : option string)
    (fs : disk) : outcome RouletteWheel :=
  let self := MkWheel unique_mode [] [] [] ∅ save_file [] in
  match save_file with
  | Some path =>
      match fs !! path with
      | Some records =>
          self ← load_entries records self;
          Ok (clear_buffer self)
      | None => Ok self
      end
  | None => Ok self
  end.

(** [incremental_save]: append the buffer to the file, then clear it. *)
Definition incremental_save (self : RouletteWheel) (fs : disk)
    : outcome (RouletteWheel * disk) :=
  match save_file self with
  | None => Raise RuntimeError
  | Some path =>
      Ok (clear_buffer self,
          <[path := default [] (fs !! path) ++ save_to_disk_buffer self]> fs)
  end.

(** What a client does with a wheel between its construction and the last
    save. *)
Inductive wheel_op : Type :=
  | OpAdd (obj : Obj) (weight : Q) (key : option Key)
  | OpSave.

Fixpoint run_ops (ops : list wheel_op) (self : RouletteWheel) (fs : disk)
    : outcome (RouletteWheel * disk) :=
  match ops with
  | [] => Ok (self, fs)
  | OpAdd obj weight key :: rest =>
      '(_, self) ← add obj weight key self;
      run_ops rest self fs
  | OpSave :: rest =>
      '(self, fs) ← incremental_save self fs;
      run_ops rest self fs
  end.

Definition is_empty (self : RouletteWheel) : bool :=
  bool_decide (partial_sums self = []).

(** The list comprehension of [add_many]: one [add] per object, and the
    number of calls that returned [True]. *)
Fixpoint add_each (i : nat) (objs : list Obj) (weights : list Q)
    (keys : option (list Key)) (self : RouletteWheel)
    : outcome (nat * RouletteWheel) :=
  match objs with
  | [] => Ok (0, self)
  | obj :: rest =>
      weight ← getitem weights i;
      key ← match keys with
            | Some ((_ :: _) as ks) => k ← getitem ks i; Ok (Some k)
            | _ => Ok None
            end;
      '(added, self) ← add obj weight key self;
      '(count, self) ← add_each (S i) rest weights keys self;
      Ok ((if added : bool then 1 else 0) + count, self)
  end.

Definition add_many (objs : list Obj) (weights : list Q)
    (keys : option (list Key)) (self : RouletteWheel)
    : outcome (nat * RouletteWheel) :=
  if bool_decide (is_Some keys) && negb (unique_mode self)
  then Raise ValueError
  else if bool_decide (keys = None) && unique_mode self
  then Raise ValueError
  else if match keys with
          | Some ((_ :: _) as ks) => bool_decide (length objs ≠ length ks)
          | _ => false
          end
  then Raise ValueError
  else if bool_decide (length objs ≠ length weights)
  then Raise ValueError
  else add_each 0 objs weights keys self.

(** [bisect.bisect_right(a, x)]: the loop halves [hi - lo], so [hi - lo]
    rounds are enough. *)
Fixpoint bisect_loop (fuel : nat) (a : list Q) (x : Q) (lo hi : nat)
    : outcome nat :=
  if decide (lo < hi) then
    match fuel with
    | 0 => NoFuel
    | S fuel' =>
        let mid := (lo + hi) / 2 in
        a_mid ← getitem a mid;
        if negb (Qle_bool a_mid x)
        then bisect_loop fuel' a x lo mid
        else bisect_loop fuel' a x (mid + 1) hi
    end
  else Ok lo.

Definition bisect_right (a : list Q) (x : Q) : outcome nat :=
  bisect_loop (length a) a x 0 (length a).

(** [sample()], where [random] is the value of [random.random()]. *)
Definition sample (random : Q) (self : RouletteWheel) : outcome (Obj * Q) :=
  if is_empty self then Raise RuntimeError
  else
    let spin := (random * total_weight self)%Q in
    i ← bisect_right (partial_sums self) spin;
    let i := if decide (i = length (partial_sums self)) then i - 1 else i in
    obj ← getitem (objects self) i;
    weight ← getitem (weights self) i;
    Ok (obj, weight).

End Roulette.

Arguments RouletteWheel Obj Key {_ _}.
Arguments entry : clear implicits.
Abbreviation disk Obj Key := (gmap string (list (entry Obj Key))).
Arguments wheel_op : clear implicits.

End utils.

(** * results_lib.py *)

Module results_lib.

(** One line of a shard file after [ast.literal_eval]: a dict of metrics.
    The values are taken to be integers, which is what the writers store
    under ['max_local_repetitions']. *)
Abbreviation metrics := (gmap string Z).

(** A results directory: what [tf.gfile.ListDirectory(log_dir)] returns
    ([None] when it raises [NotFoundError]) and the parsed lines of the files
    in it, by file name. *)
Record directory : Type := MkDirectory {
  all_children : option (list string);
  files : gmap string (list metrics)
}.

Record ShardStats : Type := MkShardStats {
  num_local_reps_completed : nat;
  max_local_reps : Z;
  finished : bool
}.

(** An element of the [shard_stats] list: a [ShardStats], or the empty list
    that [read_all] puts there when the directory does not exist. *)
Inductive shard_stat : Type :=
  | Stats (s : ShardStats)
  | EmptyList.

Definition ge_non_zero (a b : Z) : bool :=
  bool_decide (a >= b)%Z && bool_decide (b > 0)%Z.

Definition is_digit (c : ascii) : bool :=
  (48 <=? nat_of_ascii c) && (nat_of_ascii c <=? 57).

Definition digit_value (c : ascii) : nat := nat_of_ascii c - 48.

(** [str.lower] on one character. *)
Definition lower (c : ascii) : ascii :=
  let n := nat_of_ascii c in
  if (65 <=? n) && (n <=? 90) then ascii_of_nat (n + 32) else c.

(** [int(s)] for a string of decimal digits; Python also accepts a sign and
    surrounding blanks, which no caller here passes. *)
Definition int_of_digits (s : list ascii) : outcome nat :=
  match s with
  | [] => Raise ValueError
  | _ =>
      if forallb is_digit s
      then Ok (foldl (fun n c => 10 * n + digit_value c) 0 s)
      else Raise ValueError
  end.

(** [re.search(r'^experiment_results_([0-9])+\.txt$', fname)]: the name is
    the prefix, one or more digits and [.txt]; [$] also matches before one
    final newline. *)
Definition search_regex (fname : string) : bool :=
  let s := list_ascii_of_string fname in
  let pre := list_ascii_of_string "experiment_results_" in
  let suf := list_ascii_of_string ".txt" in
  let matches (s : list ascii) :=
    bool_decide (take (length pre) s = pre) &&
    bool_decide (drop (length s - length suf) s = suf) &&
    (let middle := drop (length pre) (take (length s - length suf) s) in
     bool_decide (length pre + length suf < length s) &&
     forallb is_digit middle) in
  matches s ||
  match last s with
  | Some c => bool_decide (c = "010"%char) && matches (take (length s - 1) s)
  | None => false
  end.

(** [file_name.rfind('_')]: the index of the last underscore, searched from
    position [i] on. *)
Fixpoint rfind_underscore (s : list ascii) (i : nat) : option nat :=
  match s with
  | [] => None
  | c :: rest =>
      match rfind_underscore rest (S i) with
      | Some j => Some j
      | None => if (c =? "_")%char then Some i else None
      end
  end.

(** [get_shard_id(file_name)] *)
Definition get_shard_id (file_name : string) : outcome nat :=
  let s := list_ascii_of_string file_name in
  if bool_decide (lower <$> drop (length s - 4) s
                  = list_ascii_of_string ".txt") then
    (* file_name[file_name.rfind('_') + 1: -4]; rfind gives -1 when there is
       no underscore *)
    let start :=
      match rfind_underscore s 0 with
      | Some j => j + 1
      | None => 0
      end in
    int_of_digits (drop start (take (length s - 4) s))
  else Raise AssertionError.

(** The dict comprehension that builds [shard_ids]: a later file name
    replaces an earlier one with the same id. *)
Fixpoint build_shard_ids (children : list string) (ids : gmap nat string)
    : outcome (gmap nat string) :=
  match children with
  | [] => Ok ids
  | fname :: rest =>
      if search_regex fname then
        id ← get_shard_id fname;
        build_shard_ids rest (<[id := fname]> ids)
      else build_shard_ids rest ids
  end.

Section Results.

Variable dir : directory.

(** [_read_shard]: a file that does not exist reads as the empty list. *)
Definition _read_shard (results_file : string) : list metrics :=
  default [] (files dir !! results_file).

Definition _get_max_local_reps (shard_results : list metrics) : outcome Z :=
  mlrs ← foldr (fun (r : metrics) acc =>
                  acc ← acc;
                  match r !! "max_local_repetitions" with
                  | Some n => Ok (n :: acc)
                  | None => Raise KeyError
                  end) (Ok []) shard_results;
  match mlrs with
  | [] => Ok 0%Z
  | first :: others =>
      if forallb (fun n => bool_decide (n = first)) others
      then Ok first else Raise AssertionError
  end.

(** [results_per_shard[shard_id]] *)
Definition shard_results_of (shard_ids : gmap nat string) (shard_id : nat)
    : list metrics :=
  match shard_ids !! shard_id with
  | Some results_file => _read_shard results_file
  | None => []
  end.

Definition shard_stats_of (shard_results : list metrics)
    : outcome shard_stat :=
  max_local_reps ← _get_max_local_reps shard_results;
  Ok (Stats (MkShardStats (length shard_results) max_local_reps
               (ge_non_zero (Z.of_nat (length shard_results))
                  max_local_reps))).

Fixpoint compute_shard_stats (results_per_shard : list (list metrics))
    : outcome (list shard_stat) :=
  match results_per_shard with
  | [] => Ok []
  | shard_results :: rest =>
      s ← shard_stats_of shard_results;
      l ← compute_shard_stats rest;
      Ok (s :: l)
  end.

(** [read_all(num_shards)]: the [aggregate] list and [shard_stats]. *)
Definition read_all (num_shards : option nat)
    : outcome (list metrics * option (list shard_stat)) :=
  match all_children dir with
  | None =>
      match num_shards with
      | None => Ok ([], None)
      | Some n => Ok ([], Some (replicate n EmptyList))
      end
  | Some children =>
      shard_ids ← build_shard_ids children ∅;
      match num_shards with
      | None =>
          (* the order in which a Python dict lists its values is not
             specified; the map's own order stands for it *)
          Ok (concat (_read_shard <$> (map_to_list shard_ids).*2), None)
      | Some n =>
          let results_per_shard := shard_results_of shard_ids <$> seq 0 n in
          shard_stats ← compute_shard_stats results_per_shard;
          Ok (concat results_per_shard, Some shard_stats)
      end
  end.

End Results.

(** [str(n)] for an integer [n >= 0]: its decimal digits, most significant
    first; [fuel] bounds the number of digits. *)
Fixpoint digits (fuel n : nat) (acc : list ascii) : list ascii :=
  match fuel with
  | 0 => acc
  | S fuel' =>
      let acc := ascii_of_nat (48 + n `mod` 10) :: acc in
      if n <? 10 then acc else digits fuel' (n / 10) acc
  end.

Definition str_of_nat (n : nat) : list ascii := digits (S n) n [].

(** [Results.__init__]: [self.file_name = self.file_template.format(shard_id)]
    with [file_template = 'experiment_results_{0}.txt']. *)
Definition file_name (shard_id : nat) : string :=
  string_of_list_ascii
    (list_ascii_of_string "experiment_results_" ++ str_of_nat shard_id
     ++ list_ascii_of_string ".txt").

End results_lib.

(** * ga_lib.py *)

Module ga_lib.

Section Crossover.

Context {Token : Type}.
(** [random.randrange(n)], for [n > 0], as the draw the generator makes. *)
Variable randrange : nat → nat.

(** [crossover(parent1, parent2)]; [random.randrange(0)] raises
    [ValueError]. *)
Definition crossover (parent1 parent2 : list Token)
    : outcome (list Token * list Token) :=
  let '(max_parent, min_parent) :=
    if decide (length parent2 < length parent1)
    then (parent1, parent2) else (parent2, parent1) in
  if decide (length max_parent = 0) then Raise ValueError
  else
    let pos := randrange (length max_parent) in
    if decide (length min_parent ≤ pos) then
      Ok (take pos max_parent, min_parent ++ drop pos max_parent)
    else
      Ok (take pos max_parent ++ drop pos min_parent,
          take pos min_parent ++ drop pos max_parent).

End Crossover.

(** [GENES = bf.CHARS] *)
Definition GENES : list ascii := bf.CHARS.

(** [(n >> 1) << 1] *)
Definition _make_even (n : nat) : nat :=
  Nat.shiftl (Nat.shiftr n 1) 1.

Section Mutation.

(** The state of the module [random], with the draws [random.random()] and
    [random.randrange(n)] for [n > 0]. *)
Variable Rng : Type.
Variable random : Rng → Q * Rng.
Variable randrange : nat → Rng → nat * Rng.

(** [random.randrange(n)]: [ValueError] on an empty range. *)
Definition py_randrange (n : nat) (rng : Rng) : outcome (nat * Rng) :=
  if decide (n = 0) then Raise ValueError else Ok (randrange n rng).

(** [x < y] on floats. *)
Definition Qlt_bool (x y : Q) : bool := negb (Qle_bool y x).

(** One round of the [for pos in range(len(cs))] loop of [mutate_single]. *)
Definition mutate_at (mutation_rate : Q) (pos : nat)
    (st : list ascii * bool * Rng) : outcome (list ascii * bool * Rng) :=
  let '(cs, mutated, rng) := st in
  let '(r, rng) := random rng in
  if Qlt_bool r mutation_rate then
    '(g, rng) ← py_randrange (length GENES) rng;
    new_char ← getitem GENES g;
    let '(x, rng) := random rng in
    if Qlt_bool x 0.25 && negb (Nat.eqb pos 0)
       && negb (Nat.eqb pos (length cs - 1)) then
      let '(y, rng) := random rng in
      if Qlt_bool y 0.50
      then Ok (take pos cs ++ [new_char] ++ drop pos (take (length cs - 1) cs),
               true, rng)
      else Ok (drop 1 (take pos cs) ++ [new_char] ++ drop pos cs, true, rng)
    else if Qlt_bool x 0.50 then
      let '(y, rng) := random rng in
      if Qlt_bool y 0.50
      then Ok (take pos cs ++ drop (pos + 1) cs ++ [new_char], true, rng)
      else Ok ([new_char] ++ take pos cs ++ drop (pos + 1) cs, true, rng)
    else if Qlt_bool x 0.75 then
      let '(y, rng) := random rng in
      if Qlt_bool y 0.50
      then first ← getitem cs 0; Ok (drop 1 cs ++ [first], true, rng)
      else
        final ← match last cs with
                | Some c => Ok c
                | None => Raise IndexError
                end;
        Ok ([final] ++ take (length cs - 1) cs, true, rng)
    else Ok (take pos cs ++ [new_char] ++ drop (pos + 1) cs, true, rng)
  else Ok (cs, mutated, rng).

Fixpoint mutate_loop (mutation_rate : Q) (positions : list nat)
    (st : list ascii * bool * Rng) : outcome (list ascii * bool * Rng) :=
  match positions with
  | [] => Ok st
  | pos :: rest =>
      st ← mutate_at mutation_rate pos st;
      mutate_loop mutation_rate rest st
  end.

(** [mutate_single(code_tokens, mutation_rate)] *)
Definition mutate_single (code_tokens : list ascii) (mutation_rate : Q)
    (rng : Rng) : outcome (list ascii * Rng) :=
  if decide (length code_tokens ≤ 1) then Ok (code_tokens, rng)
  else if decide (last code_tokens = Some "_"%char) then Raise ValueError
  else
    let eos : list ascii := [] in
    '(cs, mutated, rng) ←
      mutate_loop mutation_rate (seq 0 (length code_tokens))
        (code_tokens, false, rng);
    if decide (length cs + length eos = length code_tokens) then
      if mutated : bool then Ok (cs ++ eos, rng) else Ok (code_tokens, rng)
    else Raise AssertionError.

(** [crossover] with the state of the generator passed on. *)
Definition crossover_rng (parent1 parent2 : list ascii) (rng : Rng)
    : outcome (list ascii * list ascii * Rng) :=
  let n := length parent1 `max` length parent2 in
  children ← crossover (fun n => (randrange n rng).1) parent1 parent2;
  Ok (children, (randrange n rng).2).

(** The [for i in xrange(0, _make_even(len(population)), 2)] loop of
    [mutate_and_crossover], [rounds] rounds from index [i] on. *)
Fixpoint pairs_loop (rounds i : nat) (population : list (list ascii))
    (mutation_rate crossover_rate : Q)
    (children : list (option (list ascii))) (rng : Rng)
    : outcome (list (option (list ascii)) * Rng) :=
  match rounds with
  | 0 => Ok (children, rng)
  | S rounds' =>
      p1 ← getitem population i;
      p2 ← getitem population (i + 1);
      let '(r, rng) := random rng in
      '(p1, p2, rng) ←
        (if Qlt_bool r crossover_rate then crossover_rng p1 p2 rng
         else Ok (p1, p2, rng));
      '(c1, rng) ← mutate_single p1 mutation_rate rng;
      '(c2, rng) ← mutate_single p2 mutation_rate rng;
      children ← setitem children i (Some c1);
      children ← setitem children (i + 1) (Some c2);
      pairs_loop rounds' (i + 2) population mutation_rate crossover_rate
        children rng
  end.

(** [mutate_and_crossover(population, mutation_rate, crossover_rate)];
    [children[-1]] raises [IndexError] on an empty list. *)
Definition mutate_and_crossover (population : list (list ascii))
    (mutation_rate crossover_rate : Q) (rng : Rng)
    : outcome (list (option (list ascii)) * Rng) :=
  let children := replicate (length population) None in
  '(children, rng) ←
    pairs_loop (_make_even (length population) / 2) 0 population
      mutation_rate crossover_rate children rng;
  final ← getitem children (length children - 1);
  match final with
  | None =>
      final ← getitem population (length population - 1);
      children ← setitem children (length children - 1) (Some final);
      Ok (children, rng)
  | Some _ => Ok (children, rng)
  end.

End Mutation.

(** [reward_conversion(reward)] *)
Definition reward_conversion (reward : Q) : Q :=
  if Qle_bool reward 0 then 0.05%Q else (reward + 0.05)%Q.

(** An [Individual]: the list itself and [fitness.values], a tuple that is
    empty until the individual has been evaluated. *)
Record Individual : Type := MkIndividual {
  genes : list ascii;
  fitness_values : list Q
}.

(** [Individual(ind)]: a copy of the list with a fresh [Fitness]. *)
Definition copy (ind : Individual) : Individual :=
  MkIndividual (genes ind) [].

Section Selection.

Variable Rng : Type.
Variable random : Rng → Q * Rng.

(** [[reward_conversion(ind.fitness.values[0]) for ind in population]] *)
Fixpoint fitnesses_of (population : list Individual) : outcome (list Q) :=
  match population with
  | [] => Ok []
  | ind :: rest =>
      value ← getitem (fitness_values ind) 0;
      fitnesses ← fitnesses_of rest;
      Ok (reward_conversion value :: fitnesses)
  end.

(** The inner [for ind, fitness in zip(population, fitnesses)] loop: the
    first individual at which the running sum exceeds [u]. *)
Fixpoint spin (u sum_ : Q) (pairs : list (Individual * Q))
    : option Individual :=
  match pairs with
  | [] => None
  | (ind, fitness) :: rest =>
      let sum_ := (sum_ + fitness)%Q in
      if negb (Qle_bool sum_ u) then Some (copy ind) else spin u sum_ rest
  end.

(** One round of the [for i in xrange(k)] loop; [not chosen[i]] holds of
    [None] and of an individual without genes. *)
Definition select_one (population : list Individual) (fitnesses : list Q)
    (sum_fits : Q) (rng : Rng) : outcome (Individual * Rng) :=
  let '(r, rng) := random rng in
  let u := (r * sum_fits)%Q in
  match spin u 0 (zip population fitnesses) with
  | Some (MkIndividual (_ :: _) _ as ind) => Ok (ind, rng)
  | _ =>
      final ← getitem population (length population - 1);
      Ok (copy final, rng)
  end.

Fixpoint select_loop (k : nat) (population : list Individual)
    (fitnesses : list Q) (sum_fits : Q) (rng : Rng)
    : outcome (list Individual * Rng) :=
  match k with
  | 0 => Ok ([], rng)
  | S k' =>
      '(ind, rng) ← select_one population fitnesses sum_fits rng;
      '(chosen, rng) ← select_loop k' population fitnesses sum_fits rng;
      Ok (ind :: chosen, rng)
  end.

(** [roulette_selection(population, k)] *)
Definition roulette_selection (population : list Individual) (k : nat)
    (rng : Rng) : outcome (list Individual * Rng) :=
  fitnesses ← fitnesses_of population;
  if forallb (fun f => negb (Qle_bool f 0)) fitnesses then
    let sum_fits := foldl Qplus 0%Q fitnesses in
    select_loop k population fitnesses sum_fits rng
  else Raise AssertionError.

End Selection.

End ga_lib.

(** * Facts about outcomes *)

Lemma bind_Ok {A B} (f : A → outcome B) (a : A) : (Ok a ≫= f) = f a.
Proof. reflexivity. Qed.

Lemma bind_Ok_inv {A B} (f : A → outcome B) (x : outcome A) (b : B) :
  x ≫= f = Ok b → ∃ a, x = Ok a ∧ f a = Ok b.
Proof. destruct x as [a| |]; cbn; [eauto | discriminate..]. Qed.

Lemma getitem_Ok {A} (l : list A) (i : nat) (x : A) :
  getitem l i = Ok x ↔ l !! i = Some x.
Proof. unfold getitem. destruct (l !! i); split; congruence. Qed.

Lemma getitem_lt {A} (l : list A) (i : nat) :
  i < length l → ∃ x, getitem l i = Ok x ∧ l !! i = Some x.
Proof.
  intros Hi. destruct (lookup_lt_is_Some_2 l i Hi) as [x Hx].
  exists x. split; [by apply getitem_Ok | done].
Qed.

Lemma setitem_Ok {A} (l l' : list A) (i : nat) (x : A) :
  setitem l i x = Ok l' ↔ i < length l ∧ l' = <[i:=x]> l.
Proof.
  unfold setitem. destruct (decide (i < length l)) as [Hi|Hi]; split.
  - by intros [= <-].
  - by intros [_ ->].
  - discriminate.
  - by intros [? _].
Qed.

(** Turns a hypothesis [x ≫= f = Ok b] into its two halves. *)
Ltac bind_inv H :=
  let a := fresh "a" in
  let Ha := fresh "H" in
  apply bind_Ok_inv in H as (a & Ha & H).

(** * The interpreter *)

Module bf_facts.

Import bf.

(** ** The brace map covers every brace *)

Definition is_brace (c : ascii) : Prop := c = "["%char ∨ c = "]"%char.

(** Position [p] is on the stack or has an entry in the map. *)
Definition tracked (s : scan_state) (p : nat) : Prop :=
  p ∈ bracestack s ∨ is_Some (bracemap s !! p).

Lemma scan_step_mono position command s p :
  tracked s p → tracked (scan_step position command s) p.
Proof.
  unfold tracked, scan_step. intros Hp.
  destruct (Ascii.eqb_spec command "[") as [->|_]; cbn.
  - destruct Hp as [Hp|Hp]; [left; by apply elem_of_cons; right | by right].
  - destruct (command =? "]")%char; [|done].
    destruct (bracestack s) as [|start rest] eqn:Hst; cbn.
    + destruct Hp as [Hp|Hp]; [by apply elem_of_nil in Hp|].
      right. rewrite lookup_insert. case_decide; [by eexists | done].
    + destruct Hp as [Hp|Hp].
      * apply elem_of_cons in Hp as [->|Hp]; [right | by left].
        rewrite lookup_insert; case_decide; [by eexists|].
        rewrite lookup_insert_eq; by eexists.
      * right. rewrite !lookup_insert. repeat case_decide; by eauto.
Qed.

Lemma scan_step_brace position command s :
  is_brace command → tracked (scan_step position command s) position.
Proof.
  unfold tracked, scan_step. intros [-> | ->]; cbn.
  - left. by apply elem_of_cons; left.
  - right. destruct (bracestack s); cbn; rewrite lookup_insert_eq; by eexists.
Qed.

Lemma scan_mono code : ∀ position s p,
  tracked s p → tracked (scan position code s) p.
Proof.
  induction code as [|c code IH]; intros position s p Hp; cbn; [done|].
  apply IH. by apply scan_step_mono.
Qed.

Lemma scan_tracks code : ∀ position s p c,
  code !! p = Some c → is_brace c →
  tracked (scan position code s) (position + p).
Proof.
  induction code as [|c0 code IH]; intros position s p c Hp Hc; [done|].
  destruct p as [|p]; cbn in *.
  - simplify_eq. rewrite Nat.add_0_r.
    apply scan_mono. by apply scan_step_brace.
  - replace (position + S p) with (S position + p) by lia. by eapply IH.
Qed.

Lemma close_unmatched_covers s p :
  tracked s p → is_Some ((close_unmatched s).1 !! p).
Proof.
  unfold tracked, close_unmatched. intros Hp.
  assert (∀ (l : list nat) (m : gmap nat nat),
    p ∈ l ∨ is_Some (m !! p) →
    is_Some (foldl (fun m pos => <[pos := pos]> m) m l !! p)) as Hfold.
  { induction l as [|x l IH]; intros m [Hl|Hm]; cbn.
    - by apply elem_of_nil in Hl.
    - done.
    - apply IH. apply elem_of_cons in Hl as [->|Hl]; [right | by left].
      rewrite lookup_insert_eq. by eexists.
    - apply IH. right. rewrite lookup_insert. case_decide; by eauto. }
  destruct (bracestack s) as [|x l] eqn:Hst.
  - destruct Hp as [Hp|Hp]; [by apply elem_of_nil in Hp | done].
  - cbn [fst]. apply Hfold. destruct Hp as [Hp|Hp]; [left | by right].
    by apply elem_of_reverse_2.
Qed.

(** [bracemap[codeptr]] never raises [KeyError] at a brace. *)
Definition covers (bmap : gmap nat nat) (code : list ascii) : Prop :=
  ∀ p c, code !! p = Some c → is_brace c → is_Some (bmap !! p).

Lemma buildbracemap_covers code : covers (buildbracemap code).1 code.
Proof.
  intros p c Hp Hc. unfold buildbracemap.
  apply close_unmatched_covers.
  by apply (scan_tracks code 0 _ p c).
Qed.

(** ** What one operation keeps *)

Section Operations.

Variable code : list ascii.
Variable bmap : gmap nat nat.
Variable base : Z.

(** The data pointer is inside the tape. *)
Definition wf (m : Machine) : Prop := cellptr m < length (cells m).

Definition in_base (c : Z) : Prop := (0 ≤ c < base)%Z.

(** Every value the machine holds is in [0, base): the tape, the input still
    to be read, the output, and the tapes of the snapshots taken so far. *)
Record in_range (m : Machine) : Prop := InRange {
  range_cells : Forall in_base (cells m);
  range_input : Forall in_base (input_iter m);
  range_output : Forall in_base (output_buffer m);
  range_trace : ∀ tr, m_trace m = Some tr →
                  Forall (fun s => Forall in_base (snap_memory s)) tr
}.

Record keeps (m m' : Machine) : Prop := Keeps {
  keeps_steps : m_steps m' = m_steps m;
  keeps_output : output_buffer m `prefix_of` output_buffer m';
  keeps_wf : wf m → wf m';
  keeps_range : (1 ≤ base)%Z → wf m → in_range m → in_range m'
}.

Lemma keeps_refl m : keeps m m.
Proof. by split. Qed.

Lemma keeps_trans m1 m2 m3 : keeps m1 m2 → keeps m2 m3 → keeps m1 m3.
Proof.
  intros [S1 O1 W1 R1] [S2 O2 W2 R2]. split.
  - congruence.
  - by etrans.
  - auto.
  - auto.
Qed.

Lemma set_cell_keeps m m' v :
  ((1 ≤ base)%Z → in_range m → in_base v) →
  set_cell m v = Ok m' → keeps m m'.
Proof.
  unfold set_cell. intros Hv Hm. bind_inv Hm.
  apply setitem_Ok in H as [Hlt ->]. injection Hm as <-.
  split; cbn; [done | done | |].
  - unfold wf; cbn. by rewrite length_insert.
  - intros Hb _ [Hc Hi Ho Ht]. split; cbn; [|done..].
    apply Forall_insert; [done | by apply Hv].
Qed.

Lemma record_snapshot_keeps c m m' :
  record_snapshot c m = Ok m' → keeps m m'.
Proof.
  unfold record_snapshot, snapshot. destruct (m_trace m) as [tr|] eqn:Htr.
  - intros Hm. bind_inv Hm. bind_inv H. injection H as <-. injection Hm as <-.
    split; cbn; [done..|].
    intros _ _ [Hc Hi Ho Ht]. split; cbn; [done..|].
    intros ? [= <-]. apply Forall_app. split; [by apply Ht|].
    by apply Forall_singleton.
  - intros [= <-]. apply keeps_refl.
Qed.

Lemma op_right_keeps c m m' : op_right c m = Ok m' → keeps m m'.
Proof.
  unfold op_right. destruct (c =? ">")%char; [|intros [= <-]; apply keeps_refl].
  intros [= <-]. split; cbn; [done | done | |].
  - unfold wf; cbn. intros Hw.
    destruct (decide (cellptr m + 1 = length (cells m)));
      [rewrite length_app; cbn|]; lia.
  - intros Hb _ [Hc Hi Ho Ht]. split; cbn; [|done..].
    destruct (decide (cellptr m + 1 = length (cells m))); [|done].
    apply Forall_app. split; [done|].
    apply Forall_singleton. unfold in_base, null_value. lia.
Qed.

Lemma op_left_keeps c m m' : op_left c m = Ok m' → keeps m m'.
Proof.
  unfold op_left. destruct (c =? "<")%char; [|intros [= <-]; apply keeps_refl].
  intros [= <-]. split; cbn; [done | done | |].
  - unfold wf; cbn. intros Hw. destruct (decide (cellptr m ≤ 0)); lia.
  - intros _ _ [Hc Hi Ho Ht]. by split.
Qed.

Lemma op_plus_keeps c m m' : op_plus base c m = Ok m' → keeps m m'.
Proof.
  unfold op_plus. destruct (c =? "+")%char; [|intros [= <-]; apply keeps_refl].
  intros Hm. bind_inv Hm. apply getitem_Ok in H.
  eapply set_cell_keeps; [|done].
  intros Hb [Hc _ _ _]. pose proof (Forall_lookup_1 _ _ _ _ Hc H) as Ha.
  unfold in_base in *. destruct (decide (a < base - 1)%Z); lia.
Qed.

Lemma op_minus_keeps c m m' : op_minus base c m = Ok m' → keeps m m'.
Proof.
  unfold op_minus. destruct (c =? "-")%char; [|intros [= <-]; apply keeps_refl].
  intros Hm. bind_inv Hm. apply getitem_Ok in H.
  eapply set_cell_keeps; [|done].
  intros Hb [Hc _ _ _]. pose proof (Forall_lookup_1 _ _ _ _ Hc H) as Ha.
  unfold in_base in *. destruct (decide (a > 0)%Z); lia.
Qed.

Lemma jump_keeps m m' : jump bmap m = Ok m' → keeps m m'.
Proof.
  unfold jump. destruct (bmap !! codeptr m); [|discriminate].
  intros [= <-]. split; cbn; [done..|]. intros _ _ [? ? ? ?]. by split.
Qed.

Lemma op_open_keeps c m m' : op_open bmap c m = Ok m' → keeps m m'.
Proof.
  unfold op_open. destruct (c =? "[")%char; [|intros [= <-]; apply keeps_refl].
  intros Hm. bind_inv Hm. destruct (decide (a = 0%Z)).
  - by apply jump_keeps.
  - injection Hm as <-. apply keeps_refl.
Qed.

Lemma op_close_keeps c m m' : op_close bmap c m = Ok m' → keeps m m'.
Proof.
  unfold op_close. destruct (c =? "]")%char; [|intros [= <-]; apply keeps_refl].
  intros Hm. bind_inv Hm. destruct (decide (a ≠ 0%Z)).
  - by apply jump_keeps.
  - injection Hm as <-. apply keeps_refl.
Qed.

Lemma op_write_keeps c m m' : op_write c m = Ok m' → keeps m m'.
Proof.
  unfold op_write. destruct (c =? ".")%char; [|intros [= <-]; apply keeps_refl].
  intros Hm. bind_inv Hm. apply getitem_Ok in H. injection Hm as <-.
  split; cbn; [done | by apply prefix_app_r | done |].
  intros _ _ [Hc Hi Ho Ht]. split; cbn; [done | done | | done].
  apply Forall_app. split; [done|]. apply Forall_singleton.
  by apply (Forall_lookup_1 _ _ _ _ Hc H).
Qed.

Lemma op_read_keeps c m m' : op_read c m = Ok m' → keeps m m'.
Proof.
  unfold op_read. destruct (c =? ",")%char; [|intros [= <-]; apply keeps_refl].
  destruct (next (input_iter m)) as [v rest] eqn:Hnext.
  intros Hm. bind_inv Hm. apply setitem_Ok in H as [Hlt ->].
  injection Hm as <-. split; cbn; [done | done | |].
  - unfold wf; cbn. by rewrite length_insert.
  - intros Hb _ [Hc Hi Ho Ht]. unfold next in Hnext.
    destruct (input_iter m) as [|x l]; injection Hnext as <- <-.
    + split; cbn; [|done..]. apply Forall_insert; [done|].
      unfold in_base, null_value. lia.
    + apply Forall_cons in Hi as [Hx Hl]. split; cbn; [|done..].
      by apply Forall_insert.
Qed.

(** One iteration of the loop: the operations keep what [keeps] lists, then
    the code pointer and the step counter advance. *)
Lemma loop_body_keeps m m' :
  loop_body code bmap base m = Ok m' →
  ∃ m'', keeps m m'' ∧ m' = advance m''.
Proof.
  unfold loop_body. intros Hm.
  bind_inv Hm. bind_inv Hm. bind_inv Hm. bind_inv Hm. bind_inv Hm.
  bind_inv Hm. bind_inv Hm. bind_inv Hm. bind_inv Hm. bind_inv Hm.
  injection Hm as <-. eexists. split; [|done].
  eapply keeps_trans; [by eapply record_snapshot_keeps|].
  eapply keeps_trans; [by eapply op_right_keeps|].
  eapply keeps_trans; [by eapply op_left_keeps|].
  eapply keeps_trans; [by eapply op_plus_keeps|].
  eapply keeps_trans; [by eapply op_minus_keeps|].
  eapply keeps_trans; [by eapply op_open_keeps|].
  eapply keeps_trans; [by eapply op_close_keeps|].
  eapply keeps_trans; [by eapply op_write_keeps|].
  by eapply op_read_keeps.
Qed.

Lemma loop_body_steps m m' :
  loop_body code bmap base m = Ok m' → m_steps m' = S (m_steps m).
Proof.
  intros (m'' & [Hs _ _ _] & ->)%loop_body_keeps. cbn. lia.
Qed.

(** ** No operation raises *)

Lemma record_snapshot_total c m :
  wf m → ∃ m', record_snapshot c m = Ok m' ∧ codeptr m' = codeptr m.
Proof.
  intros Hw. unfold record_snapshot, snapshot.
  destruct (m_trace m); [|by eexists].
  destruct (getitem_lt _ _ Hw) as (x & -> & _). cbn. by eexists.
Qed.

Lemma op_right_total c m :
  ∃ m', op_right c m = Ok m' ∧ codeptr m' = codeptr m.
Proof. unfold op_right. destruct (c =? ">")%char; by eexists. Qed.

Lemma op_left_total c m :
  ∃ m', op_left c m = Ok m' ∧ codeptr m' = codeptr m.
Proof. unfold op_left. destruct (c =? "<")%char; by eexists. Qed.

Lemma set_cell_total m v :
  wf m → ∃ m', set_cell m v = Ok m' ∧ codeptr m' = codeptr m.
Proof.
  intros Hw. unfold set_cell, setitem.
  destruct (decide (cellptr m < length (cells m))); [|done].
  cbn. by eexists.
Qed.

Lemma op_plus_total c m :
  wf m → ∃ m', op_plus base c m = Ok m' ∧ codeptr m' = codeptr m.
Proof.
  intros Hw. unfold op_plus. destruct (c =? "+")%char; [|by eexists].
  destruct (getitem_lt _ _ Hw) as (x & -> & _). cbn.
  by apply set_cell_total.
Qed.

Lemma op_minus_total c m :
  wf m → ∃ m', op_minus base c m = Ok m' ∧ codeptr m' = codeptr m.
Proof.
  intros Hw. unfold op_minus. destruct (c =? "-")%char; [|by eexists].
  destruct (getitem_lt _ _ Hw) as (x & -> & _). cbn.
  by apply set_cell_total.
Qed.

Lemma op_open_total c m :
  wf m → (c = "["%char → is_Some (bmap !! codeptr m)) →
  ∃ m', op_open bmap c m = Ok m' ∧ (c ≠ "["%char → m' = m).
Proof.
  intros Hw Hb. unfold op_open.
  destruct (Ascii.eqb_spec c "[") as [Hc|Hc]; [|by eexists].
  destruct (getitem_lt _ _ Hw) as (x & -> & _). cbn.
  destruct (decide (x = 0%Z)); [|by eexists].
  unfold jump. destruct (Hb Hc) as [t ->]. by eexists.
Qed.

Lemma op_close_total c m :
  wf m → (c = "]"%char → is_Some (bmap !! codeptr m)) →
  ∃ m', op_close bmap c m = Ok m'.
Proof.
  intros Hw Hb. unfold op_close.
  destruct (Ascii.eqb_spec c "]") as [Hc|Hc]; [|by eexists].
  destruct (getitem_lt _ _ Hw) as (x & -> & _). cbn.
  destruct (decide (x ≠ 0%Z)); [|by eexists].
  unfold jump. destruct (Hb Hc) as [t ->]. by eexists.
Qed.

Lemma op_write_total c m : wf m → ∃ m', op_write c m = Ok m'.
Proof.
  intros Hw. unfold op_write. destruct (c =? ".")%char; [|by eexists].
  destruct (getitem_lt _ _ Hw) as (x & -> & _). cbn. by eexists.
Qed.

Lemma op_read_total c m : wf m → ∃ m', op_read c m = Ok m'.
Proof.
  intros Hw. unfold op_read, setitem. destruct (c =? ",")%char; [|by eexists].
  destruct (next (input_iter m)) as [v rest].
  destruct (decide (cellptr m < length (cells m))); [|done].
  cbn. by eexists.
Qed.

(** With the data pointer inside the tape and a brace map that covers the
    braces, the loop body raises nothing. *)
Lemma loop_body_total m :
  wf m → covers bmap code → codeptr m < length code →
  ∃ m', loop_body code bmap base m = Ok m'.
Proof.
  intros Hw Hcov Hlt. unfold loop_body.
  destruct (getitem_lt _ _ Hlt) as (c & -> & Hc). rewrite bind_Ok.
  destruct (record_snapshot_total (Some c) m Hw) as (m1 & H1 & E1).
  rewrite H1, bind_Ok.
  apply record_snapshot_keeps in H1 as [_ _ W1 _]. specialize (W1 Hw).
  destruct (op_right_total c m1) as (m2 & H2 & E2).
  rewrite H2, bind_Ok.
  apply op_right_keeps in H2 as [_ _ W2 _]. specialize (W2 W1).
  destruct (op_left_total c m2) as (m3 & H3 & E3).
  rewrite H3, bind_Ok.
  apply op_left_keeps in H3 as [_ _ W3 _]. specialize (W3 W2).
  destruct (op_plus_total c m3 W3) as (m4 & H4 & E4).
  rewrite H4, bind_Ok.
  apply op_plus_keeps in H4 as [_ _ W4 _]. specialize (W4 W3).
  destruct (op_minus_total c m4 W4) as (m5 & H5 & E5).
  rewrite H5, bind_Ok.
  apply op_minus_keeps in H5 as [_ _ W5 _]. specialize (W5 W4).
  assert (codeptr m5 = codeptr m) as E by congruence.
  assert (is_brace c → is_Some (bmap !! codeptr m5)) as Hb.
  { rewrite E. by apply Hcov. }
  destruct (op_open_total c m5 W5) as (m6 & H6 & E6);
    [intros; apply Hb; by left |].
  rewrite H6, bind_Ok.
  apply op_open_keeps in H6 as [_ _ W6 _]. specialize (W6 W5).
  destruct (op_close_total c m6 W6) as (m7 & H7).
  { intros ->. rewrite E6 by done. apply Hb. by right. }
  rewrite H7, bind_Ok.
  apply op_close_keeps in H7 as [_ _ W7 _]. specialize (W7 W6).
  destruct (op_write_total c m7 W7) as (m8 & H8).
  rewrite H8, bind_Ok.
  apply op_write_keeps in H8 as [_ _ W8 _]. specialize (W8 W7).
  destruct (op_read_total c m8 W8) as (m9 & H9).
  rewrite H9, bind_Ok. by eexists.
Qed.

End Operations.

(** ** The loop *)

Section Loop.

Variable code : list ascii.
Variable bmap : gmap nat nat.
Variable base : Z.
Variable timeout : option Q.
Variable max_steps : option Z.
Variable clock : nat → Q.

Abbreviation body := (loop_body code bmap base).
Abbreviation loop := (while_loop code bmap base timeout max_steps clock).
Abbreviation check := (stop_check timeout max_steps clock).

(** A property that every iteration keeps holds when the loop is left. *)
Lemma while_loop_invariant (I : Machine → Prop) :
  (∀ m m', I m → codeptr m < length code → body m = Ok m' → I m') →
  ∀ fuel m m' ok reason,
    I m → loop fuel m = Ok (m', ok, reason) → I m'.
Proof.
  intros Hstep. induction fuel as [|fuel IH]; intros m m' ok reason Hm; cbn.
  - destruct (decide (codeptr m < length code)); [done|]. by intros [= <- _ _].
  - destruct (decide (codeptr m < length code)); [|by intros [= <- _ _]].
    intros Hl. bind_inv Hl.
    destruct (check a).
    + injection Hl as <- _ _. by eapply Hstep.
    + eapply IH; [|done]. by eapply Hstep.
Qed.

(** How the loop was left: at its head, before any step, or after a step,
    by the checks made on the machine that step produced. *)
Definition left_by (m' : Machine) (ok : bool) (reason : Status) : Prop :=
  match check m' with
  | Some s => ok = false ∧ reason = s
  | None => ok = true ∧ reason = SUCCESS ∧ ¬ codeptr m' < length code
  end.

Lemma while_loop_exit : ∀ fuel m m' ok reason,
  loop fuel m = Ok (m', ok, reason) →
  (m' = m ∧ ok = true ∧ reason = SUCCESS ∧ ¬ codeptr m < length code) ∨
  (m_steps m < m_steps m' ∧ left_by m' ok reason).
Proof.
  induction fuel as [|fuel IH]; intros m m' ok reason; cbn.
  - destruct (decide (codeptr m < length code)); [done|].
    intros [= <- <- <-]. by left.
  - destruct (decide (codeptr m < length code)); [|intros [= <- <- <-]; by left].
    intros Hl. bind_inv Hl. apply loop_body_steps in H.
    destruct (check a) as [s|] eqn:Hs.
    + injection Hl as <- <- <-. right. split; [lia|].
      unfold left_by. by rewrite Hs.
    + apply IH in Hl as [(-> & -> & -> & Hn)|[Hlt Hleft]]; right.
      * split; [lia|]. unfold left_by. by rewrite Hs.
      * split; [lia | done].
Qed.

(** With a step limit [n], an iteration starts only from a machine that
    has made no step yet or fewer than [n]; the loop then ends within
    [max(n, 1)] steps. *)
Lemma while_loop_total n : max_steps = Some n →
  ∀ fuel m,
    wf m → covers bmap code →
    (m_steps m = 0 ∨ (Z.of_nat (m_steps m) < n)%Z) →
    (Z.max 1 n ≤ Z.of_nat (fuel + m_steps m))%Z →
    ∃ res, loop fuel m = Ok res.
Proof.
  intros Hmax. induction fuel as [|fuel IH]; intros m Hw Hcov Hs Hf; cbn.
  - destruct (decide (codeptr m < length code)); [lia | by eexists].
  - destruct (decide (codeptr m < length code)); [|by eexists].
    destruct (loop_body_total code bmap base m Hw Hcov l) as [m' Hb].
    rewrite Hb, bind_Ok.
    pose proof (loop_body_steps _ _ _ _ _ Hb) as Hst.
    apply loop_body_keeps in Hb as (m'' & [_ _ W _] & ->).
    destruct (check (advance m'')) eqn:Hchk; [by eexists|].
    unfold stop_check in Hchk. destruct (timed_out _ _ _); [done|].
    destruct (step_limit_hit _ _) eqn:Hlim; [done|].
    unfold step_limit_hit in Hlim. rewrite Hmax in Hlim.
    apply bool_decide_eq_false in Hlim.
    apply IH; [exact (W Hw) | done | right; lia | lia].
Qed.

End Loop.

(** ** What [evaluate] returns *)

(** The machine before the first iteration. *)
Definition initial (input_buffer : list Z) (init_memory : option (list Z))
    (debug : bool) : Machine :=
  MkMachine 0 0
    (match init_memory with
     | Some (c :: l) => c :: l
     | _ => [0%Z]
     end)
    input_buffer [] 0 (if debug then Some [] else None).

Lemma initial_wf input_buffer init_memory debug :
  wf (initial input_buffer init_memory debug).
Proof. unfold wf. destruct init_memory as [[|c l]|]; cbn; lia. Qed.

Lemma initial_in_range base input_buffer init_memory debug :
  (1 ≤ base)%Z →
  Forall (in_base base) input_buffer →
  (∀ l, init_memory = Some l → Forall (in_base base) l) →
  in_range base (initial input_buffer init_memory debug).
Proof.
  intros Hb Hi Hm. split; cbn; [|done|done|].
  - destruct init_memory as [[|c l]|]; [|by apply Hm|];
      apply Forall_singleton; unfold in_base; lia.
  - destruct debug; [|done]. by intros ? [= <-].
Qed.

(** The two ways [evaluate] returns: the syntax check, or the loop followed
    by the last snapshot. *)
Lemma evaluate_inv fuel clock code input_buffer init_memory base timeout
    max_steps require_correct_syntax output_memory debug r :
  evaluate fuel clock code input_buffer init_memory base timeout max_steps
    require_correct_syntax output_memory debug = Ok r →
  (r = MkEvalResult [] false SYNTAX_ERROR 0
         (if output_memory then Some [] else None)
         (if debug then Some [] else None)) ∨
  (∃ m ok reason m',
     while_loop code (buildbracemap code).1 base timeout max_steps clock fuel
       (initial input_buffer init_memory debug) = Ok (m, ok, reason) ∧
     record_snapshot (code !! codeptr m) m = Ok m' ∧
     r = MkEvalResult (output_buffer m') ok reason (m_steps m')
           (if output_memory then Some (cells m') else None) (m_trace m')).
Proof.
  unfold evaluate. destruct (buildbracemap code) as [bmap cs].
  destruct (require_correct_syntax && negb cs).
  - intros [= <-]. by left.
  - intros Hr. bind_inv Hr. destruct a as [[m ok] reason].
    bind_inv Hr. injection Hr as <-. right. by exists m, ok, reason, a.
Qed.

(** With a step limit, [evaluate] returns a result, whatever the clock. *)
Lemma evaluate_total fuel clock code input_buffer init_memory base timeout n
    require_correct_syntax output_memory debug :
  (Z.max 1 n ≤ Z.of_nat fuel)%Z →
  ∃ r, evaluate fuel clock code input_buffer init_memory base timeout
         (Some n) require_correct_syntax output_memory debug = Ok r.
Proof.
  intros Hf. unfold evaluate.
  pose proof (buildbracemap_covers code) as Hcov.
  destruct (buildbracemap code) as [bmap cs]. cbn in Hcov.
  destruct (require_correct_syntax && negb cs); [by eexists|].
  fold (initial input_buffer init_memory debug).
  pose proof (initial_wf input_buffer init_memory debug) as Hw.
  destruct (while_loop_total code bmap base timeout (Some n) clock n eq_refl
              fuel _ Hw Hcov) as [[[m ok] reason] Hl];
    [by left | cbn; lia |].
  rewrite Hl, bind_Ok.
  eapply (while_loop_invariant code bmap base timeout (Some n) clock wf)
    in Hw; [|clear; intros m m' Hw _ Hb|exact Hl].
  - destruct (record_snapshot_total (code !! codeptr m) m Hw) as (m' & -> & _).
    rewrite bind_Ok. by eexists.
  - apply loop_body_keeps in Hb as (m'' & [_ _ W _] & ->). exact (W Hw).
Qed.

Lemma record_snapshot_same c m m' :
  record_snapshot c m = Ok m' →
  output_buffer m' = output_buffer m ∧ m_steps m' = m_steps m ∧
  cells m' = cells m.
Proof.
  unfold record_snapshot. destruct (m_trace m); [|by intros [= <-]].
  intros Hm. bind_inv Hm. by injection Hm as <-.
Qed.


(** ** The order of the stop conditions *)




(** ** Characters outside the alphabet *)

Lemma not_in_CHARS c :
  c ∉ CHARS →
  (c =? ">")%char = false ∧ (c =? "<")%char = false ∧
  (c =? "+")%char = false ∧ (c =? "-")%char = false ∧
  (c =? "[")%char = false ∧ (c =? "]")%char = false ∧
  (c =? ".")%char = false ∧ (c =? ",")%char = false.
Proof.
  unfold CHARS. rewrite !not_elem_of_cons.
  intros (? & ? & ? & ? & ? & ? & ? & ? & _).
  repeat split; by apply Ascii.eqb_neq.
Qed.

Lemma invalid_char_body code bmap base m c :
  code !! codeptr m = Some c → c ∉ CHARS →
  loop_body code bmap base m
  = record_snapshot (Some c) m ≫= (fun m => Ok (advance m)).
Proof.
  intros Hc (E1 & E2 & E3 & E4 & E5 & E6 & E7 & E8)%not_in_CHARS.
  unfold loop_body. apply getitem_Ok in Hc. rewrite Hc, bind_Ok.
  destruct (record_snapshot (Some c) m) as [m1| |]; [|done..].
  unfold op_right, op_left, op_plus, op_minus, op_open, op_close, op_write,
    op_read.
  by rewrite E1, E2, E3, E4, E5, E6, E7, E8.
Qed.




(** A whole program of such characters: one step for each of them, and
    nothing else happens. *)
Lemma scan_step_invalid position c s :
  c ∉ CHARS → scan_step position c s = s.
Proof.
  intros (_ & _ & _ & _ & E5 & E6 & _)%not_in_CHARS.
  unfold scan_step. by rewrite E5, E6.
Qed.

Lemma scan_invalid code : ∀ position s,
  Forall (fun c => c ∉ CHARS) code → scan position code s = s.
Proof.
  induction code as [|c code IH]; intros position s Hall; cbn; [done|].
  apply Forall_cons in Hall as [Hc Hall].
  rewrite scan_step_invalid by done. by apply IH.
Qed.

Lemma while_loop_invalid code bmap base clock :
  Forall (fun c => c ∉ CHARS) code →
  ∀ fuel m,
    m_trace m = None → codeptr m ≤ length code →
    length code - codeptr m ≤ fuel →
    while_loop code bmap base None None clock fuel m
    = Ok (MkMachine (length code) (cellptr m) (cells m) (input_iter m)
            (output_buffer m) (m_steps m + (length code - codeptr m)) None,
          true, SUCCESS).
Proof.
  intros Hall. induction fuel as [|fuel IH]; intros m Ht Hle Hf;
    cbn [while_loop];
    (destruct (decide (codeptr m < length code)) as [Hlt|Hge];
       [|destruct m; cbn in *; subst; do 4 f_equal; lia]);
    [lia|].
  destruct (lookup_lt_is_Some_2 code (codeptr m) Hlt) as [c Hc].
  assert (c ∉ CHARS) as Hn
    by exact (proj1 (Forall_lookup _ _) Hall _ _ Hc).
  rewrite (invalid_char_body _ _ _ _ c Hc Hn).
  unfold record_snapshot. rewrite Ht, !bind_Ok.
  change (stop_check None None clock (advance m)) with (@None Status).
  rewrite IH by (cbn; lia || done). cbn. do 4 f_equal. lia.
Qed.

Lemma invalid_program_steps fuel clock code input_buffer base
    require_correct_syntax output_memory :
  Forall (fun c => c ∉ CHARS) code → length code ≤ fuel →
  evaluate fuel clock code input_buffer None base None None
    require_correct_syntax output_memory false
  = Ok (MkEvalResult [] true SUCCESS (length code)
          (if output_memory then Some [0%Z] else None) None).
Proof.
  intros Hall Hf. unfold evaluate, buildbracemap.
  rewrite scan_invalid by done. cbn [close_unmatched bracestack bracemap
    correct_syntax negb].
  rewrite andb_false_r.
  rewrite (while_loop_invalid code ∅ base clock Hall) by (cbn; lia || done).
  rewrite bind_Ok. cbn. by rewrite Nat.sub_0_r.
Qed.

(** ** The range of the tape cells *)

(** C3, as the code has it: [evaluate] neither reduces nor checks the values
    it reads from [input_buffer] or copies from [init_memory], so their range
    is a precondition.  When they are in [0, base) and [base ≥ 2], so is
    every cell at every point of the run: in the tape of every snapshot of
    the trace, in the memory returned and in the output. *)
Theorem cells_in_base fuel clock code input_buffer init_memory base timeout
    max_steps require_correct_syntax output_memory debug r :
  (2 ≤ base)%Z →
  Forall (in_base base) input_buffer →
  (∀ l, init_memory = Some l → Forall (in_base base) l) →
  evaluate fuel clock code input_buffer init_memory base timeout max_steps
    require_correct_syntax output_memory debug = Ok r →
  (∀ tr, program_trace r = Some tr →
     Forall (fun s => Forall (in_base base) (snap_memory s)) tr) ∧
  (∀ mem, memory r = Some mem → Forall (in_base base) mem) ∧
  Forall (in_base base) (output r).
Proof.
  intros Hb Hi Hm Hr.
  apply evaluate_inv in Hr as [->|(m1 & ok & reason & m2 & Hl & Hsnap & ->)].
  { cbn. split; [|split; [|done]].
    - destruct debug; [|done]. by intros ? [= <-].
    - destruct output_memory; [|done]. by intros ? [= <-]. }
  assert (wf m1 ∧ in_range base m1) as [Hw1 Hr1].
  { eapply (while_loop_invariant code _ base timeout max_steps clock
              (fun m => wf m ∧ in_range base m)); [| |exact Hl].
    - intros m m' [Hw Hrg] _ (m'' & [_ _ W R] & ->)%loop_body_keeps.
      split; [exact (W Hw)|].
      destruct (R ltac:(lia) Hw Hrg) as [? ? ? ?]. by split.
    - split; [apply initial_wf|]. apply initial_in_range; [lia|done..]. }
  apply (record_snapshot_keeps base) in Hsnap as [_ _ _ R].
  destruct (R ltac:(lia) Hw1 Hr1) as [Hc _ Ho Ht]. cbn.
  split; [exact Ht|]. split; [|exact Ho].
  destruct output_memory; [|done]. by intros ? [= <-].
Qed.

Lemma cells_in_base_witness :
  let r := MkEvalResult [3; 1; 2]%Z true SUCCESS 9 (Some [2%Z]) None in
  (2 ≤ 5)%Z ∧ Forall (in_base 5) [] ∧
  (∀ l, @None (list Z) = Some l → Forall (in_base 5) l) ∧
  evaluate 20 (fun _ => 0%Q) (program "+++.--.+.") [] None 5 None None
    true true false = Ok r ∧
  (∀ tr, program_trace r = Some tr →
     Forall (fun s => Forall (in_base 5) (snap_memory s)) tr) ∧
  (∀ mem, memory r = Some mem → Forall (in_base 5) mem) ∧
  Forall (in_base 5) (output r).
Proof.
  intros r.
  assert ((2 ≤ 5)%Z) as Hb by lia.
  assert (∀ l, @None (list Z) = Some l → Forall (in_base 5) l) as Hm
    by (intros l Hl; discriminate Hl).
  assert (evaluate 20 (fun _ => 0%Q) (program "+++.--.+.") [] None 5 None
            None true true false = Ok r) as Hr by reflexivity.
  split; [exact Hb|]. split; [constructor|]. split; [exact Hm|].
  split; [exact Hr|].
  exact (cells_in_base _ _ _ _ _ _ _ _ _ _ _ r Hb (Forall_nil_2 _) Hm Hr).
Defined.

(** C3 as the specification states it fails: a value read by [,] is stored
    as it comes. *)
Lemma cells_in_base_counterexample :
  ∃ r mem c,
    (2 ≤ 256)%Z ∧
    evaluate 5 (fun _ => 0%Q) (program ",") [300%Z] None 256 None None
      true true false = Ok r ∧
    memory r = Some mem ∧ c ∈ mem ∧ ¬ (0 ≤ c < 256)%Z.
Proof.
  exists (MkEvalResult [] true SUCCESS 1 (Some [300%Z]) None), [300%Z], 300%Z.
  split; [lia|]. split; [reflexivity|]. split; [reflexivity|].
  split; [by apply list_elem_of_singleton | lia].
Qed.

(** ** One more step of budget *)

Lemma while_loop_output_mono code bmap base timeout max_steps clock
    fuel m m' ok reason :
  while_loop code bmap base timeout max_steps clock fuel m
    = Ok (m', ok, reason) →
  output_buffer m `prefix_of` output_buffer m'.
Proof.
  apply (while_loop_invariant code bmap base timeout max_steps clock
           (fun x => output_buffer m `prefix_of` output_buffer x));
    [|done].
  intros m1 m2 Hp _ (m'' & [_ O _ _] & ->)%loop_body_keeps. cbn. by etrans.
Qed.

(** Without a timeout, the check after a step is the step limit alone. *)
Lemma stop_check_limit clock n m :
  stop_check None (Some n) clock m
  = if bool_decide (Z.of_nat (m_steps m) >= n)%Z then Some STEP_LIMIT
    else None.
Proof. reflexivity. Qed.

(** The runs with limits [n] and [n + 1] make the same steps until the
    first one stops; the second one can only add to the output. *)
Lemma while_loop_next_limit code bmap base clock clock' n :
  covers bmap code →
  ∀ fuel fuel' m,
    wf m →
    (m_steps m = 0 ∨ (Z.of_nat (m_steps m) < n)%Z) →
    (Z.max 1 n ≤ Z.of_nat (fuel + m_steps m))%Z →
    (Z.max 1 (n + 1) ≤ Z.of_nat (fuel' + m_steps m))%Z →
    ∃ m1 ok1 reason1 m2 ok2 reason2,
      while_loop code bmap base None (Some n) clock fuel m
        = Ok (m1, ok1, reason1) ∧
      while_loop code bmap base None (Some (n + 1)%Z) clock' fuel' m
        = Ok (m2, ok2, reason2) ∧
      output_buffer m1 `prefix_of` output_buffer m2.
Proof.
  intros Hcov. induction fuel as [|fuel IH]; intros [|fuel'] m Hw Hs Hf Hf';
    cbn [while_loop];
    (destruct (decide (codeptr m < length code)) as [Hlt|Hge];
       [|by eexists m, _, _, m, _, _]);
    try lia.
  destruct (loop_body_total code bmap base m Hw Hcov Hlt) as [m' Hb].
  rewrite Hb, !bind_Ok.
  pose proof (loop_body_steps _ _ _ _ _ Hb) as Hst.
  apply loop_body_keeps in Hb as (m'' & [_ _ W _] & ->).
  specialize (W Hw). rewrite !stop_check_limit.
  destruct (bool_decide_reflect (Z.of_nat (m_steps (advance m'')) >= n)%Z)
    as [Hn|Hn];
    destruct (bool_decide_reflect
                (Z.of_nat (m_steps (advance m'')) >= n + 1)%Z) as [Hn'|Hn'];
    try lia.
  - by eexists _, _, _, _, _, _.
  - destruct (while_loop_total code bmap base None (Some (n + 1)%Z) clock'
                (n + 1)%Z eq_refl fuel' (advance m'') W Hcov)
      as [[[m2 ok2] reason2] Hl2]; [right; lia | lia |].
    eexists _, _, _, m2, ok2, reason2. split; [done|]. split; [done|].
    by eapply while_loop_output_mono.
  - apply IH; [exact W | right; lia | lia | lia].
Qed.

(** C4: with the wall-clock timeout disabled and [n ≥ 0], the output of the
    run with [max_steps=n], when that run did not end in SUCCESS, is a prefix
    of the output of the run with [max_steps=n+1].  Both runs return a
    result. *)
Theorem output_prefix_next_limit fuel fuel' clock clock' code input_buffer
    init_memory base n require_correct_syntax output_memory debug :
  (0 ≤ n)%Z →
  (Z.max 1 n ≤ Z.of_nat fuel)%Z →
  (n + 1 ≤ Z.of_nat fuel')%Z →
  ∃ r r',
    evaluate fuel clock code input_buffer init_memory base None (Some n)
      require_correct_syntax output_memory debug = Ok r ∧
    evaluate fuel' clock' code input_buffer init_memory base None
      (Some (n + 1)%Z) require_correct_syntax output_memory debug = Ok r' ∧
    (failure_reason r ≠ SUCCESS → output r `prefix_of` output r').
Proof.
  intros Hn Hf Hf'. unfold evaluate.
  pose proof (buildbracemap_covers code) as Hcov.
  destruct (buildbracemap code) as [bmap cs]. cbn in Hcov.
  destruct (require_correct_syntax && negb cs); [by eexists _, _|].
  fold (initial input_buffer init_memory debug).
  pose proof (initial_wf input_buffer init_memory debug) as Hw.
  destruct (while_loop_next_limit code bmap base clock clock' n Hcov
              fuel fuel' _ Hw)
    as (m1 & ok1 & re1 & m2 & ok2 & re2 & H1 & H2 & Hp);
    [by left | cbn; lia | cbn; lia |].
  rewrite H1, H2, !bind_Ok.
  assert (wf m1 ∧ wf m2) as [Hw1 Hw2].
  { split;
      (eapply (while_loop_invariant code bmap base _ _ _ wf);
         [|exact Hw|done]);
      intros m m' Hm _ (m'' & [_ _ W _] & ->)%loop_body_keeps;
      exact (W Hm). }
  destruct (record_snapshot_total (code !! codeptr m1) m1 Hw1)
    as (m1' & Hs1 & _).
  destruct (record_snapshot_total (code !! codeptr m2) m2 Hw2)
    as (m2' & Hs2 & _).
  rewrite Hs1, Hs2, !bind_Ok. eexists _, _. split; [done|]. split; [done|].
  intros _. cbn.
  apply record_snapshot_same in Hs1 as (-> & _).
  apply record_snapshot_same in Hs2 as (-> & _). done.
Qed.

Lemma output_prefix_next_limit_witness :
  (0 ≤ 3)%Z ∧ (Z.max 1 3 ≤ Z.of_nat 5)%Z ∧ (3 + 1 ≤ Z.of_nat 5)%Z ∧
  ∃ r r',
    evaluate 5 (fun _ => 0%Q) (program "+.+.+.") [] None 256 None
      (Some 3%Z) true false false = Ok r ∧
    evaluate 5 (fun _ => 0%Q) (program "+.+.+.") [] None 256 None
      (Some (3 + 1)%Z) true false false = Ok r' ∧
    (failure_reason r ≠ SUCCESS → output r `prefix_of` output r').
Proof.
  assert ((0 ≤ 3)%Z) as H0 by lia.
  assert ((Z.max 1 3 ≤ Z.of_nat 5)%Z) as H1 by lia.
  assert ((3 + 1 ≤ Z.of_nat 5)%Z) as H2 by lia.
  split; [exact H0|]. split; [exact H1|]. split; [exact H2|].
  exact (output_prefix_next_limit 5 5 (fun _ => 0%Q) (fun _ => 0%Q)
           (program "+.+.+.") [] None 256 3 true false false H0 H1 H2).
Defined.

End bf_facts.

(** * The genetic algorithm's crossover *)

Module ga_facts.

Import ga_lib.

(** C10: when the longer parent is not empty, [crossover] returns two
    children whose lengths add up to the parents' lengths, and neither child
    is longer than the longer parent. *)
Theorem crossover_lengths {Token : Type} (randrange : nat → nat)
    (parent1 parent2 : list Token) :
  (∀ n, 0 < n → randrange n < n) →
  0 < length parent1 `max` length parent2 →
  ∃ child1 child2,
    crossover randrange parent1 parent2 = Ok (child1, child2) ∧
    length child1 + length child2 = length parent1 + length parent2 ∧
    length child1 ≤ length parent1 `max` length parent2 ∧
    length child2 ≤ length parent1 `max` length parent2.
Proof.
  intros Hrand Hmax. unfold crossover.
  destruct (decide (length parent2 < length parent1)) as [Hlt|Hge].
  - destruct (decide (length parent1 = 0)) as [E|_]; [lia|].
    pose proof (Hrand (length parent1) ltac:(lia)) as Hpos.
    destruct (decide (length parent2 ≤ randrange (length parent1)));
      eexists _, _; (split; [reflexivity|]);
      rewrite ?length_app, ?length_take, ?length_drop; lia.
  - destruct (decide (length parent2 = 0)) as [E|_]; [lia|].
    pose proof (Hrand (length parent2) ltac:(lia)) as Hpos.
    destruct (decide (length parent1 ≤ randrange (length parent2)));
      eexists _, _; (split; [reflexivity|]);
      rewrite ?length_app, ?length_take, ?length_drop; lia.
Qed.

Lemma crossover_lengths_witness :
  let randrange := fun n => n - 1 in
  let parent1 := [">"; "+"; "."]%char in
  let parent2 := ["-"; "<"; "["; "]"; ","]%char in
  (∀ n, 0 < n → randrange n < n) ∧
  0 < length parent1 `max` length parent2 ∧
  ∃ child1 child2,
    crossover randrange parent1 parent2 = Ok (child1, child2) ∧
    length child1 + length child2 = length parent1 + length parent2 ∧
    length child1 ≤ length parent1 `max` length parent2 ∧
    length child2 ≤ length parent1 `max` length parent2.
Proof.
  intros randrange parent1 parent2.
  assert (∀ n, 0 < n → randrange n < n) as Hrand
    by (intros n Hn; unfold randrange; lia).
  assert (0 < length parent1 `max` length parent2) as Hmax by (cbn; lia).
  split; [exact Hrand|]. split; [exact Hmax|].
  exact (crossover_lengths randrange parent1 parent2 Hrand Hmax).
Defined.

End ga_facts.

(** * The scoring wrapper *)

Module code_tasks_facts.

Import code_tasks.

(** ** The constructor's defaults *)

(** C6, as the code has it: called with the task alone (and, optionally, the
    two code lengths), the constructor sets [max_execution_steps = 5000],
    [correct_bonus = 1.0], [code_length_bonus = 1.0], [failure_reward = -2.0]
    and [time_penalty = 1 / (max_code_length - min_code_length)] when
    [max_code_length > min_code_length], else 0.  (2.0 is the default of
    [correct_bonus] in [make_task], which passes it on.) *)
Theorem constructor_defaults (task : BaseTask)
    (max_code_length min_code_length : option Q)
    (reward_fn : option reward_fn_t) (require_correct_syntax : option bool)
    (self : MultiIOTaskManager) :
  __init__ task max_code_length min_code_length None None None None
    reward_fn require_correct_syntax = Ok self →
  let max_len := default 32%Q max_code_length in
  let min_len := default 0%Q min_code_length in
  code_tasks.max_execution_steps self = 5000%Z ∧
  code_tasks.correct_bonus self = 1%Q ∧
  code_tasks.code_length_bonus self = 1%Q ∧
  code_tasks.failure_reward self = (-2)%Q ∧
  ((min_len < max_len)%Q → time_penalty self = (1 / (max_len - min_len))%Q) ∧
  (¬ (min_len < max_len)%Q → time_penalty self = 0%Q).
Proof.
  unfold __init__. intros Hinit. bind_inv Hinit. injection Hinit as <-. cbn.
  repeat split.
  - intros Hlt. destruct (Qle_bool _ _) eqn:Hle; [|done].
    apply Qle_bool_iff in Hle. by apply Qle_not_lt in Hle.
  - intros Hlt. destruct (Qle_bool _ _) eqn:Hle; [done|].
    exfalso. apply Hlt. apply Qnot_le_lt. intros Hle'.
    apply Qle_bool_iff in Hle'. congruence.
Qed.

Definition print_task : BaseTask :=
  MkTask 256 [([], [1; 2; 3]%Z)] None None.

Lemma constructor_defaults_witness :
  ∃ self,
    __init__ print_task None None None None None None None None = Ok self ∧
    code_tasks.max_execution_steps self = 5000%Z ∧
    code_tasks.correct_bonus self = 1%Q ∧
    code_tasks.code_length_bonus self = 1%Q ∧
    code_tasks.failure_reward self = (-2)%Q ∧
    ((0 < 32)%Q → time_penalty self = (1 / (32 - 0))%Q) ∧
    (¬ (0 < 32)%Q → time_penalty self = 0%Q).
Proof.
  eexists. split; [reflexivity|].
  exact (constructor_defaults print_task None None None None _ eq_refl).
Defined.

(** C6 as the specification states it fails: the constructor's own default
    for [correct_bonus] is 1.0. *)
Lemma constructor_defaults_counterexample :
  ∃ self,
    __init__ print_task None None None None None None None None = Ok self ∧
    code_tasks.correct_bonus self = 1%Q ∧
    ¬ (code_tasks.correct_bonus self == 2)%Q.
Proof.
  eexists. split; [reflexivity|]. split; [reflexivity|]. cbn. discriminate.
Qed.

(** ** Scoring a program on which the interpreter fails *)

Section Failure.

Variable self : MultiIOTaskManager.
Variable code : list ascii.
Variable clocks : nat → nat → Q.

(** [reward_fn] raises nothing at the task's base. *)
Definition reward_total : Prop :=
  ∀ pred target, ∃ q, reward_fn self pred target (task_base (task self)) = Ok q.

(** Every run of the interpreter that [_score_code] makes returns. *)
Lemma run_case_total k input_seq :
  ∃ r, run_case self code clocks k input_seq = Ok r.
Proof. unfold run_case. apply bf_facts.evaluate_total. lia. Qed.

(** If the run on some test case fails, the loop stops at the first test
    case whose run fails, whatever test cases come later, and leaves
    [failure_reward], no results and that run's status. *)
Lemma score_loop_failure : ∀ io_seqs k0 st k input_seq output_seq r,
  reward_total →
  io_seqs !! k = Some (input_seq, output_seq) →
  run_case self code clocks (k0 + k) input_seq = Ok r →
  bf.success r = false →
  ∃ j input_j output_j r_j,
    j ≤ k ∧ io_seqs !! j = Some (input_j, output_j) ∧
    run_case self code clocks (k0 + j) input_j = Ok r_j ∧
    bf.success r_j = false ∧
    ∀ later,
      score_loop self code clocks k0 (take (S j) io_seqs ++ later) st
      = Ok (failure_reward self, [],
            bf.Status_str (bf.failure_reason r_j)).
Proof.
  intros io_seqs. induction io_seqs as [|[i0 o0] rest IH];
    intros k0 [[terminal_reward results] reason] k input_seq output_seq r
      Hrew Hk Hr Hfail; [done|].
  destruct (run_case_total k0 i0) as [r0 Hr0].
  destruct (bf.success r0) eqn:Hs0.
  - destruct k as [|k].
    { cbn in Hk. injection Hk as -> ->. rewrite Nat.add_0_r in Hr.
      congruence. }
    cbn in Hk. replace (k0 + S k) with (S k0 + k) in Hr by lia.
    destruct (Hrew (bf.output r0) o0) as [q Hq].
    destruct (IH (S k0)
                (if decide (bf.output r0 = o0)
                 then ((terminal_reward + q + correct_bonus self
                        + length_bonus self code)%Q,
                       results ++ [bf.output r0], reason)
                 else ((terminal_reward + q)%Q, results ++ [bf.output r0],
                       if decide (reason = "correct") then "wrong"
                       else reason))
                k input_seq output_seq r Hrew Hk Hr Hfail)
      as (j & ij & oj & rj & Hj & Hlook & Hrj & Hsj & Hloop).
    exists (S j), ij, oj, rj. split; [lia|]. split; [done|].
    replace (k0 + S j) with (S k0 + j) by lia. split; [done|].
    split; [done|]. intros later.
    cbn [take app score_loop]. rewrite Hr0, bind_Ok, Hs0. cbn [negb].
    rewrite Hq, bind_Ok, <- (Hloop later).
    by destruct (decide (bf.output r0 = o0)).
  - exists 0, i0, o0, r0. split; [lia|]. split; [done|].
    rewrite Nat.add_0_r. split; [done|]. split; [done|]. intros later.
    cbn [take app score_loop]. by rewrite Hr0, bind_Ok, Hs0.
Qed.

(** C5: if the interpreter reports failure on a test case, [_score_code]
    returns a record whose reason is the status string of the first failing
    run, whose list of outputs is empty and whose last episode reward is
    [failure_reward / best_reward]; and the test cases after that run are
    not run: the three fields are the same whatever test cases follow. *)
Theorem score_code_failure k input_seq output_seq r :
  reward_total →
  Qeq_bool (best_reward self) 0 = false →
  make_io_set (task self) !! k = Some (input_seq, output_seq) →
  run_case self code clocks k input_seq = Ok r →
  bf.success r = false →
  ∃ j input_j output_j r_j info,
    j ≤ k ∧
    make_io_set (task self) !! j = Some (input_j, output_j) ∧
    run_case self code clocks j input_j = Ok r_j ∧
    bf.success r_j = false ∧
    _score_code self code clocks = Ok info ∧
    reason info = bf.Status_str (bf.failure_reason r_j) ∧
    code_output info = [] ∧
    last (episode_rewards info)
      = Some (failure_reward self / best_reward self)%Q ∧
    ∀ later, ∃ info',
      score_on self code clocks
        (take (S j) (make_io_set (task self)) ++ later) = Ok info' ∧
      episode_rewards info' = episode_rewards info ∧
      code_output info' = code_output info ∧
      reason info' = reason info.
Proof.
  intros Hrew Hbest Hk Hr Hfail.
  destruct (score_loop_failure (make_io_set (task self)) 0
              (0%Q, [], "correct"%string) k input_seq output_seq r
              Hrew Hk Hr Hfail)
    as (j & ij & oj & rj & Hj & Hlook & Hrj & Hsj & Hloop).
  cbn in Hrj.
  assert (∀ later, ∃ info',
            score_on self code clocks
              (take (S j) (make_io_set (task self)) ++ later) = Ok info' ∧
            episode_rewards info'
              = replicate (length code - 1) 0%Q
                  ++ [(failure_reward self / best_reward self)%Q] ∧
            code_output info' = [] ∧
            reason info' = bf.Status_str (bf.failure_reason rj)) as Hon.
  { intros later. unfold score_on.
    rewrite (Hloop later), bind_Ok, Hbest, bind_Ok. by eexists. }
  destruct (Hon (drop (S j) (make_io_set (task self))))
    as (info & Hinfo & Hep & Hout & Hreason).
  rewrite take_drop in Hinfo.
  exists j, ij, oj, rj, info. repeat (split; [done|]).
  split; [by rewrite Hep, last_snoc|].
  intros later. destruct (Hon later) as (info' & ? & ? & ? & ?).
  exists info'. split; [done|]. repeat split; congruence.
Qed.

End Failure.

(** A task with two test cases and a program that never stops: the first
    run hits the step limit. *)
Definition echo_task : BaseTask :=
  MkTask 256 [([1%Z], [1%Z]); ([2%Z], [2%Z])] None None.

Definition echo_manager : MultiIOTaskManager :=
  MkManager echo_task 32 0 20 false 1 1 (-2) (1 / 32)
    reward.absolute_distance_reward io_integer io_integer 6 (0.75 * 6).

Lemma echo_reward_total : reward_total echo_manager.
Proof.
  intros pred target. cbn. unfold reward.absolute_distance_reward.
  destruct (decide (256 * Z.of_nat (length target) = 0)%Z) as [E|E];
    [|rewrite decide_False by done; by eexists].
  rewrite decide_False by done. by eexists.
Qed.

Lemma score_code_failure_witness :
  let code := bf.program "+[]" in
  let clocks := fun (_ _ : nat) => 0%Q in
  let r := bf.MkEvalResult [] false bf.STEP_LIMIT 20 None None in
  reward_total echo_manager ∧
  Qeq_bool (best_reward echo_manager) 0 = false ∧
  make_io_set (task echo_manager) !! 1 = Some ([2%Z], [2%Z]) ∧
  run_case echo_manager code clocks 1 [2%Z] = Ok r ∧
  bf.success r = false ∧
  ∃ j input_j output_j r_j info,
    j ≤ 1 ∧
    make_io_set (task echo_manager) !! j = Some (input_j, output_j) ∧
    run_case echo_manager code clocks j input_j = Ok r_j ∧
    bf.success r_j = false ∧
    _score_code echo_manager code clocks = Ok info ∧
    reason info = bf.Status_str (bf.failure_reason r_j) ∧
    code_output info = [] ∧
    last (episode_rewards info)
      = Some (failure_reward echo_manager / best_reward echo_manager)%Q ∧
    ∀ later, ∃ info',
      score_on echo_manager code clocks
        (take (S j) (make_io_set (task echo_manager)) ++ later) = Ok info' ∧
      episode_rewards info' = episode_rewards info ∧
      code_output info' = code_output info ∧
      reason info' = reason info.
Proof.
  intros code clocks r.
  assert (run_case echo_manager code clocks 1 [2%Z] = Ok r) as Hr
    by (vm_compute; reflexivity).
  split; [exact echo_reward_total|]. split; [reflexivity|].
  split; [reflexivity|]. split; [exact Hr|]. split; [reflexivity|].
  exact (score_code_failure echo_manager code clocks 1 [2%Z] [2%Z] r
           echo_reward_total eq_refl eq_refl Hr eq_refl).
Defined.

End code_tasks_facts.

(** * The results store *)

Module results_facts.

Import results_lib.

Lemma elem_of_concat {A} (x : A) (ls : list (list A)) :
  x ∈ concat ls ↔ ∃ l, l ∈ ls ∧ x ∈ l.
Proof.
  induction ls as [|l ls IH]; cbn.
  - split; [by intros ?%elem_of_nil | by intros (? & ?%elem_of_nil & _)].
  - rewrite elem_of_app, IH. split.
    + intros [Hx|(l' & Hl' & Hx)]; [exists l | exists l'];
        (split; [|done]); apply elem_of_cons; auto.
    + intros (l' & [->|Hl']%elem_of_cons & Hx); [by left | right; eauto].
Qed.

(** ** Which file is read for a shard id *)

(** [fname] is the last of the listed names that matches the pattern and
    carries shard id [id]. *)
Definition selected (children : list string) (id : nat) (fname : string)
    : Prop :=
  ∃ pre post,
    children = pre ++ fname :: post ∧
    search_regex fname = true ∧ get_shard_id fname = Ok id ∧
    ∀ f, f ∈ post → search_regex f = true → get_shard_id f ≠ Ok id.

Lemma build_shard_ids_lookup : ∀ children ids0 ids,
  build_shard_ids children ids0 = Ok ids →
  ∀ id fname,
    ids !! id = Some fname ↔
    selected children id fname ∨
    (ids0 !! id = Some fname ∧
     ∀ f, f ∈ children → search_regex f = true → get_shard_id f ≠ Ok id).
Proof.
  induction children as [|f0 rest IH]; intros ids0 ids Hb id fname.
  - injection Hb as <-. split.
    + intros Hl. right. split; [done|]. by intros f ?%elem_of_nil.
    + intros [(pre & post & E & _)|[Hl _]]; [by destruct pre | done].
  - cbn in Hb. destruct (search_regex f0) eqn:Hre.
    + bind_inv Hb. rename a into id0. rewrite (IH _ _ Hb). split.
      * intros [(pre & post & -> & Hm & Hid & Hpost)|[Hl Hno]].
        { left. by exists (f0 :: pre), post. }
        rewrite lookup_insert in Hl.
        destruct (decide (id0 = id)) as [->|Hne].
        { injection Hl as <-. left. by exists [], rest. }
        right. split; [done|].
        intros f [->|Hf]%elem_of_cons Hf'; [congruence | by apply Hno].
      * intros [(pre & post & E & Hm & Hid & Hpost)|[Hl Hno]].
        { destruct pre as [|f1 pre]; injection E as -> ->.
          - right. assert (id0 = id) as -> by congruence.
            by rewrite lookup_insert_eq.
          - left. by exists pre, post. }
        right. assert (id0 ≠ id) as Hne.
        { intros ->. apply (Hno f0); [by left | done..]. }
        rewrite lookup_insert_ne by done. split; [done|].
        intros f Hf. apply Hno. by right.
    + rewrite (IH _ _ Hb). split.
      * intros [(pre & post & -> & Hm & Hid & Hpost)|[Hl Hno]].
        { left. by exists (f0 :: pre), post. }
        right. split; [done|].
        intros f [->|Hf]%elem_of_cons Hf'; [congruence | by apply Hno].
      * intros [(pre & post & E & Hm & Hid & Hpost)|[Hl Hno]].
        { destruct pre as [|f1 pre]; injection E as -> ->; [congruence|].
          left. by exists pre, post. }
        right. split; [done|]. intros f Hf. apply Hno. by right.
Qed.

(** ** The statistics of one shard *)

Lemma get_max_local_reps_spec shard_results n :
  _get_max_local_reps shard_results = Ok n →
  (shard_results = [] → n = 0%Z) ∧
  ∀ r, r ∈ shard_results → r !! "max_local_repetitions" = Some n.
Proof.
  unfold _get_max_local_reps. intros Hn. bind_inv Hn. rename a into mlrs.
  assert (Forall2 (fun (r : metrics) v =>
                     r !! "max_local_repetitions" = Some v)
            shard_results mlrs) as Hall.
  { clear Hn. revert mlrs H.
    induction shard_results as [|r l IH]; intros mlrs Hm; cbn in Hm.
    - injection Hm as <-. constructor.
    - bind_inv Hm.
      destruct (r !! "max_local_repetitions") as [v|] eqn:Hv; [|done].
      injection Hm as <-. constructor; [done | by apply IH]. }
  destruct mlrs as [|first others].
  - injection Hn as <-. apply Forall2_nil_inv_r in Hall as ->.
    split; [done | by intros r ?%elem_of_nil].
  - destruct (forallb _ others) eqn:Hsame; [|done]. injection Hn as <-.
    split; [intros ->; by apply Forall2_nil_inv_l in Hall|].
    assert (Forall (fun v => v = first) (first :: others)) as Hf.
    { constructor; [done|]. apply Forall_forall. intros v Hv.
      apply list_elem_of_In in Hv.
      rewrite forallb_forall in Hsame. specialize (Hsame v Hv).
      by apply bool_decide_eq_true in Hsame. }
    intros r (i & Hi)%list_elem_of_lookup.
    destruct (Forall2_lookup_l _ _ _ _ _ Hall Hi) as (v & Hv & Hrv).
    rewrite Hrv. f_equal.
    by apply (Forall_lookup_1 _ _ _ _ Hf Hv).
Qed.

Lemma compute_shard_stats_spec : ∀ results_per_shard stats,
  compute_shard_stats results_per_shard = Ok stats →
  Forall2 (fun res st => shard_stats_of res = Ok st)
    results_per_shard stats.
Proof.
  induction results_per_shard as [|res l IH]; intros stats Hs; cbn in Hs.
  - injection Hs as <-. constructor.
  - bind_inv Hs. bind_inv Hs. injection Hs as <-.
    constructor; [done | by apply IH].
Qed.

(** ** When read_all returns *)

(** The entries of a shard all declare the same [max_local_repetitions]. *)
Definition consistent (shard_results : list metrics) : Prop :=
  ∃ n, ∀ r, r ∈ shard_results → r !! "max_local_repetitions" = Some n.

Lemma get_max_local_reps_total shard_results :
  consistent shard_results → ∃ n, _get_max_local_reps shard_results = Ok n.
Proof.
  intros [n Hn]. unfold _get_max_local_reps.
  assert (∃ mlrs,
            foldr (fun (r : metrics) acc =>
                     acc ← acc;
                     match r !! "max_local_repetitions" with
                     | Some n => Ok (n :: acc)
                     | None => Raise KeyError
                     end) (Ok []) shard_results = Ok mlrs ∧
            Forall (fun v => v = n) mlrs) as (mlrs & -> & Hall).
  { induction shard_results as [|r l IH]; cbn; [by exists []|].
    destruct IH as (mlrs & -> & Hall).
    { intros r' Hr'. apply Hn. by right. }
    rewrite bind_Ok, (Hn r) by by left.
    exists (n :: mlrs). split; [done | by constructor]. }
  rewrite bind_Ok. destruct mlrs as [|first others]; [by eexists|].
  apply Forall_cons in Hall as [-> Hall].
  replace (forallb (fun v => bool_decide (v = n)) others) with true;
    [by eexists|].
  symmetry. apply forallb_forall. intros v Hv%list_elem_of_In.
  apply bool_decide_eq_true. by apply (proj1 (Forall_forall _ _) Hall).
Qed.

Lemma compute_shard_stats_total results_per_shard :
  Forall consistent results_per_shard →
  ∃ stats, compute_shard_stats results_per_shard = Ok stats.
Proof.
  induction 1 as [|res l Hres _ [stats IH]]; cbn; [by eexists|].
  unfold shard_stats_of.
  destruct (get_max_local_reps_total res Hres) as [n ->].
  rewrite !bind_Ok, IH, bind_Ok. by eexists.
Qed.

Lemma build_shard_ids_total : ∀ children ids0,
  (∀ f, f ∈ children → search_regex f = true →
        ∃ id, get_shard_id f = Ok id) →
  ∃ ids, build_shard_ids children ids0 = Ok ids.
Proof.
  induction children as [|f children IH]; intros ids0 Hid; cbn;
    [by eexists|].
  destruct (search_regex f) eqn:Hre.
  - destruct (Hid f) as [id ->]; [by left | done |]. rewrite bind_Ok.
    apply IH. intros f' Hf'. apply Hid. by right.
  - apply IH. intros f' Hf'. apply Hid. by right.
Qed.

(** [read_all] returns when the directory exists, the shard id of every
    file name that matches the pattern can be read off, and every shard file
    is consistent. *)
Lemma read_all_returns (dir : directory) (children : list string)
    (num_shards : nat) :
  all_children dir = Some children →
  (∀ f, f ∈ children → search_regex f = true →
        ∃ id, get_shard_id f = Ok id) →
  (∀ f l, files dir !! f = Some l → consistent l) →
  ∃ aggregate stats,
    read_all dir (Some num_shards) = Ok (aggregate, Some stats).
Proof.
  intros Hdir Hid Hfiles. unfold read_all. rewrite Hdir.
  destruct (build_shard_ids_total children ∅ Hid) as [ids ->].
  rewrite bind_Ok.
  destruct (compute_shard_stats_total
              (shard_results_of dir ids <$> seq 0 num_shards))
    as [stats ->]; [|by eexists _, _].
  apply Forall_fmap, Forall_forall. intros id _. cbn.
  unfold shard_results_of, _read_shard.
  destruct (ids !! id) as [f|]; [|by exists 0%Z; intros r ?%elem_of_nil].
  destruct (files dir !! f) as [l|] eqn:Hl; cbn; [by eapply Hfiles|].
  by exists 0%Z; intros r ?%elem_of_nil.
Qed.

(** ** read_all *)

(** C9, as the code has it: for a results directory that exists,
    [read_all(num_shards=N)] reads the shard ids 0..N-1 only.  For each of
    them it reads the discovered file with that id (the one listed last,
    should several names carry the same id); ids without a file, and
    discovered files whose id is N or more, contribute nothing.  The
    aggregate holds exactly the entries of the files read, and shard [id] is
    marked finished if and only if its number of entries is at least its
    declared [max_local_repetitions] and that value is positive (0 stands for
    the declaration of a shard without entries). *)
Theorem read_all_shards (dir : directory) (children : list string)
    (num_shards : nat) (aggregate : list metrics)
    (shard_stats : option (list shard_stat)) :
  all_children dir = Some children →
  read_all dir (Some num_shards) = Ok (aggregate, shard_stats) →
  ∃ shard_ids stats,
    build_shard_ids children ∅ = Ok shard_ids ∧
    shard_stats = Some stats ∧
    (∀ id fname, shard_ids !! id = Some fname ↔ selected children id fname) ∧
    (∀ r, r ∈ aggregate ↔
          ∃ id fname, id < num_shards ∧ shard_ids !! id = Some fname ∧
                      r ∈ _read_shard dir fname) ∧
    length stats = num_shards ∧
    ∀ id, id < num_shards →
      ∃ s, stats !! id = Some (Stats s) ∧
           let shard_results := shard_results_of dir shard_ids id in
           num_local_reps_completed s = length shard_results ∧
           (shard_results = [] → max_local_reps s = 0%Z) ∧
           (∀ r, r ∈ shard_results →
                 r !! "max_local_repetitions" = Some (max_local_reps s)) ∧
           (finished s = true ↔
            (max_local_reps s ≤ Z.of_nat (length shard_results))%Z ∧
            (0 < max_local_reps s)%Z).
Proof.
  intros Hdir Hread. unfold read_all in Hread. rewrite Hdir in Hread.
  bind_inv Hread. rename a into shard_ids. bind_inv Hread.
  rename a into stats. injection Hread as <- <-.
  exists shard_ids, stats. split; [done|]; split; [done|].
  apply compute_shard_stats_spec in H0 as Hstats.
  split; [|split; [|split]].
  - intros id fname. rewrite (build_shard_ids_lookup _ _ _ H). split.
    + by intros [?|[? _]].
    + by left.
  - intros r. rewrite elem_of_concat. split.
    + intros (l & (id & -> & [_ Hid]%elem_of_seq)%list_elem_of_fmap & Hr).
      unfold shard_results_of in Hr.
      destruct (shard_ids !! id) as [fname|] eqn:Hf;
        [|by apply elem_of_nil in Hr].
      exists id, fname. split; [lia | done].
    + intros (id & fname & Hid & Hf & Hr).
      exists (shard_results_of dir shard_ids id). split.
      * apply list_elem_of_fmap. exists id. split; [done|].
        apply elem_of_seq. lia.
      * unfold shard_results_of. by rewrite Hf.
  - apply Forall2_length in Hstats.
    by rewrite length_fmap, length_seq in Hstats.
  - intros id Hid.
    assert ((shard_results_of dir shard_ids <$> seq 0 num_shards) !! id
            = Some (shard_results_of dir shard_ids id)) as Hl.
    { by rewrite list_lookup_fmap, lookup_seq_lt. }
    destruct (Forall2_lookup_l _ _ _ _ _ Hstats Hl) as (st & Hst & Hof).
    unfold shard_stats_of in Hof. bind_inv Hof. rename a into n.
    injection Hof as <-. eexists. split; [done|]. cbn.
    apply get_max_local_reps_spec in H1 as [Hnil Hall].
    split; [done|]. split; [done|]. split; [done|].
    unfold ge_non_zero. rewrite andb_true_iff, !bool_decide_eq_true. lia.
Qed.

Definition rep (n : Z) : metrics := {[ "max_local_repetitions" := n ]}.

(** Shards 0 and 3 on disk, read with [num_shards=2]. *)
Definition two_shards : directory :=
  MkDirectory
    (Some ["experiment_results_0.txt"; "notes"; "experiment_results_3.txt"])
    (<["experiment_results_0.txt" := [rep 2; rep 2]]>
       (<["experiment_results_3.txt" := [rep 1]]> ∅)).

Lemma read_all_shards_witness :
  let children :=
    ["experiment_results_0.txt"; "notes"; "experiment_results_3.txt"] in
  let aggregate := [rep 2; rep 2] in
  let shard_stats :=
    Some [Stats (MkShardStats 2 2 true); Stats (MkShardStats 0 0 false)] in
  all_children two_shards = Some children ∧
  read_all two_shards (Some 2) = Ok (aggregate, shard_stats) ∧
  ∃ shard_ids stats,
    build_shard_ids children ∅ = Ok shard_ids ∧
    shard_stats = Some stats ∧
    (∀ id fname, shard_ids !! id = Some fname ↔ selected children id fname) ∧
    (∀ r, r ∈ aggregate ↔
          ∃ id fname, id < 2 ∧ shard_ids !! id = Some fname ∧
                      r ∈ _read_shard two_shards fname) ∧
    length stats = 2 ∧
    ∀ id, id < 2 →
      ∃ s, stats !! id = Some (Stats s) ∧
           let shard_results := shard_results_of two_shards shard_ids id in
           num_local_reps_completed s = length shard_results ∧
           (shard_results = [] → max_local_reps s = 0%Z) ∧
           (∀ r, r ∈ shard_results →
                 r !! "max_local_repetitions" = Some (max_local_reps s)) ∧
           (finished s = true ↔
            (max_local_reps s ≤ Z.of_nat (length shard_results))%Z ∧
            (0 < max_local_reps s)%Z).
Proof.
  intros children aggregate shard_stats.
  assert (read_all two_shards (Some 2) = Ok (aggregate, shard_stats)) as Hr
    by (vm_compute; reflexivity).
  split; [reflexivity|]. split; [exact Hr|].
  exact (read_all_shards two_shards children 2 aggregate shard_stats
           eq_refl Hr).
Defined.

(** C9 as the specification states it fails: the discovered shard 3 holds an
    entry that the aggregate for [num_shards=2] lacks. *)
Lemma read_all_counterexample :
  ∃ aggregate shard_stats,
    read_all two_shards (Some 2) = Ok (aggregate, shard_stats) ∧
    all_children two_shards
      = Some ["experiment_results_0.txt"; "notes";
              "experiment_results_3.txt"] ∧
    search_regex "experiment_results_3.txt" = true ∧
    rep 1 ∈ _read_shard two_shards "experiment_results_3.txt" ∧
    rep 1 ∉ aggregate.
Proof.
  exists [rep 2; rep 2],
    (Some [Stats (MkShardStats 2 2 true); Stats (MkShardStats 0 0 false)]).
  split; [vm_compute; reflexivity|]. split; [reflexivity|].
  split; [vm_compute; reflexivity|]. split.
  - unfold _read_shard, two_shards. cbn [files].
    rewrite lookup_insert_ne by done. rewrite lookup_insert_eq. cbn.
    by apply list_elem_of_singleton.
  - intros [E|[E|E%elem_of_nil]%elem_of_cons]%elem_of_cons; [| |done];
      apply (f_equal (fun m : metrics => m !! "max_local_repetitions")) in E;
      unfold rep in E; rewrite !lookup_singleton_eq in E; discriminate.
Qed.

End results_facts.

(** * The roulette wheel *)

Module roulette_facts.

Import utils.

Section RoundTrip.

Context {Obj : Type} {Key : Type} `{Countable Key}.

Abbreviation wheel := (RouletteWheel Obj Key).

Variable mode : bool.
Variable path : string.

(** The wheel the constructor starts from before it looks at the disk. *)
Definition empty_wheel : wheel := MkWheel mode [] [] [] ∅ (Some path) [].

(** The records of the save file; a file that does not exist has none. *)
Definition saved (fs : disk Obj Key) : list (entry Obj Key) :=
  default [] (fs !! path).

Lemma clear_buffer_idemp (w : wheel) :
  clear_buffer (clear_buffer w) = clear_buffer w.
Proof. reflexivity. Qed.

(** [add] reads nothing of the buffer: two wheels that differ in their
    buffers only take the same call alike. *)
Lemma add_core obj weight key (w1 w2 w1' : wheel) b :
  clear_buffer w1 = clear_buffer w2 →
  add obj weight key w1 = Ok (b, w1') →
  ∃ w2', add obj weight key w2 = Ok (b, w2') ∧
         clear_buffer w1' = clear_buffer w2'.
Proof.
  intros E. pose proof E as E'.
  unfold clear_buffer in E. injection E as Em Eo Ew Ep Ek Es.
  unfold add, total_weight. rewrite Em, Eo, Ew, Ep, Ek, Es.
  destruct (negb (Qle_bool 0 weight)); [done|].
  destruct (unique_mode w2).
  - destruct key as [k|]; [|done].
    destruct (keys_to_weights w2 !! k).
    + intros [= <- <-]. by eexists.
    + intros [= <- <-]. eexists. split; [done|]. done.
  - destruct key as [k|]; [done|].
    intros [= <- <-]. eexists. split; [done|]. done.
Qed.

(** What [add] does to the buffer of a wheel with a save file. *)
Lemma add_buffer obj weight key (w w' : wheel) b :
  save_file w = Some path →
  add obj weight key w = Ok (b, w') →
  unique_mode w' = unique_mode w ∧ save_file w' = Some path ∧
  if b then save_to_disk_buffer w'
            = save_to_disk_buffer w ++ [(obj, weight, key)]
  else w' = w.
Proof.
  intros Hs. unfold add. rewrite Hs.
  destruct (negb (Qle_bool 0 weight)); [done|].
  destruct (unique_mode w) eqn:Hm.
  - destruct key as [k|]; [|done].
    destruct (keys_to_weights w !! k); by intros [= <- <-].
  - destruct key as [k|]; [done|]. by intros [= <- <-].
Qed.

Lemma load_entries_app (l1 l2 : list (entry Obj Key)) : ∀ w : wheel,
  load_entries (l1 ++ l2) w = load_entries l1 w ≫= load_entries l2.
Proof.
  induction l1 as [|[[obj weight] key] l1 IH]; intros w; cbn; [done|].
  destruct (add obj weight key w) as [[b w']| |]; cbn; [|done..].
  apply IH.
Qed.

Lemma load_entries_fields : ∀ (records : list (entry Obj Key)) (w w' : wheel),
  save_file w = Some path →
  load_entries records w = Ok w' →
  unique_mode w' = unique_mode w ∧ save_file w' = Some path.
Proof.
  induction records as [|[[obj weight] key] l IH]; intros w w' Hs Hl;
    cbn in Hl.
  - by injection Hl as <-.
  - bind_inv Hl. destruct a as [b w1].
    apply add_buffer in H0 as (Hm1 & Hs1 & _); [|done].
    destruct (IH w1 w' Hs1 Hl) as [Hm Hs']. split; congruence.
Qed.

(** The wheel is what loading the file and then the buffer gives. *)
Definition replayed (w : wheel) (fs : disk Obj Key) : Prop :=
  unique_mode w = mode ∧ save_file w = Some path ∧
  ∃ loaded, load_entries (saved fs ++ save_to_disk_buffer w) empty_wheel
            = Ok loaded ∧
            clear_buffer loaded = clear_buffer w.

Lemma wheel_init_replayed fs w :
  wheel_init mode (Some path) fs = Ok w → replayed w fs.
Proof.
  unfold wheel_init, replayed, saved.
  destruct (fs !! path) as [records|] eqn:Hf; cbn.
  - intros Hw. bind_inv Hw. injection Hw as <-. cbn.
    rewrite app_nil_r. fold empty_wheel in H0.
    destruct (load_entries_fields records empty_wheel a eq_refl H0)
      as [Hm Hs].
    split; [done|]. split; [done|]. by exists a.
  - intros [= <-]. split; [done|]. split; [done|]. by exists empty_wheel.
Qed.

Lemma add_replayed obj weight key w w' b fs :
  replayed w fs → add obj weight key w = Ok (b, w') → replayed w' fs.
Proof.
  intros (Hm & Hs & loaded & Hl & Hc) Hadd.
  pose proof (add_buffer _ _ _ _ _ _ Hs Hadd) as (Hm' & Hs' & Hb).
  destruct b;
    [|rewrite Hb; split; [done|]; split; [done|]; by exists loaded].
  split; [congruence|]. split; [done|].
  destruct (add_core _ _ _ w loaded _ _ (eq_sym Hc) Hadd)
    as (loaded' & Hadd' & Hc').
  exists loaded'. split; [|done].
  rewrite Hb, app_assoc, load_entries_app, Hl, bind_Ok. cbn.
  by rewrite Hadd'.
Qed.

Lemma incremental_save_replayed w fs w' fs' :
  replayed w fs → incremental_save w fs = Ok (w', fs') →
  replayed w' fs' ∧ w' = clear_buffer w ∧
  fs' !! path = Some (saved fs ++ save_to_disk_buffer w).
Proof.
  intros (Hm & Hs & loaded & Hl & Hc). unfold incremental_save.
  rewrite Hs. intros [= <- <-].
  split; [|split; [done | by rewrite lookup_insert_eq]].
  split; [done|]. split; [done|]. exists loaded.
  unfold saved at 1. rewrite lookup_insert_eq. cbn.
  by rewrite app_nil_r.
Qed.

Lemma run_ops_replayed : ∀ ops w fs w' fs',
  replayed w fs → run_ops ops w fs = Ok (w', fs') → replayed w' fs'.
Proof.
  induction ops as [|[obj weight key|] ops IH]; intros w fs w' fs' Hw Hrun;
    cbn in Hrun.
  - by injection Hrun as <- <-.
  - bind_inv Hrun. destruct a as [b w1].
    eapply IH; [|done]. by eapply add_replayed.
  - bind_inv Hrun. destruct a as [w1 fs1].
    eapply IH; [|done]. by eapply incremental_save_replayed.
Qed.

(** C8: a wheel built over a save file, after any sequence of [add] calls
    (with saves in between or not) that raise nothing, is saved with
    [incremental_save]; a fresh wheel built over the resulting file in the
    same mode iterates over the same (object, weight) pairs in the same
    order and has the same weights, partial sums and total weight. *)
Theorem roulette_round_trip (fs0 fs fs' : disk Obj Key) (ops : list (wheel_op Obj Key))
    (w0 w w' : wheel) :
  wheel_init mode (Some path) fs0 = Ok w0 →
  run_ops ops w0 fs0 = Ok (w, fs) →
  incremental_save w fs = Ok (w', fs') →
  ∃ fresh,
    wheel_init mode (Some path) fs' = Ok fresh ∧
    wheel_iter fresh = wheel_iter w ∧
    objects fresh = objects w ∧
    weights fresh = weights w ∧
    partial_sums fresh = partial_sums w ∧
    total_weight fresh = total_weight w.
Proof.
  intros Hinit Hrun Hsave.
  apply wheel_init_replayed in Hinit.
  pose proof (run_ops_replayed _ _ _ _ _ Hinit Hrun) as Hw.
  pose proof Hw as (_ & _ & loaded & Hl & Hc).
  destruct (incremental_save_replayed _ _ _ _ Hw Hsave) as (_ & _ & Hfile).
  unfold wheel_init. rewrite Hfile. fold empty_wheel.
  rewrite Hl, bind_Ok. eexists. split; [done|].
  rewrite Hc. done.
Qed.

End RoundTrip.

Definition sample_ops : list (wheel_op string nat) :=
  [OpAdd "a" 1.5%Q (Some 1); OpAdd "b" 2%Q (Some 2); OpSave;
   OpAdd "c" 0.5%Q (Some 1); OpAdd "d" 4%Q (Some 3)].

Lemma roulette_round_trip_witness :
  ∃ w0 w fs w' fs',
    wheel_init true (Some "wheel.pkl"%string) (∅ : disk string nat) = Ok w0 ∧
    run_ops sample_ops w0 ∅ = Ok (w, fs) ∧
    incremental_save w fs = Ok (w', fs') ∧
    ∃ fresh,
      wheel_init true (Some "wheel.pkl"%string) fs' = Ok fresh ∧
      wheel_iter fresh = wheel_iter w ∧
      objects fresh = objects w ∧
      weights fresh = weights w ∧
      partial_sums fresh = partial_sums w ∧
      total_weight fresh = total_weight w.
Proof.
  eexists _, _, _, _, _.
  split; [reflexivity|]. split; [reflexivity|]. split; [reflexivity|].
  exact (roulette_round_trip true "wheel.pkl" ∅ _ _ sample_ops _ _ _
           eq_refl eq_refl eq_refl).
Defined.

End roulette_facts.

(** * The array heap *)

Module heapq_facts.

Import heapq.

(** Overwriting a position trades its old value for the new one. *)
Lemma insert_perm {A} (l : list A) (i : nat) (x y : A) :
  l !! i = Some y → x :: l ≡ₚ y :: <[i:=x]> l.
Proof.
  revert i. induction l as [|a l IH]; intros [|i] Hi; try done; cbn in *.
  - injection Hi as ->. apply perm_swap.
  - rewrite (perm_swap a x l), (IH i Hi). apply perm_swap.
Qed.

(** Moving the hole: the value at [j] is copied to [i] and the new item goes
    to [j] instead of [i]. *)
Lemma fill_move {A} (h : list A) (i j : nat) (x q : A) :
  i ≠ j → i < length h → h !! j = Some q →
  <[j:=x]> (<[i:=q]> h) ≡ₚ <[i:=x]> h.
Proof.
  intros Hij Hi Hj.
  destruct (lookup_lt_is_Some_2 h i Hi) as [r Hr].
  pose proof (insert_perm h i q r Hr) as P1.
  assert (<[i:=q]> h !! j = Some q) as Hj'
    by by rewrite list_lookup_insert_ne.
  pose proof (insert_perm _ j x q Hj') as P2.
  pose proof (insert_perm h i x r Hr) as P3.
  apply (inj (cons r)), (inj (cons q)).
  transitivity (r :: q :: <[j:=x]> (<[i:=q]> h)); [apply perm_swap|].
  rewrite <- P2.
  transitivity (x :: r :: <[i:=q]> h); [apply perm_swap|].
  rewrite <- P1.
  transitivity (q :: x :: h); [apply perm_swap|].
  by rewrite P3.
Qed.

Definition parent (i : nat) : nat := (i - 1) / 2.

Lemma parent_cases i :
  0 < i → i = 2 * parent i + 1 ∨ i = 2 * parent i + 2.
Proof.
  intros Hi. unfold parent.
  pose proof (Nat.div_mod_eq (i - 1) 2).
  pose proof (Nat.mod_upper_bound (i - 1) 2). lia.
Qed.

Section Order.

Context {A : Type}.
Variable lt : A → A → bool.

(** [x] is not above [y]: [not (y < x)]. *)
Definition le (x y : A) : Prop := lt y x = false.

Hypothesis lt_asym : ∀ x y, lt x y = true → le x y.
Hypothesis le_trans : ∀ x y z, le x y → le y z → le x z.

Lemma le_refl x : le x x.
Proof.
  destruct (lt x x) eqn:E; [|done].
  pose proof (lt_asym _ _ E) as E'. unfold le in E'. congruence.
Qed.

Lemma le_total x y : le x y ∨ le y x.
Proof.
  destruct (lt y x) eqn:E; [right; by apply lt_asym | by left].
Qed.

Definition heap_le (h : list A) (i j : nat) : Prop :=
  ∀ x y, h !! i = Some x → h !! j = Some y → le x y.

(** The heap invariant of [heapq]: [heap[(k - 1) / 2] <= heap[k]]. *)
Definition heap_ok (h : list A) : Prop :=
  ∀ i, 0 < i → heap_le h (parent i) i.

(** The invariant holds wherever position [pos] is not involved. *)
Definition ok_except (h : list A) (pos : nat) : Prop :=
  ∀ i, 0 < i → i ≠ pos → parent i ≠ pos → heap_le h (parent i) i.

(** The parent of [pos] is not above the children of [pos]. *)
Definition grand_ok (h : list A) (pos : nat) : Prop :=
  0 < pos → ∀ c, 0 < c → parent c = pos → heap_le h (parent pos) c.

(** [newitem] is not above the children of [pos]. *)
Definition below_children (h : list A) (newitem : A) (pos : nat) : Prop :=
  ∀ c y, 0 < c → parent c = pos → h !! c = Some y → le newitem y.

Lemma heap_le_insert_ne h k v i j :
  i ≠ k → j ≠ k → heap_le h i j → heap_le (<[k:=v]> h) i j.
Proof.
  intros Hi Hj Hle x y. rewrite !list_lookup_insert_ne by done. apply Hle.
Qed.

(** Putting the item into the hole restores the invariant. *)
Lemma place_ok h newitem pos :
  ok_except h pos → below_children h newitem pos →
  (0 < pos → ∀ p, h !! parent pos = Some p → le p newitem) →
  heap_ok (<[pos:=newitem]> h).
Proof.
  intros Hex Hbelow Habove i Hi x y Hx Hy.
  pose proof (parent_cases i Hi) as Hpi.
  destruct (decide (i = pos)) as [->|Hne].
  - apply list_lookup_insert_Some in Hy as [(_ & <- & _)|[? _]]; [|done].
    rewrite list_lookup_insert_ne in Hx by lia. by apply Habove.
  - rewrite list_lookup_insert_ne in Hy by done.
    destruct (decide (parent i = pos)) as [E|Hne'].
    + rewrite E in Hx.
      apply list_lookup_insert_Some in Hx as [(_ & <- & _)|[? _]]; [|done].
      by eapply Hbelow.
    + rewrite list_lookup_insert_ne in Hx by done. by eapply Hex.
Qed.

Section Siftdown.

Variable newitem : A.

Lemma siftdown_loop_ok : ∀ fuel h pos h' pos',
  pos ≤ fuel → pos < length h →
  ok_except h pos → grand_ok h pos → below_children h newitem pos →
  siftdown_loop lt fuel h newitem 0 pos = (h', pos') →
  heap_ok (<[pos':=newitem]> h') ∧
  <[pos':=newitem]> h' ≡ₚ <[pos:=newitem]> h.
Proof.
  induction fuel as [|fuel IH]; intros h pos h' pos' Hf Hlen Hex Hgr Hbe;
    cbn [siftdown_loop].
  { intros [= <- <-]. split; [|done]. apply place_ok; [done..|lia]. }
  destruct (decide (0 < pos)) as [Hpos|Hpos];
    [|intros [= <- <-]; split; [|done]; apply place_ok; [done..|lia]].
  change ((pos - 1) / 2) with (parent pos).
  pose proof (parent_cases pos Hpos) as Hpp.
  destruct (lookup_lt_is_Some_2 h (parent pos) ltac:(lia)) as [p Hp].
  rewrite Hp. cbn [default from_option id].
  destruct (lt newitem p) eqn:Hlt;
    [|intros [= <- <-]; split; [|done]; apply place_ok; [done..|];
      intros _ p' Hp'; congruence].
  intros Hloop.
  apply IH in Hloop as [Hok Hperm].
  - split; [done|]. rewrite Hperm. apply fill_move; [lia | done..].
  - lia.
  - rewrite length_insert. lia.
  - (* the invariant away from the new hole *)
    intros i Hi Hne Hne'. pose proof (parent_cases i Hi) as Hpi.
    destruct (decide (parent i = pos)) as [E|Hnp].
    + intros x y Hx Hy. rewrite E in Hx.
      apply list_lookup_insert_Some in Hx as [(_ & <- & _)|[? _]]; [|done].
      rewrite list_lookup_insert_ne in Hy by lia.
      by apply (Hgr Hpos i Hi E p y).
    + apply heap_le_insert_ne; [done | lia |]. apply Hex; [done | lia | done].
  - (* the grandparent of the new hole *)
    intros Hpp0 c Hc Hcp x y Hx Hy.
    pose proof (parent_cases (parent pos) Hpp0) as Hppp.
    rewrite list_lookup_insert_ne in Hx by lia.
    assert (le x p) as Hxp.
    { apply (Hex (parent pos) Hpp0 ltac:(lia) ltac:(lia) x p); done. }
    destruct (decide (c = pos)) as [->|Hcne].
    + apply list_lookup_insert_Some in Hy as [(_ & <- & _)|[? _]]; done.
    + rewrite list_lookup_insert_ne in Hy by done.
      apply (le_trans _ p); [done|].
      pose proof (parent_cases c Hc).
      by apply (Hex c Hc Hcne ltac:(lia) p y); [rewrite Hcp|].
  - (* the new item against the children of the new hole *)
    intros c y Hc Hcp Hy. pose proof (parent_cases c Hc).
    assert (le newitem p) as Hnp by by apply lt_asym.
    destruct (decide (c = pos)) as [->|Hcne].
    + apply list_lookup_insert_Some in Hy as [(_ & <- & _)|[? _]]; done.
    + rewrite list_lookup_insert_ne in Hy by done.
      apply (le_trans _ p); [done|].
      by apply (Hex c Hc Hcne ltac:(lia) p y); [rewrite Hcp|].
Qed.

End Siftdown.

Section Siftup.

Variable newitem : A.

Lemma siftup_loop_ok : ∀ fuel h pos h' pos',
  length h ≤ fuel + pos → pos < length h →
  ok_except h pos → grand_ok h pos →
  siftup_loop lt fuel h newitem pos = (h', pos') →
  ok_except h' pos' ∧ grand_ok h' pos' ∧
  length h' ≤ 2 * pos' + 1 ∧ pos' < length h' ∧
  <[pos':=newitem]> h' ≡ₚ <[pos:=newitem]> h.
Proof.
  induction fuel as [|fuel IH]; intros h pos h' pos' Hf Hlen Hex Hgr;
    cbn [siftup_loop].
  { intros [= <- <-]. repeat split; [done | done | lia | done | done]. }
  destruct (decide (2 * pos + 1 < length h)) as [Hchild|Hleaf];
    [|intros [= <- <-]; repeat split; [done | done | lia | done | done]].
  destruct (lookup_lt_is_Some_2 h (2 * pos + 1) Hchild) as [l Hl].
  (* the child that moves up, and why its sibling may stay below it *)
  set (cp := if decide (2 * pos + 1 + 1 < length h) then
               if negb (lt (default newitem (h !! (2 * pos + 1)))
                          (default newitem (h !! (2 * pos + 1 + 1))))
               then 2 * pos + 1 + 1 else 2 * pos + 1
             else 2 * pos + 1).
  assert (∃ q, h !! cp = Some q ∧ (cp = 2 * pos + 1 ∨ cp = 2 * pos + 2) ∧
               ∀ i y, 0 < i → parent i = pos → i ≠ cp → h !! i = Some y →
                      le q y) as (q & Hq & Hcp & Hsib).
  { subst cp. destruct (decide (2 * pos + 1 + 1 < length h)) as [Hr|Hr].
    - destruct (lookup_lt_is_Some_2 h (2 * pos + 1 + 1) Hr) as [r Hrr].
      rewrite Hl, Hrr. cbn [default from_option id].
      destruct (lt l r) eqn:Hlr; cbn [negb].
      + exists l. split; [done|]. split; [lia|].
        intros i y Hi Hp Hne Hy. pose proof (parent_cases i Hi).
        replace i with (2 * pos + 1 + 1) in Hy by lia.
        assert (y = r) as -> by congruence. by apply lt_asym.
      + exists r. split; [done|]. split; [lia|].
        intros i y Hi Hp Hne Hy. pose proof (parent_cases i Hi).
        replace i with (2 * pos + 1) in Hy by lia.
        assert (y = l) as -> by congruence. done.
    - exists l. split; [done|]. split; [lia|].
      intros i y Hi Hp Hne Hy. pose proof (parent_cases i Hi).
      apply lookup_lt_Some in Hy. lia. }
  rewrite Hq. cbn [default from_option id]. intros Hloop.
  apply IH in Hloop as (Hex' & Hgr' & Hleaf' & Hlen' & Hperm).
  - split; [done|]. split; [done|]. split; [done|]. split; [done|].
    rewrite Hperm. apply fill_move; [lia | done..].
  - rewrite length_insert. lia.
  - rewrite length_insert. apply lookup_lt_Some in Hq. done.
  - (* the invariant away from the new hole *)
    intros i Hi Hne Hne'. pose proof (parent_cases i Hi) as Hpi.
    destruct (decide (i = pos)) as [->|Hip].
    + intros x y Hx Hy.
      apply list_lookup_insert_Some in Hy as [(_ & <- & _)|[? _]]; [|done].
      rewrite list_lookup_insert_ne in Hx by lia.
      assert (0 < cp) as Hcp0 by lia.
      assert (parent cp = pos) as Hpcp.
      { pose proof (parent_cases cp Hcp0). lia. }
      by apply (Hgr Hi cp Hcp0 Hpcp x q).
    + destruct (decide (parent i = pos)) as [E|Hnp].
      * intros x y Hx Hy. rewrite E in Hx.
        apply list_lookup_insert_Some in Hx as [(_ & <- & _)|[? _]]; [|done].
        rewrite list_lookup_insert_ne in Hy by done.
        by apply (Hsib i y).
      * apply heap_le_insert_ne; [done..|]. by apply Hex.
  - (* the grandparent of the new hole is the value moved up *)
    intros Hcp0 c Hc Hpc x y Hx Hy.
    pose proof (parent_cases c Hc). pose proof (parent_cases cp Hcp0).
    replace (parent cp) with pos in Hx by lia.
    apply list_lookup_insert_Some in Hx as [(_ & <- & _)|[? _]]; [|done].
    rewrite list_lookup_insert_ne in Hy by lia.
    apply (Hex c Hc ltac:(lia) ltac:(lia) q y); [by rewrite Hpc | done].
Qed.

End Siftup.

(** ** heappush and heappushpop *)

Lemma heap_ok_except h pos : heap_ok h → ok_except h pos.
Proof. intros Hok i Hi _ _. by apply Hok. Qed.

(** The root of a heap is not above any of its items. *)
Lemma heap_ok_root h r :
  heap_ok h → h !! 0 = Some r → ∀ y, y ∈ h → le r y.
Proof.
  intros Hok Hr y (i & Hi)%list_elem_of_lookup. revert y Hi.
  induction (lt_wf i) as [i _ IH]. intros y Hi.
  destruct (decide (i = 0)) as [->|Hne].
  { assert (y = r) as -> by congruence. apply le_refl. }
  pose proof (parent_cases i ltac:(lia)) as Hp.
  pose proof (lookup_lt_Some _ _ _ Hi) as Hlen.
  destruct (lookup_lt_is_Some_2 h (parent i) ltac:(lia)) as [p Hpp].
  apply (le_trans _ p); [apply (IH (parent i)); [lia | done]|].
  by apply (Hok i ltac:(lia) p y).
Qed.

Lemma siftdown_ok h pos newitem :
  h !! pos = Some newitem →
  ok_except h pos → grand_ok h pos → below_children h newitem pos →
  heap_ok (_siftdown lt h 0 pos) ∧ _siftdown lt h 0 pos ≡ₚ h.
Proof.
  intros Hpos Hex Hgr Hbe. unfold _siftdown. rewrite Hpos.
  destruct (siftdown_loop lt pos h newitem 0 pos) as [h' pos'] eqn:Hloop.
  apply siftdown_loop_ok in Hloop as [Hok Hperm];
    [|done | by eapply lookup_lt_Some | done..].
  split; [done|]. by rewrite Hperm, list_insert_id.
Qed.

Lemma siftup_ok h :
  0 < length h → ok_except h 0 →
  heap_ok (_siftup lt h 0) ∧ _siftup lt h 0 ≡ₚ h.
Proof.
  intros Hlen Hex. unfold _siftup.
  destruct (lookup_lt_is_Some_2 h 0 Hlen) as [newitem Hn]. rewrite Hn.
  destruct (siftup_loop lt (length h) h newitem 0) as [h' pos'] eqn:Hloop.
  apply siftup_loop_ok in Hloop as (Hex' & Hgr' & Hleaf & Hlen' & Hperm);
    [|lia | done | done | intros ?; lia].
  assert (∀ c, 0 < c → parent c = pos' →
               <[pos':=newitem]> h' !! c = None) as Hnochild.
  { intros c Hc Hp. pose proof (parent_cases c Hc).
    apply lookup_ge_None. rewrite length_insert. lia. }
  destruct (siftdown_ok (<[pos':=newitem]> h') pos' newitem) as [Hok Hperm'].
  - by apply list_lookup_insert_eq.
  - intros i Hi Hne Hne'. apply heap_le_insert_ne; [done..|].
    by apply Hex'.
  - intros Hp c Hc Hpc x y _ Hy. by rewrite Hnochild in Hy.
  - intros c y Hc Hpc Hy. by rewrite Hnochild in Hy.
  - split; [done|]. by rewrite Hperm', Hperm, list_insert_id.
Qed.

Lemma heappush_ok h item :
  heap_ok h →
  heap_ok (heappush lt h item) ∧ heappush lt h item ≡ₚ item :: h.
Proof.
  intros Hok. unfold heappush.
  replace (length (h ++ [item]) - 1) with (length h)
    by (rewrite length_app; cbn; lia).
  assert (∀ c, 0 < c → parent c = length h → (h ++ [item]) !! c = None)
    as Hnochild.
  { intros c Hc Hp. pose proof (parent_cases c Hc).
    apply lookup_ge_None. rewrite length_app. cbn. lia. }
  destruct (siftdown_ok (h ++ [item]) (length h) item) as [Hok' Hperm].
  - by apply list_lookup_middle.
  - intros i Hi Hne Hne' x y Hx Hy.
    pose proof (parent_cases i Hi).
    assert (i < length h) as Hlt.
    { apply lookup_lt_Some in Hy. rewrite length_app in Hy. cbn in Hy. lia. }
    rewrite lookup_app_l in Hx, Hy by lia. by apply (Hok i Hi).
  - intros Hp c Hc Hpc x y _ Hy. by rewrite Hnochild in Hy.
  - intros c y Hc Hpc Hy. by rewrite Hnochild in Hy.
  - split; [done|]. rewrite Hperm. symmetry. apply Permutation_cons_append.
Qed.

Lemma heappushpop_ok h item popped h' :
  heap_ok h →
  heappushpop lt h item = (popped, h') →
  heap_ok h' ∧ popped :: h' ≡ₚ item :: h ∧ le popped item ∧
  ∀ y, y ∈ h' → le popped y.
Proof.
  intros Hok. unfold heappushpop. destruct h as [|heap0 rest].
  { intros [= <- <-]. split; [done|]. split; [done|].
    split; [apply le_refl | by intros y ?%elem_of_nil]. }
  destruct (lt heap0 item) eqn:Hlt.
  - intros [= <- <-].
    destruct (siftup_ok (<[0:=item]> (heap0 :: rest))) as [Hok' Hperm].
    + cbn. lia.
    + intros i Hi Hne Hne'. apply heap_le_insert_ne; [done..|].
      by apply Hok.
    + split; [done|]. split; [rewrite Hperm; apply perm_swap|].
      split; [by apply lt_asym|].
      intros y Hy. rewrite Hperm in Hy. cbn in Hy.
      apply elem_of_cons in Hy as [->|Hy]; [by apply lt_asym|].
      apply (heap_ok_root (heap0 :: rest)); [done | done | by right].
  - intros [= <- <-]. split; [done|]. split; [done|].
    split; [apply le_refl|].
    intros y Hy. apply (le_trans _ heap0); [done|].
    by apply (heap_ok_root (heap0 :: rest)).
Qed.

Lemma heap_ok_nil : heap_ok [].
Proof. by intros i Hi x y Hx. Qed.

End Order.

End heapq_facts.

(** * The max-unique priority queue *)

Module mpq_facts.

Import utils heapq_facts.

Section Queue.

Context {Item : Type} `{Countable Item} {Extra : Type}.

Abbreviation container := (MPQItemContainer Item Extra).
Abbreviation queue := (MaxUniquePriorityQueue Item Extra).

Lemma container_le_iff (x y : container) :
  le container_lt x y ↔ (score x <= score y)%Q.
Proof.
  unfold le, container_lt. rewrite negb_false_iff. apply Qle_bool_iff.
Qed.

Lemma container_lt_asym (x y : container) :
  container_lt x y = true → le container_lt x y.
Proof.
  rewrite container_le_iff. unfold container_lt. rewrite negb_true_iff.
  intros Hf. apply Qlt_le_weak, Qnot_le_lt. intros Hle.
  apply Qle_bool_iff in Hle. congruence.
Qed.

Lemma container_le_trans (x y z : container) :
  le container_lt x y → le container_lt y z → le container_lt x z.
Proof. rewrite !container_le_iff. apply Qle_trans. Qed.

Lemma container_eta (c : container) :
  Container (score c) (item c) (extra_data c) = c.
Proof. by destruct c. Qed.






End Queue.



End mpq_facts.

(** * More about the interpreter *)

Module bf_more.

Import bf bf_facts.

(** ** evaluate raises nothing *)

Lemma while_loop_no_raise code bmap base timeout max_steps clock e :
  covers bmap code →
  ∀ fuel m, wf m →
    while_loop code bmap base timeout max_steps clock fuel m ≠ Raise e.
Proof.
  intros Hcov. induction fuel as [|fuel IH]; intros m Hw; cbn;
    (destruct (decide (codeptr m < length code)) as [Hlt|_]; [|done]);
    [done|].
  destruct (loop_body_total code bmap base m Hw Hcov Hlt) as [m' Hb].
  rewrite Hb, bind_Ok.
  destruct (stop_check timeout max_steps clock m'); [done|].
  apply IH.
  apply loop_body_keeps in Hb as (m'' & [_ _ W _] & ->). exact (W Hw).
Qed.

(** The tape reads [cells[cellptr]] and the jumps [bracemap[codeptr]] of
    [evaluate] never raise [IndexError] or [KeyError]: whatever the program
    (unmatched braces included), the input, the initial memory, the base and
    the limits, [evaluate] raises no exception. *)
Theorem evaluate_never_raises fuel clock code input_buffer init_memory base
    timeout max_steps require_correct_syntax output_memory debug e :
  evaluate fuel clock code input_buffer init_memory base timeout max_steps
    require_correct_syntax output_memory debug ≠ Raise e.
Proof.
  unfold evaluate.
  pose proof (buildbracemap_covers code) as Hcov.
  destruct (buildbracemap code) as [bmap cs]. cbn in Hcov.
  destruct (require_correct_syntax && negb cs); [done|].
  fold (initial input_buffer init_memory debug).
  pose proof (initial_wf input_buffer init_memory debug) as Hw.
  destruct (while_loop code bmap base timeout max_steps clock fuel
              (initial input_buffer init_memory debug))
    as [[[m ok] reason]|e'|] eqn:Hl; [| |done].
  - rewrite bind_Ok.
    eapply (while_loop_invariant code bmap base timeout max_steps clock wf)
      in Hw; [|clear; intros m m' Hw _ Hb|exact Hl].
    + destruct (record_snapshot_total (code !! codeptr m) m Hw)
        as (m' & -> & _). done.
    + apply loop_body_keeps in Hb as (m'' & [_ _ W _] & ->). exact (W Hw).
  - exfalso. by eapply while_loop_no_raise.
Qed.

(** ** The success flag and the status *)

Lemma stop_check_not_success timeout max_steps clock m :
  stop_check timeout max_steps clock m ≠ Some SUCCESS.
Proof.
  unfold stop_check. destruct (timed_out _ _ _); [done|].
  by destruct (step_limit_hit _ _).
Qed.

(** The [success] flag of a result is true exactly when its
    [failure_reason] is SUCCESS. *)
Theorem success_iff_status fuel clock code input_buffer init_memory base
    timeout max_steps require_correct_syntax output_memory debug r :
  evaluate fuel clock code input_buffer init_memory base timeout max_steps
    require_correct_syntax output_memory debug = Ok r →
  success r = true ↔ failure_reason r = SUCCESS.
Proof.
  intros [->|(m & ok & reason & m' & Hl & _ & ->)]%evaluate_inv; [done|].
  cbn. apply while_loop_exit in Hl as [(_ & -> & -> & _)|[_ Hleft]]; [done|].
  unfold left_by in Hleft.
  pose proof (stop_check_not_success timeout max_steps clock m) as Hns.
  destruct (stop_check timeout max_steps clock m) as [s|].
  - destruct Hleft as [-> ->]. split; [done | congruence].
  - by destruct Hleft as (-> & -> & _).
Qed.

Lemma success_iff_status_witness :
  let r := MkEvalResult [1%Z] false STEP_LIMIT 3 None None in
  evaluate 5 (fun _ => 0%Q) (program "+.[]") [] None 256 None (Some 3%Z)
    true false false = Ok r ∧
  (success r = true ↔ failure_reason r = SUCCESS).
Proof.
  intros r.
  assert (evaluate 5 (fun _ => 0%Q) (program "+.[]") [] None 256 None
            (Some 3%Z) true false false = Ok r) as Hr by reflexivity.
  split; [exact Hr|].
  exact (success_iff_status _ _ _ _ _ _ _ _ _ _ _ r Hr).
Defined.

(** ** The step limit *)

Lemma while_loop_step_bound code bmap base timeout clock n :
  ∀ fuel m m' ok reason,
    (m_steps m = 0 ∨ (Z.of_nat (m_steps m) < n)%Z) →
    while_loop code bmap base timeout (Some n) clock fuel m
      = Ok (m', ok, reason) →
    (Z.of_nat (m_steps m') ≤ Z.max 1 n)%Z ∧
    (reason = STEP_LIMIT → Z.of_nat (m_steps m') = Z.max 1 n).
Proof.
  induction fuel as [|fuel IH]; intros m m' ok reason Hs; cbn;
    (destruct (decide (codeptr m < length code)) as [Hlt|_];
       [|intros [= <- _ <-]; split; [lia | done]]);
    [done|].
  intros Hl. bind_inv Hl. rename a into m1.
  pose proof (loop_body_steps _ _ _ _ _ H) as Hst.
  unfold stop_check in Hl. destruct (timed_out timeout clock m1).
  { injection Hl as <- _ <-. split; [lia | done]. }
  destruct (step_limit_hit (Some n) m1) eqn:Hlim.
  - injection Hl as <- _ <-. cbn in Hlim.
    apply bool_decide_eq_true in Hlim. lia.
  - cbn in Hlim. apply bool_decide_eq_false in Hlim.
    eapply IH; [|exact Hl]. right. lia.
Qed.

(** With [max_steps=n], a run makes at most [max(n, 1)] steps, and a run
    that ends with STEP_LIMIT has made exactly that many: the limit is first
    looked at after a step, so even [max_steps=0] lets one token run. *)
Theorem step_limit_steps fuel clock code input_buffer init_memory base
    timeout n require_correct_syntax output_memory debug r :
  evaluate fuel clock code input_buffer init_memory base timeout (Some n)
    require_correct_syntax output_memory debug = Ok r →
  (Z.of_nat (steps r) ≤ Z.max 1 n)%Z ∧
  (failure_reason r = STEP_LIMIT → Z.of_nat (steps r) = Z.max 1 n).
Proof.
  intros [->|(m & ok & reason & m' & Hl & Hsnap & ->)]%evaluate_inv;
    [cbn; split; [lia | done]|].
  apply record_snapshot_same in Hsnap as (_ & -> & _). cbn.
  eapply while_loop_step_bound; [|exact Hl]. by left.
Qed.

Lemma step_limit_steps_witness :
  let r := MkEvalResult [] false STEP_LIMIT 1 None None in
  evaluate 5 (fun _ => 0%Q) (program "+.") [] None 256 None (Some 0%Z)
    true false false = Ok r ∧
  (Z.of_nat (steps r) ≤ Z.max 1 0)%Z ∧
  (failure_reason r = STEP_LIMIT → Z.of_nat (steps r) = Z.max 1 0).
Proof.
  intros r.
  assert (evaluate 5 (fun _ => 0%Q) (program "+.") [] None 256 None
            (Some 0%Z) true false false = Ok r) as Hr by reflexivity.
  split; [exact Hr|].
  exact (step_limit_steps _ _ _ _ _ _ _ _ _ _ _ r Hr).
Defined.

(** ** How far the tape and the output grow *)

(** The lengths of the tape and of the output. *)
Definition sizes (m : Machine) : nat * nat :=
  (length (cells m), length (output_buffer m)).

Lemma record_snapshot_sizes c m m' :
  record_snapshot c m = Ok m' → sizes m' = sizes m.
Proof.
  intros (Ho & _ & Hc)%record_snapshot_same. unfold sizes. by rewrite Ho, Hc.
Qed.

Lemma op_right_sizes c m m' :
  op_right c m = Ok m' →
  (sizes m').1 ≤ (sizes m).1 + 1 ∧ (sizes m').2 = (sizes m).2.
Proof.
  unfold op_right, sizes. destruct (c =? ">")%char; intros [= <-]; cbn;
    [|lia].
  destruct (decide (cellptr m + 1 = length (cells m)));
    rewrite ?length_app; cbn; lia.
Qed.

Lemma op_left_sizes c m m' : op_left c m = Ok m' → sizes m' = sizes m.
Proof. unfold op_left. by destruct (c =? "<")%char; intros [= <-]. Qed.

Lemma set_cell_sizes m m' v : set_cell m v = Ok m' → sizes m' = sizes m.
Proof.
  unfold set_cell. intros Hm. bind_inv Hm.
  apply setitem_Ok in H as [_ ->]. injection Hm as <-.
  unfold sizes. cbn. by rewrite length_insert.
Qed.

Lemma op_plus_sizes base c m m' :
  op_plus base c m = Ok m' → sizes m' = sizes m.
Proof.
  unfold op_plus. destruct (c =? "+")%char; [|by intros [= <-]].
  intros Hm. bind_inv Hm. by eapply set_cell_sizes.
Qed.

Lemma op_minus_sizes base c m m' :
  op_minus base c m = Ok m' → sizes m' = sizes m.
Proof.
  unfold op_minus. destruct (c =? "-")%char; [|by intros [= <-]].
  intros Hm. bind_inv Hm. by eapply set_cell_sizes.
Qed.

Lemma jump_sizes bmap m m' : jump bmap m = Ok m' → sizes m' = sizes m.
Proof.
  unfold jump. by destruct (bmap !! codeptr m); [intros [= <-]|].
Qed.

Lemma op_open_sizes bmap c m m' :
  op_open bmap c m = Ok m' → sizes m' = sizes m.
Proof.
  unfold op_open. destruct (c =? "[")%char; [|by intros [= <-]].
  intros Hm. bind_inv Hm.
  destruct (decide (a = 0%Z)); [by eapply jump_sizes | by injection Hm as <-].
Qed.

Lemma op_close_sizes bmap c m m' :
  op_close bmap c m = Ok m' → sizes m' = sizes m.
Proof.
  unfold op_close. destruct (c =? "]")%char; [|by intros [= <-]].
  intros Hm. bind_inv Hm.
  destruct (decide (a ≠ 0%Z)); [by eapply jump_sizes | by injection Hm as <-].
Qed.

Lemma op_write_sizes c m m' :
  op_write c m = Ok m' →
  (sizes m').1 = (sizes m).1 ∧ (sizes m').2 ≤ (sizes m).2 + 1.
Proof.
  unfold op_write, sizes. destruct (c =? ".")%char;
    [|intros [= <-]; cbn; lia].
  intros Hm. bind_inv Hm. injection Hm as <-. cbn.
  rewrite length_app. cbn. lia.
Qed.

Lemma op_read_sizes c m m' : op_read c m = Ok m' → sizes m' = sizes m.
Proof.
  unfold op_read. destruct (c =? ",")%char; [|by intros [= <-]].
  destruct (next (input_iter m)) as [v rest]. intros Hm. bind_inv Hm.
  apply setitem_Ok in H as [_ ->]. injection Hm as <-.
  unfold sizes. cbn. by rewrite length_insert.
Qed.

(** One iteration adds at most one cell and at most one output value. *)
Lemma loop_body_sizes code bmap base m m' :
  loop_body code bmap base m = Ok m' →
  (sizes m').1 ≤ (sizes m).1 + 1 ∧ (sizes m').2 ≤ (sizes m).2 + 1.
Proof.
  unfold loop_body. intros Hm.
  bind_inv Hm. bind_inv Hm. bind_inv Hm. bind_inv Hm. bind_inv Hm.
  bind_inv Hm. bind_inv Hm. bind_inv Hm. bind_inv Hm. bind_inv Hm.
  injection Hm as <-.
  apply record_snapshot_sizes in H0. apply op_right_sizes in H1 as [? ?].
  apply op_left_sizes in H2. apply op_plus_sizes in H3.
  apply op_minus_sizes in H4. apply op_open_sizes in H5.
  apply op_close_sizes in H6. apply op_write_sizes in H7 as [? ?].
  apply op_read_sizes in H8.
  change (sizes (advance a8)) with (sizes a8).
  rewrite H8. rewrite H6, H5, H4, H3, H2 in *. rewrite H0 in *. lia.
Qed.

(** The tape is never longer than it was at the start plus the number of
    steps made, and the output holds at most one value per step.  With the
    default one-cell tape, the memory returned has at most [steps + 1]
    cells. *)
Theorem tape_and_output_growth fuel clock code input_buffer init_memory base
    timeout max_steps require_correct_syntax output_memory debug r :
  evaluate fuel clock code input_buffer init_memory base timeout max_steps
    require_correct_syntax output_memory debug = Ok r →
  length (output r) ≤ steps r ∧
  ∀ mem, memory r = Some mem →
    length mem
    ≤ length (cells (initial input_buffer init_memory debug)) + steps r.
Proof.
  intros [->|(m & ok & reason & m' & Hl & Hsnap & ->)]%evaluate_inv.
  { cbn. split; [lia|]. destruct output_memory; [|done].
    intros ? [= <-]. cbn. lia. }
  apply record_snapshot_same in Hsnap as (-> & -> & ->). cbn.
  assert ((sizes m).1
          ≤ length (cells (initial input_buffer init_memory debug))
            + m_steps m ∧
          (sizes m).2 ≤ m_steps m) as [Hc Ho].
  { eapply (fun Hstep Hinit =>
              while_loop_invariant code _ base timeout max_steps clock
                (fun x =>
                   (sizes x).1
                   ≤ length (cells (initial input_buffer init_memory debug))
                     + m_steps x ∧
                   (sizes x).2 ≤ m_steps x)
                Hstep _ _ _ _ _ Hinit Hl);
      [|split; unfold sizes; cbn [fst snd]; [lia | cbn; lia]].
    intros m1 m2 [H1 H2] _ Hb.
    pose proof (loop_body_steps _ _ _ _ _ Hb).
    apply loop_body_sizes in Hb as [? ?]. split; lia. }
  unfold sizes in Hc, Ho. cbn [fst snd] in Hc, Ho.
  split; [done|].
  destruct output_memory; [|done]. by intros ? [= <-].
Qed.

Lemma tape_and_output_growth_witness :
  let r := MkEvalResult [4%Z] true SUCCESS 14 (Some [1; 2; 3; 4]%Z) None in
  evaluate 20 (fun _ => 0%Q) (program "+>++>+++>++++.") [] None 256 None
    None true true false = Ok r ∧
  length (output r) ≤ steps r ∧
  ∀ mem, memory r = Some mem →
    length mem ≤ length (cells (initial [] None false)) + steps r.
Proof.
  intros r.
  assert (evaluate 20 (fun _ => 0%Q) (program "+>++>+++>++++.") [] None 256
            None None true true false = Ok r) as Hr by reflexivity.
  split; [exact Hr|].
  exact (tape_and_output_growth _ _ _ _ _ _ _ _ _ _ _ r Hr).
Defined.

(** ** A step limit that is not reached *)

Lemma while_loop_steps_mono code bmap base timeout max_steps clock
    fuel m m' ok reason :
  while_loop code bmap base timeout max_steps clock fuel m
    = Ok (m', ok, reason) →
  m_steps m ≤ m_steps m'.
Proof.
  intros [(-> & _)|[Hlt _]]%while_loop_exit; lia.
Qed.

Lemma while_loop_under_limit code bmap base clock clock' n :
  ∀ fuel m m' ok reason,
    while_loop code bmap base None None clock fuel m = Ok (m', ok, reason) →
    (Z.of_nat (m_steps m') < n)%Z →
    while_loop code bmap base None (Some n) clock' fuel m
      = Ok (m', ok, reason).
Proof.
  induction fuel as [|fuel IH]; intros m m' ok reason; cbn [while_loop];
    (destruct (decide (codeptr m < length code)) as [Hlt|_]; [|done]);
    [done|].
  intros Hl Hn. bind_inv Hl. rename a into m1. rewrite H, bind_Ok.
  change (stop_check None None clock m1) with (@None Status) in Hl.
  pose proof (while_loop_steps_mono _ _ _ _ _ _ _ _ _ _ _ Hl) as Hmono.
  rewrite stop_check_limit, bool_decide_false by lia.
  by apply IH.
Qed.

(** A step limit above the number of steps a program needs changes nothing:
    with the timeout disabled, the run with [max_steps=n] returns what the
    run without a limit returns, whenever that run made fewer than [n]
    steps. *)
Theorem step_limit_not_reached fuel clock clock' code input_buffer
    init_memory base n require_correct_syntax output_memory debug r :
  evaluate fuel clock code input_buffer init_memory base None None
    require_correct_syntax output_memory debug = Ok r →
  (Z.of_nat (steps r) < n)%Z →
  evaluate fuel clock' code input_buffer init_memory base None (Some n)
    require_correct_syntax output_memory debug = Ok r.
Proof.
  intros Hr Hn. pose proof Hr as Hr'. revert Hr'. unfold evaluate.
  destruct (buildbracemap code) as [bmap cs].
  destruct (require_correct_syntax && negb cs); [done|].
  intros Hr'. bind_inv Hr'. destruct a as [[m ok] reason].
  rewrite (while_loop_under_limit code bmap base clock clock' n _ _ m ok
             reason H); [by rewrite bind_Ok|].
  bind_inv Hr'. injection Hr' as <-.
  apply record_snapshot_same in H0 as (_ & E & _). cbn in Hn. lia.
Qed.

Lemma step_limit_not_reached_witness :
  let r := MkEvalResult [3; 1; 2]%Z true SUCCESS 9 None None in
  evaluate 20 (fun _ => 0%Q) (program "+++.--.+.") [] None 256 None None
    true false false = Ok r ∧
  (Z.of_nat (steps r) < 10)%Z ∧
  evaluate 20 (fun _ => 1%Q) (program "+++.--.+.") [] None 256 None
    (Some 10%Z) true false false = Ok r.
Proof.
  intros r.
  assert (evaluate 20 (fun _ => 0%Q) (program "+++.--.+.") [] None 256
            None None true false false = Ok r) as Hr by reflexivity.
  assert ((Z.of_nat (steps r) < 10)%Z) as Hn by (cbn; lia).
  split; [exact Hr|]. split; [exact Hn|].
  exact (step_limit_not_reached _ _ _ _ _ _ _ _ _ _ _ r Hr Hn).
Defined.

(** ** The brace map *)

Section BraceMap.

Variable whole : list ascii.

(** What holds of the scan state when the positions below [pos] have been
    scanned. *)
Record scan_inv (pos : nat) (s : scan_state) : Prop := ScanInv {
  si_sym : ∀ p q, bracemap s !! p = Some q → bracemap s !! q = Some p;
  si_dom : ∀ p, is_Some (bracemap s !! p) → p < pos;
  si_stack : ∀ p, p ∈ bracestack s →
               p < pos ∧ bracemap s !! p = None ∧
               whole !! p = Some "["%char;
  si_nodup : NoDup (bracestack s);
  si_flag : correct_syntax s = false ↔ ∃ p, bracemap s !! p = Some p;
  si_pair : ∀ p q, bracemap s !! p = Some q → p < q →
              whole !! p = Some "["%char ∧ whole !! q = Some "]"%char;
  si_brace : ∀ p q, bracemap s !! p = Some q →
               ∃ c, whole !! p = Some c ∧ is_brace c
}.

Lemma scan_inv_init : scan_inv 0 (ScanState [] ∅ true).
Proof.
  split; cbn.
  - intros p q Hq. by rewrite lookup_empty in Hq.
  - intros p [q Hq]. by rewrite lookup_empty in Hq.
  - by intros p ?%elem_of_nil.
  - constructor.
  - split; [done|]. intros [p Hp]. by rewrite lookup_empty in Hp.
  - intros p q Hq. by rewrite lookup_empty in Hq.
  - intros p q Hq. by rewrite lookup_empty in Hq.
Qed.

Lemma scan_inv_weaken pos s : scan_inv pos s → scan_inv (S pos) s.
Proof.
  intros [Hsym Hdom Hst Hnd Hfl Hpair Hbr]. split; try done.
  - intros p Hp. specialize (Hdom p Hp). lia.
  - intros p Hp. destruct (Hst p Hp) as (? & ? & ?). split; [lia | done].
Qed.

Lemma scan_inv_open pos s :
  whole !! pos = Some "["%char → scan_inv pos s →
  scan_inv (S pos)
    (ScanState (pos :: bracestack s) (bracemap s) (correct_syntax s)).
Proof.
  intros Hc [Hsym Hdom Hst Hnd Hfl Hpair Hbr].
  assert (bracemap s !! pos = None) as Hfresh.
  { destruct (bracemap s !! pos) eqn:E; [|done].
    specialize (Hdom pos ltac:(by eexists)). lia. }
  split; cbn; try done.
  - intros p Hp. specialize (Hdom p Hp). lia.
  - intros p [->|Hp]%elem_of_cons; [split; [lia | done]|].
    destruct (Hst p Hp) as (? & ? & ?). split; [lia | done].
  - apply NoDup_cons. split; [|done].
    intros Hin. destruct (Hst pos Hin) as (? & _). lia.
Qed.

Lemma scan_inv_close pos s :
  whole !! pos = Some "]"%char → scan_inv pos s →
  scan_inv (S pos)
    match bracestack s with
    | [] => ScanState [] (<[pos := pos]> (bracemap s)) false
    | start :: rest =>
        ScanState rest
          (<[pos := start]> (<[start := pos]> (bracemap s)))
          (correct_syntax s)
    end.
Proof.
  intros Hc [Hsym Hdom Hst Hnd Hfl Hpair Hbr].
  assert (∀ p, is_Some (bracemap s !! p) → p ≠ pos) as Hne.
  { intros p Hp ->. specialize (Hdom pos Hp). lia. }
  destruct (bracestack s) as [|start rest] eqn:Hstack.
  - split; cbn.
    + intros p q. rewrite !lookup_insert.
      destruct (decide (pos = p)) as [<-|Hp].
      * intros [= <-]. by rewrite decide_True.
      * intros Hq. rewrite decide_False; [by apply Hsym|].
        intros <-. apply (Hne pos); [|done]. rewrite (Hsym _ _ Hq).
        by eexists.
    + intros p. rewrite lookup_insert.
      destruct (decide (pos = p)) as [<-|_]; [lia|].
      intros Hp. specialize (Hdom p Hp). lia.
    + by intros p ?%elem_of_nil.
    + constructor.
    + split; [|done]. intros _. exists pos. by rewrite lookup_insert_eq.
    + intros p q. rewrite lookup_insert.
      destruct (decide (pos = p)) as [<-|_]; [intros [= <-]; lia|].
      apply Hpair.
    + intros p q. rewrite lookup_insert.
      destruct (decide (pos = p)) as [<-|_]; [|apply Hbr].
      intros _. exists "]"%char. split; [done | by right].
  - destruct (Hst start ltac:(by left)) as (Hlt & Hfresh & Hopen).
    apply NoDup_cons in Hnd as [Hnotin Hnd].
    assert (bracemap s !! pos = None) as Hfresh'.
    { destruct (bracemap s !! pos) eqn:E; [|done].
      exfalso. by apply (Hne pos); [eexists|]. }
    assert (∀ p q,
      <[pos := start]> (<[start := pos]> (bracemap s)) !! p = Some q ↔
      (p = pos ∧ q = start) ∨ (p = start ∧ q = pos) ∨
      (p ≠ pos ∧ p ≠ start ∧ bracemap s !! p = Some q)) as Hlook.
    { intros p q. rewrite !lookup_insert.
      destruct (decide (pos = p)) as [<-|?].
      - split; [intros [= <-]; by left|].
        intros [[_ ->]|[[-> _]|(? & _)]]; [done | lia | done].
      - destruct (decide (start = p)) as [<-|?].
        + split; [intros [= <-]; right; by left|].
          intros [[-> _]|[[_ ->]|(_ & ? & _)]]; done.
        + split; [intros ?; right; right; done|].
          intros [[-> _]|[[-> _]|(_ & _ & ?)]]; done. }
    split; cbn.
    + intros p q. rewrite !Hlook.
      intros [[-> ->]|[[-> ->]|(Hp & Hp' & Hq)]].
      * right. by left.
      * by left.
      * right. right.
        pose proof (Hsym _ _ Hq) as Hq'.
        split; [intros ->; congruence|].
        split; [intros ->; congruence | done].
    + intros p [q Hq]. apply Hlook in Hq as [[-> _]|[[-> _]|(_ & _ & Hq)]];
        [lia | lia |].
      specialize (Hdom p ltac:(by eexists)). lia.
    + intros p Hp. destruct (Hst p ltac:(by right)) as (? & Hnone & ?).
      split; [lia|]. split; [|done].
      apply eq_None_not_Some. intros [q E].
      apply Hlook in E as [[-> _]|[[-> _]|(_ & _ & E)]];
        [lia | done | congruence].
    + done.
    + rewrite Hfl. split.
      * intros [p Hp]. exists p. apply Hlook. right. right.
        split; [intros ->; congruence|]. split; [intros ->; congruence|done].
      * intros [p Hp]. apply Hlook in Hp as [[-> ->]|[[-> ->]|(_ & _ & Hp)]];
          [lia | lia | by exists p].
    + intros p q Hq Hpq.
      apply Hlook in Hq as [[-> ->]|[[-> ->]|(_ & _ & Hq)]];
        [lia | done | by apply Hpair].
    + intros p q Hq.
      apply Hlook in Hq as [[-> ->]|[[-> ->]|(_ & _ & Hq)]].
      * exists "]"%char. split; [done | by right].
      * exists "["%char. split; [done | by left].
      * by eapply Hbr.
Qed.

Lemma scan_inv_step pos c s :
  whole !! pos = Some c → scan_inv pos s →
  scan_inv (S pos) (scan_step pos c s).
Proof.
  intros Hc Hinv. unfold scan_step.
  destruct (Ascii.eqb_spec c "[") as [->|Hopen]; cbn.
  { by apply scan_inv_open. }
  destruct (Ascii.eqb_spec c "]") as [->|Hclose].
  { by apply scan_inv_close. }
  by apply scan_inv_weaken.
Qed.

Lemma scan_inv_scan : ∀ rest pos s,
  (∀ i c, rest !! i = Some c → whole !! (pos + i) = Some c) →
  scan_inv pos s → scan_inv (pos + length rest) (scan pos rest s).
Proof.
  induction rest as [|c rest IH]; intros pos s Hrest Hinv; cbn.
  { by rewrite Nat.add_0_r. }
  replace (pos + S (length rest)) with (S pos + length rest) by lia.
  apply IH.
  - intros i c' Hi. replace (S pos + i) with (pos + S i) by lia.
    by apply Hrest.
  - apply scan_inv_step; [|done].
    rewrite <- (Nat.add_0_r pos). by apply Hrest.
Qed.

(** The entries of the map once the braces left on the stack map to
    themselves. *)
Lemma self_maps_lookup : ∀ (l : list nat) (m : gmap nat nat),
  NoDup l → (∀ p, p ∈ l → m !! p = None) →
  ∀ p q, foldl (fun m pos => <[pos := pos]> m) m l !! p = Some q ↔
         m !! p = Some q ∨ (p ∈ l ∧ q = p).
Proof.
  induction l as [|x l IH]; intros m Hnd Hnone p q; cbn.
  { split; [by left | intros [?|[?%elem_of_nil _]]; done]. }
  apply NoDup_cons in Hnd as [Hx Hnd].
  rewrite IH; [|done|].
  - rewrite lookup_insert. destruct (decide (x = p)) as [<-|Hne].
    + rewrite (Hnone x) by by left. split.
      * intros [[= <-]|[? ->]]; right; (split; [by left | done]).
      * intros [?|[_ ->]]; [done | by left].
    + split.
      * intros [?|[? ->]]; [by left | right; split; [by right | done]].
      * intros [?|[[->|?]%elem_of_cons ->]]; [by left | done | by right].
  - intros p' Hp'. rewrite lookup_insert_ne; [apply Hnone; by right|].
    by intros ->.
Qed.

End BraceMap.

(** [buildbracemap] pairs the braces: the map is its own inverse, its keys
    are exactly the positions of the braces, and an entry that points
    forward goes from a [[] to a []]. *)
Theorem bracemap_pairs code bmap correct_syntax :
  buildbracemap code = (bmap, correct_syntax) →
  (∀ p q, bmap !! p = Some q → bmap !! q = Some p) ∧
  (∀ p, is_Some (bmap !! p) ↔ ∃ c, code !! p = Some c ∧ is_brace c) ∧
  (∀ p q, bmap !! p = Some q → p < q →
          code !! p = Some "["%char ∧ code !! q = Some "]"%char).
Proof.
  intros Hb.
  pose proof (buildbracemap_covers code) as Hcov. rewrite Hb in Hcov.
  cbn in Hcov. revert Hb. unfold buildbracemap, close_unmatched.
  pose proof (scan_inv_scan code code 0 _ ltac:(done) (scan_inv_init code))
    as [Hsym Hdom Hst Hnd Hfl Hpair Hbr].
  destruct (bracestack (scan 0 code (ScanState [] ∅ true)))
    as [|x l] eqn:Hstack.
  { intros [= <- <-]. split; [done|]. split; [|done].
    intros p. split; [intros [q Hq]; by eapply Hbr | intros (c & ? & ?)].
    by eapply Hcov. }
  intros [= <- <-].
  assert (∀ p q,
    foldl (fun m pos => <[pos := pos]> m)
      (bracemap (scan 0 code (ScanState [] ∅ true)))
      (reverse (x :: l)) !! p = Some q ↔
    bracemap (scan 0 code (ScanState [] ∅ true)) !! p = Some q ∨
    (p ∈ x :: l ∧ q = p)) as Hlook.
  { intros p q. rewrite self_maps_lookup.
    - by rewrite elem_of_reverse.
    - by rewrite reverse_Permutation.
    - intros p'. rewrite elem_of_reverse. intros Hp'.
    by destruct (Hst p' Hp') as (_ & ? & _). }
  split; [|split].
  - intros p q. rewrite !Hlook. intros [Hq|[Hp ->]]; [|by right].
    left. by apply Hsym.
  - intros p. split; [|intros (c & ? & ?); by eapply Hcov].
    intros [q [Hq|[Hp ->]]%Hlook]; [by eapply Hbr|].
    destruct (Hst p Hp) as (_ & _ & ?). exists "["%char.
    split; [done | by left].
  - intros p q [Hq|[Hp ->]]%Hlook Hpq; [by apply Hpair | lia].
Qed.

Lemma bracemap_pairs_witness :
  ∃ bmap correct_syntax,
    buildbracemap (program "+[>[-]<]]") = (bmap, correct_syntax) ∧
    (∀ p q, bmap !! p = Some q → bmap !! q = Some p) ∧
    (∀ p, is_Some (bmap !! p)
          ↔ ∃ c, program "+[>[-]<]]" !! p = Some c ∧ is_brace c) ∧
    (∀ p q, bmap !! p = Some q → p < q →
            program "+[>[-]<]]" !! p = Some "["%char ∧
            program "+[>[-]<]]" !! q = Some "]"%char).
Proof.
  eexists _, _. split; [reflexivity|].
  exact (bracemap_pairs (program "+[>[-]<]]") _ _ eq_refl).
Defined.

(** [correct_syntax] is false exactly when some brace is unmatched, that
    is, maps to itself. *)
Theorem correct_syntax_iff code bmap correct_syntax :
  buildbracemap code = (bmap, correct_syntax) →
  correct_syntax = false ↔ ∃ p, bmap !! p = Some p.
Proof.
  unfold buildbracemap, close_unmatched.
  pose proof (scan_inv_scan code code 0 _ ltac:(done) (scan_inv_init code))
    as [Hsym Hdom Hst Hnd Hfl Hpair Hbr].
  destruct (bracestack (scan 0 code (ScanState [] ∅ true)))
    as [|x l] eqn:Hstack.
  { by intros [= <- <-]. }
  intros [= <- <-]. split; [intros _|done].
  exists x. apply self_maps_lookup.
  - by rewrite reverse_Permutation.
  - intros p'. rewrite elem_of_reverse. intros Hp'.
    by destruct (Hst p' Hp') as (_ & ? & _).
  - right. split; [|done]. apply elem_of_reverse. by left.
Qed.

Lemma correct_syntax_iff_witness :
  ∃ bmap correct_syntax,
    buildbracemap (program "+[>[-]<]]") = (bmap, correct_syntax) ∧
    (correct_syntax = false ↔ ∃ p, bmap !! p = Some p).
Proof.
  eexists _, _. split; [reflexivity|].
  exact (correct_syntax_iff (program "+[>[-]<]]") _ _ eq_refl).
Defined.

End bf_more.

(** * reward.py: distances, rewards and reward managers *)

Module reward_facts.
Import reward.

(** The distance one slot at a time. *)
Fixpoint slots (f : Z → Z → Z → Z) (base : Z) (pred target : list Z) : Z :=
  match target with
  | [] => 0
  | t :: ts =>
      match pred with
      | [] => base + slots f base [] ts
      | p :: ps => f p t base + slots f base ps ts
      end
  end%Z.

Lemma foldl_slots f base pred : ∀ target k d,
  foldl (fun d '(i, target_t) =>
           match pred !! i with
           | None => d + base
           | Some p => d + f p target_t base
           end)%Z d (imap (fun i => pair (k + i)) target)
  = (d + slots f base (drop k pred) target)%Z.
Proof.
  induction target as [|t ts IH]; intros k d; cbn [imap foldl slots].
  { lia. }
  rewrite (imap_ext _ (fun i => pair (S k + i))).
  2: { intros i x _. cbn. f_equal. lia. }
  rewrite IH, Nat.add_0_r. destruct (pred !! k) as [p|] eqn:E.
  - rewrite (drop_S _ _ _ E). lia.
  - apply lookup_ge_None in E. rewrite !drop_ge by lia. lia.
Qed.

Lemma absolute_distance_slots pred target base f :
  absolute_distance pred target base f =
  (slots f base pred target +
   if decide (length target < length pred)%nat
   then (Z.of_nat (length pred) - Z.of_nat (length target)) * base
   else 0)%Z.
Proof.
  unfold absolute_distance.
  change (imap pair target) with (imap (fun i => pair (0 + i)) target).
  rewrite (foldl_slots f base pred target 0 0%Z), drop_0.
  case_decide; lia.
Qed.

Lemma slots_nonneg base : (0 ≤ base)%Z →
  ∀ target pred, (0 ≤ slots abs_diff base pred target)%Z.
Proof.
  intros Hb. induction target as [|t ts IH]; intros pred; cbn [slots];
    [lia|].
  destruct pred as [|p ps].
  - specialize (IH []). lia.
  - specialize (IH ps). unfold abs_diff at 1. lia.
Qed.

Lemma slots_zero base : (0 < base)%Z →
  ∀ target pred, slots abs_diff base pred target = 0%Z →
                 length pred ≤ length target → pred = target.
Proof.
  intros Hb. induction target as [|t ts IH]; intros pred; cbn [slots length].
  { destruct pred; cbn [length]; [done | lia]. }
  destruct pred as [|p ps]; cbn [length].
  - pose proof (slots_nonneg base ltac:(lia) ts []). lia.
  - pose proof (slots_nonneg base ltac:(lia) ts ps). unfold abs_diff at 1.
    intros Hz Hlen. f_equal; [lia|]. apply IH; lia.
Qed.

Lemma slots_same base : ∀ l, slots abs_diff base l l = 0%Z.
Proof.
  induction l as [|x l IH]; cbn [slots]; [done|]. unfold abs_diff at 1. lia.
Qed.

Lemma slots_empty f base : ∀ target,
  slots f base [] target = (base * Z.of_nat (length target))%Z.
Proof. induction target as [|t ts IH]; cbn [slots length]; lia. Qed.

(** Every slot costs at most [base] when the values are digits of the
    base. *)
Lemma slots_le base : ∀ target pred,
  Forall (fun x => 0 ≤ x < base)%Z pred →
  Forall (fun x => 0 ≤ x < base)%Z target →
  (slots abs_diff base pred target ≤ base * Z.of_nat (length target))%Z.
Proof.
  induction target as [|t ts IH]; intros pred Hp Ht; cbn [slots length].
  { lia. }
  apply Forall_cons in Ht as [Ht Hts]. destruct Hp as [|p ps Hp Hps].
  - rewrite slots_empty. lia.
  - specialize (IH ps Hps Hts). unfold abs_diff at 1. lia.
Qed.

Lemma absolute_distance_nonneg pred target base :
  (0 ≤ base)%Z → (0 ≤ default_distance_fn pred target base)%Z.
Proof.
  intros Hb. unfold default_distance_fn. rewrite absolute_distance_slots.
  pose proof (slots_nonneg base Hb target pred). case_decide; nia.
Qed.

Lemma absolute_distance_zero pred target base :
  (0 < base)%Z →
  absolute_distance pred target base abs_diff = 0%Z ↔ pred = target.
Proof.
  intros Hb. rewrite absolute_distance_slots.
  pose proof (slots_nonneg base ltac:(lia) target pred) as Hs. split.
  - intros Hz. apply (slots_zero base Hb); case_decide; nia.
  - intros ->. rewrite slots_same. by rewrite decide_False by lia.
Qed.

(** [mod_abs_diff] in a positive base: the result lies between 0 and half
    the base, is 0 exactly when the arguments are congruent, and does not
    depend on the order of the arguments. *)
Theorem mod_abs_diff_spec (a b base : Z) :
  (0 < base)%Z →
  ∃ d, mod_abs_diff a b base = Ok d ∧ mod_abs_diff b a base = Ok d ∧
       (0 ≤ d)%Z ∧ (2 * d ≤ base)%Z ∧
       (d = 0%Z ↔ ((a - b) `mod` base = 0)%Z).
Proof.
  intros Hb. unfold mod_abs_diff.
  replace (Z.abs (b - a)) with (Z.abs (a - b)) by lia.
  assert (∃ m, (if decide (base ≤ Z.abs (a - b))%Z
                then if decide (base = 0%Z) then Raise ZeroDivisionError
                     else Ok (Z.abs (a - b) `mod` base)%Z
                else Ok (Z.abs (a - b))) = Ok m ∧
               m = (Z.abs (a - b) `mod` base)%Z) as (m & -> & Hm).
  { destruct (decide (base ≤ Z.abs (a - b))%Z).
    - rewrite decide_False by lia. by eexists.
    - eexists. split; [done|]. symmetry. apply Z.mod_small. lia. }
  cbn. eexists. do 2 (split; [done|]).
  pose proof (Z.mod_pos_bound (Z.abs (a - b)) base Hb) as Hbound.
  rewrite <- Hm in Hbound.
  assert (m = 0%Z ↔ ((a - b) `mod` base = 0)%Z) as <-.
  { rewrite Hm. destruct (Z.abs_spec (a - b)) as [[_ ->]|[_ ->]]; [done|].
    split; intros H.
    - apply Z_mod_zero_opp_full in H. by rewrite Z.opp_involutive in H.
    - by apply Z_mod_zero_opp_full. }
  lia.
Qed.

Lemma mod_abs_diff_spec_witness :
  ∃ d, mod_abs_diff 1 99 100 = Ok d ∧ mod_abs_diff 99 1 100 = Ok d ∧
       (0 ≤ d)%Z ∧ (2 * d ≤ 100)%Z ∧
       (d = 0%Z ↔ ((1 - 99) `mod` 100 = 0)%Z).
Proof. apply (mod_abs_diff_spec 1 99 100). lia. Defined.

(** [absolute_distance] with the default scalar distance, in a positive
    base: the distance is never negative, and it is 0 exactly when the
    prediction is the target. *)
Theorem absolute_distance_zero_iff (pred target : list Z) (base : Z) :
  (0 < base)%Z →
  (0 ≤ absolute_distance pred target base abs_diff)%Z ∧
  (absolute_distance pred target base abs_diff = 0%Z ↔ pred = target).
Proof.
  intros Hb. split; [by apply absolute_distance_nonneg; lia|].
  by apply absolute_distance_zero.
Qed.

Lemma absolute_distance_zero_iff_witness :
  (0 ≤ absolute_distance [1; 2; 3]%Z [1; 2]%Z 256 abs_diff)%Z ∧
  (absolute_distance [1; 2; 3]%Z [1; 2]%Z 256 abs_diff = 0%Z
   ↔ [1; 2; 3]%Z = [1; 2]%Z).
Proof. apply (absolute_distance_zero_iff [1; 2; 3]%Z [1; 2]%Z 256). lia. Defined.

Lemma ratio_spec (u d : Z) :
  (0 < u)%Z →
  let r := ((inject_Z u - inject_Z d) / inject_Z u)%Q in
  ((r <= 1)%Q ↔ (0 ≤ d)%Z) ∧ ((r == 1)%Q ↔ d = 0%Z) ∧
  ((0 <= r)%Q ↔ (d ≤ u)%Z).
Proof.
  intros Hu. destruct u as [|u|u]; try lia.
  unfold Qle, Qeq, Qdiv, Qminus, Qplus, Qopp, Qmult, Qinv, inject_Z.
  cbn [Qnum Qden]. rewrite !Pos.mul_1_l, !Z.mul_1_r. cbn [Z.mul].
  repeat split; nia.
Qed.

Lemma reward_range (pred target : list Z) (base : Z) :
  (0 < base)%Z →
  ∃ r, absolute_distance_reward pred target base = Ok r ∧
       (r <= 1)%Q ∧ ((r == 1)%Q ↔ pred = target) ∧
       (length pred ≤ length target →
        Forall (fun x => 0 ≤ x < base)%Z pred →
        Forall (fun x => 0 ≤ x < base)%Z target → (0 <= r)%Q).
Proof.
  intros Hb. unfold absolute_distance_reward.
  set (u := if decide ((base * Z.of_nat (length target))%Z = 0%Z)
            then base else (base * Z.of_nat (length target))%Z).
  assert (0 < u)%Z as Hu by (subst u; case_decide; nia).
  rewrite decide_False by lia. eexists. split; [done|].
  destruct (ratio_spec u (absolute_distance pred target base abs_diff) Hu)
    as (Hle & Heq & Hge).
  pose proof (absolute_distance_nonneg pred target base ltac:(lia)) as Hpos.
  pose proof (absolute_distance_zero pred target base Hb) as Hz.
  unfold default_distance_fn in Hpos.
  split; [by apply Hle|]. split; [by rewrite Heq|].
  intros Hlen Hp Ht. apply Hge. rewrite absolute_distance_slots.
  rewrite decide_False by lia.
  pose proof (slots_le base target pred Hp Ht).
  pose proof (slots_nonneg base ltac:(lia) target pred).
  subst u. case_decide; nia.
Qed.

(** [absolute_distance_reward] in a positive base returns a reward of at
    most 1, which is 1 exactly when the prediction is the target; the
    reward is not negative when the prediction is no longer than the target
    and all values are digits of the base. *)
Theorem absolute_distance_reward_range (pred target : list Z) (base : Z) :
  (0 < base)%Z →
  ∃ r, absolute_distance_reward pred target base = Ok r ∧
       (r <= 1)%Q ∧ ((r == 1)%Q ↔ pred = target) ∧
       (length pred ≤ length target →
        Forall (fun x => 0 ≤ x < base)%Z pred →
        Forall (fun x => 0 ≤ x < base)%Z target → (0 <= r)%Q).
Proof. apply reward_range. Qed.

Lemma absolute_distance_reward_range_witness :
  ∃ r, absolute_distance_reward [1; 2]%Z [1; 5; 7]%Z 256 = Ok r ∧
       (r <= 1)%Q ∧ ((r == 1)%Q ↔ [1; 2]%Z = [1; 5; 7]%Z) ∧
       (length [1; 2]%Z ≤ length [1; 5; 7]%Z →
        Forall (fun x => 0 ≤ x < 256)%Z [1; 2]%Z →
        Forall (fun x => 0 ≤ x < 256)%Z [1; 5; 7]%Z → (0 <= r)%Q).
Proof.
  apply (absolute_distance_reward_range [1; 2]%Z [1; 5; 7]%Z 256). lia.
Defined.

(** ** Reward managers *)

Definition Qsum (l : list Q) : Q := foldr Qplus 0%Q l.

Lemma inject_Z_sub a b : (inject_Z (a - b) == inject_Z a - inject_Z b)%Q.
Proof. unfold Z.sub. by rewrite inject_Z_plus, inject_Z_opp. Qed.

Lemma inject_Z_nonzero base : base ≠ 0%Z → ¬ (inject_Z base == 0)%Q.
Proof. unfold Qeq, inject_Z. cbn. lia. Qed.

Lemma float_div_Ok x base :
  base ≠ 0%Z → float_div x base = Ok (inject_Z x / inject_Z base)%Q.
Proof. intros Hb. unfold float_div. by rewrite decide_False. Qed.

Lemma delta_step (a b c base : Z) (rest : Q) :
  base ≠ 0%Z →
  (rest == inject_Z (b - c) / inject_Z base)%Q →
  (inject_Z (a - b) / inject_Z base + rest
   == inject_Z (a - c) / inject_Z base)%Q.
Proof.
  intros Hb ->. rewrite !inject_Z_sub. field. by apply inject_Z_nonzero.
Qed.

Lemma delta_episode_sum : ∀ seqs self,
  _base (DeltaRewardManager.super self) ≠ 0%Z →
  ∃ rs self',
    DeltaRewardManager.episode self seqs = Ok (rs, self') ∧
    length rs = length seqs ∧
    DeltaRewardManager._last_diff self' =
      from_option (DeltaRewardManager._diff self)
        (DeltaRewardManager._last_diff self) (last seqs) ∧
    (Qsum rs ==
     inject_Z (DeltaRewardManager._last_diff self -
               DeltaRewardManager._last_diff self')
     / inject_Z (_base (DeltaRewardManager.super self)))%Q.
Proof.
  induction seqs as [|seq seqs IH]; intros self Hb;
    cbn [DeltaRewardManager.episode].
  { eexists _, _. split; [done|]. split; [done|]. split; [done|].
    rewrite Z.sub_diag. cbn [Qsum foldr]. unfold Qdiv.
    by rewrite Qmult_0_l. }
  unfold DeltaRewardManager.__call__, DeltaRewardManager._delta_reward.
  rewrite float_div_Ok by done. cbn [mbind outcome_bind obind].
  destruct (IH (DeltaRewardManager.Mk (DeltaRewardManager.super self)
                  (DeltaRewardManager._diff self seq)) Hb)
    as (rs & self' & -> & Hlen & Hlast & Hsum).
  cbn [mbind outcome_bind obind]. eexists _, _. split; [done|].
  cbn [length DeltaRewardManager.super DeltaRewardManager._last_diff]
    in *.
  split; [by rewrite Hlen|]. split.
  - rewrite Hlast. destruct seqs as [|seq' seqs']; [done|].
    rewrite last_cons_cons.
    destruct (last (seq' :: seqs')) eqn:E; [done|].
    by apply last_None in E.
  - cbn [Qsum foldr]. by apply delta_step.
Qed.

(** [DeltaRewardManager] in a positive base with the default distance: an
    episode gives one reward per call, the rewards add up to minus the
    distance of the last sequence over the base, so the total is at most 0
    and is 0 exactly when the last sequence is the target.  (Floats are
    taken as exact rationals.) *)
Theorem delta_rewards_total (target : list Z) (base : Z)
    (seqs : list (list Z)) (final : list Z) :
  (0 < base)%Z → last seqs = Some final →
  ∃ rs self',
    DeltaRewardManager.episode
      (DeltaRewardManager.__init__ target base default_distance_fn) seqs
      = Ok (rs, self') ∧
    length rs = length seqs ∧
    (Qsum rs ==
     inject_Z (- default_distance_fn final target base) / inject_Z base)%Q ∧
    (Qsum rs <= 0)%Q ∧ ((Qsum rs == 0)%Q ↔ final = target).
Proof.
  intros Hb Hfinal.
  destruct (delta_episode_sum seqs
              (DeltaRewardManager.__init__ target base default_distance_fn)
              ltac:(cbn; lia))
    as (rs & self' & Hrun & Hlen & Hlast & Hsum).
  rewrite Hfinal in Hlast. cbn in Hlast, Hsum. rewrite Hlast in Hsum.
  exists rs, self'. do 2 (split; [done|]). split; [done|].
  pose proof (absolute_distance_nonneg final target base ltac:(lia)) as Hpos.
  pose proof (absolute_distance_zero final target base Hb) as Hz.
  fold (default_distance_fn final target base) in Hz.
  rewrite Hsum. destruct base as [|u|u]; try lia.
  unfold Qle, Qeq, Qdiv, Qmult, Qinv, inject_Z. cbn [Qnum Qden].
  rewrite !Z.mul_1_r. rewrite <- Hz. split; [nia|]. split; nia.
Qed.

Lemma delta_rewards_total_witness :
  ∃ rs self',
    DeltaRewardManager.episode
      (DeltaRewardManager.__init__ [1; 2]%Z 10 default_distance_fn)
      [[5]; [1; 2; 3]; [1; 2]]%Z
      = Ok (rs, self') ∧
    length rs = length [[5]; [1; 2; 3]; [1; 2]]%Z ∧
    (Qsum rs ==
     inject_Z (- default_distance_fn [1; 2]%Z [1; 2]%Z 10) / inject_Z 10)%Q ∧
    (Qsum rs <= 0)%Q ∧ ((Qsum rs == 0)%Q ↔ [1; 2]%Z = [1; 2]%Z).
Proof.
  apply (delta_rewards_total [1; 2]%Z 10 [[5]; [1; 2; 3]; [1; 2]]%Z
           [1; 2]%Z); [lia | reflexivity].
Defined.

Definition penalty (self : FloorRewardManager.t) : Q :=
  if FloorRewardManager._too_long_penality_given self then 1%Q else 0%Q.

(** One call of the floor manager: the minimum only goes down, and the
    reward is the drop of the minimum over the base, less the penalty when
    it is charged, plus the penalty when it is returned. *)
Lemma floor_call self seq :
  (0 < _base (FloorRewardManager.super self))%Z →
  _distance_fn (FloorRewardManager.super self) = default_distance_fn →
  (0 ≤ FloorRewardManager._min_diff self)%Z →
  ∃ r self',
    FloorRewardManager.__call__ self seq = Ok (r, self') ∧
    FloorRewardManager.super self' = FloorRewardManager.super self ∧
    (0 ≤ FloorRewardManager._min_diff self'
       ≤ FloorRewardManager._min_diff self)%Z ∧
    (r == inject_Z (FloorRewardManager._min_diff self -
                    FloorRewardManager._min_diff self')
          / inject_Z (_base (FloorRewardManager.super self))
          + penalty self - penalty self')%Q.
Proof.
  intros Hb Hfn Hmin. unfold FloorRewardManager.__call__.
  assert (∀ x, (inject_Z (x - x)
                / inject_Z (_base (FloorRewardManager.super self)) == 0)%Q)
    as Hzero.
  { intros x. rewrite Z.sub_diag. unfold Qdiv. by rewrite Qmult_0_l. }
  destruct (decide _) as [Hlong|Hshort].
  { unfold penalty.
    destruct (FloorRewardManager._too_long_penality_given self) eqn:Hgiven;
      cbn [negb]; eexists _, _; (split; [done|]); cbn;
      (split; [done|]); (split; [lia|]); rewrite ?Hgiven, Hzero; ring. }
  assert (∃ r self',
    FloorRewardManager._delta_reward self seq = Ok (r, self') ∧
    FloorRewardManager.super self' = FloorRewardManager.super self ∧
    FloorRewardManager._too_long_penality_given self' =
      FloorRewardManager._too_long_penality_given self ∧
    FloorRewardManager._last_diff self' =
      FloorRewardManager._last_diff self ∧
    (0 ≤ FloorRewardManager._min_diff self'
       ≤ FloorRewardManager._min_diff self)%Z ∧
    (r == inject_Z (FloorRewardManager._min_diff self -
                    FloorRewardManager._min_diff self')
          / inject_Z (_base (FloorRewardManager.super self)))%Q)
    as (r & self' & -> & Hsuper & Hgiven & Hlast & Hle & Hr).
  { unfold FloorRewardManager._delta_reward, FloorRewardManager._diff.
    rewrite Hfn.
    pose proof (absolute_distance_nonneg seq
                  (_target (FloorRewardManager.super self))
                  (_base (FloorRewardManager.super self)) ltac:(lia)).
    destruct (decide _) as [Hless|Hmore].
    - rewrite float_div_Ok by lia. cbn [mbind outcome_bind obind].
      eexists _, _. split; [done|]. cbn. repeat split; try done; lia.
    - eexists _, _. split; [done|]. rewrite Hzero.
      repeat split; try done; lia. }
  cbn [mbind outcome_bind obind]. unfold penalty. rewrite Hgiven.
  destruct (FloorRewardManager._too_long_penality_given self);
    eexists _, _; (split; [done|]); cbn; rewrite ?Hgiven;
    (split; [done|]); (split; [lia|]); rewrite Hr; ring.
Qed.

Lemma floor_episode_sum : ∀ seqs self,
  (0 < _base (FloorRewardManager.super self))%Z →
  _distance_fn (FloorRewardManager.super self) = default_distance_fn →
  (0 ≤ FloorRewardManager._min_diff self)%Z →
  ∃ rs self',
    FloorRewardManager.episode self seqs = Ok (rs, self') ∧
    length rs = length seqs ∧
    (0 ≤ FloorRewardManager._min_diff self'
       ≤ FloorRewardManager._min_diff self)%Z ∧
    (Qsum rs == inject_Z (FloorRewardManager._min_diff self -
                          FloorRewardManager._min_diff self')
                / inject_Z (_base (FloorRewardManager.super self))
                + penalty self - penalty self')%Q.
Proof.
  induction seqs as [|seq seqs IH]; intros self Hb Hfn Hmin;
    cbn [FloorRewardManager.episode].
  { eexists _, _. split; [done|]. split; [done|]. split; [lia|].
    rewrite Z.sub_diag. cbn [Qsum foldr]. unfold Qdiv.
    rewrite Qmult_0_l. ring. }
  destruct (floor_call self seq Hb Hfn Hmin)
    as (r & self1 & -> & Hsuper & Hle & Hr).
  cbn [mbind outcome_bind obind].
  destruct (IH self1) as (rs & self' & -> & Hlen & Hle' & Hsum).
  { by rewrite Hsuper. }
  { by rewrite Hsuper. }
  { lia. }
  cbn [mbind outcome_bind obind]. eexists _, _. split; [done|].
  split; [cbn; by rewrite Hlen|]. split; [lia|].
  cbn [Qsum foldr]. fold (Qsum rs). rewrite Hr, Hsum, Hsuper.
  rewrite !inject_Z_sub. field. apply inject_Z_nonzero. lia.
Qed.

Lemma quot_bounds (x u l : Z) :
  (0 < u)%Z → (0 ≤ x)%Z → (x ≤ u * l)%Z →
  (0 <= inject_Z x / inject_Z u)%Q ∧
  (inject_Z x / inject_Z u <= inject_Z l)%Q.
Proof.
  intros Hu Hx Hx'. destruct u as [|u|u]; try lia.
  unfold Qle, Qdiv, Qmult, Qinv, inject_Z. cbn [Qnum Qden].
  rewrite !Z.mul_1_r, ?Pos.mul_1_l. split; nia.
Qed.

(** [FloorRewardManager] in a positive base with the default distance: the
    rewards of an episode add up to at most [len(target)] and to at least
    -1, and to at least 0 unless the episode ends with the penalty for a
    too long sequence still charged.  (Floats are taken as exact
    rationals.) *)
Theorem floor_rewards_total (target : list Z) (base : Z)
    (seqs : list (list Z)) :
  (0 < base)%Z →
  ∃ rs self',
    FloorRewardManager.episode
      (FloorRewardManager.__init__ target base default_distance_fn) seqs
      = Ok (rs, self') ∧
    length rs = length seqs ∧
    (Qsum rs <= inject_Z (Z.of_nat (length target)))%Q ∧
    (-1 <= Qsum rs)%Q ∧
    (FloorRewardManager._too_long_penality_given self' = false →
     (0 <= Qsum rs)%Q).
Proof.
  intros Hb.
  assert (FloorRewardManager._min_diff
            (FloorRewardManager.__init__ target base default_distance_fn)
          = (base * Z.of_nat (length target))%Z) as Hmax.
  { cbn. unfold default_distance_fn. rewrite absolute_distance_slots.
    rewrite slots_empty, decide_False by (cbn; lia). lia. }
  destruct (floor_episode_sum seqs
              (FloorRewardManager.__init__ target base default_distance_fn)
              Hb eq_refl ltac:(rewrite Hmax; nia))
    as (rs & self' & Hrun & Hlen & Hle & Hsum).
  exists rs, self'. do 2 (split; [done|]).
  rewrite Hmax in Hle, Hsum.
  destruct (quot_bounds
              (base * Z.of_nat (length target)
               - FloorRewardManager._min_diff self')
              base (Z.of_nat (length target)) Hb ltac:(lia) ltac:(lia))
    as [Hlo Hhi].
  revert Hlo Hhi Hsum. unfold penalty.
  cbn [FloorRewardManager.__init__ FloorRewardManager.super _base
       FloorRewardManager._too_long_penality_given].
  generalize (inject_Z (base * Z.of_nat (length target)
                        - FloorRewardManager._min_diff self')
              / inject_Z base)%Q.
  generalize (inject_Z (Z.of_nat (length target))). intros l q Hlo Hhi.
  destruct (FloorRewardManager._too_long_penality_given self');
    intros Hsum; rewrite Hsum;
    (split; [lra|]); (split; [lra|]); [done|]. intros _. lra.
Qed.

Lemma floor_rewards_total_witness :
  ∃ rs self',
    FloorRewardManager.episode
      (FloorRewardManager.__init__ [1; 2]%Z 10 default_distance_fn)
      [[5]; [1; 2; 3]; [1; 2]]%Z
      = Ok (rs, self') ∧
    length rs = length [[5]; [1; 2; 3]; [1; 2]]%Z ∧
    (Qsum rs <= inject_Z (Z.of_nat (length [1; 2]%Z)))%Q ∧
    (-1 <= Qsum rs)%Q ∧
    (FloorRewardManager._too_long_penality_given self' = false →
     (0 <= Qsum rs)%Q).
Proof.
  apply (floor_rewards_total [1; 2]%Z 10 [[5]; [1; 2; 3]; [1; 2]]%Z). lia.
Defined.

End reward_facts.

(** * code_tasks.py: scores *)

Module code_tasks_more.
Import code_tasks.

Lemma py_max_spec a b :
  (a <= py_max a b)%Q ∧ (b <= py_max a b)%Q ∧
  (py_max a b = a ∨ py_max a b = b).
Proof.
  unfold py_max. destruct (Qle_bool b a) eqn:E.
  - apply Qle_bool_iff in E. split; [apply Qle_refl|]. split; [done | by left].
  - assert (¬ (b <= a)%Q) as Hn by (rewrite <- Qle_bool_iff; congruence).
    apply Qnot_le_lt, Qlt_le_weak in Hn.
    split; [done|]. split; [apply Qle_refl | by right].
Qed.

Lemma py_min_spec a b :
  (py_min a b <= a)%Q ∧ (py_min a b <= b)%Q ∧
  (py_min a b = a ∨ py_min a b = b).
Proof.
  unfold py_min. destruct (Qle_bool a b) eqn:E.
  - apply Qle_bool_iff in E. split; [apply Qle_refl|]. split; [done | by left].
  - assert (¬ (a <= b)%Q) as Hn by (rewrite <- Qle_bool_iff; congruence).
    apply Qnot_le_lt, Qlt_le_weak in Hn.
    split; [done|]. split; [apply Qle_refl | by right].
Qed.

Lemma clipped_linear_bounds (x x0 y0 slope min_y max_y : Q) :
  (min_y <= max_y)%Q →
  let y := clipped_linear x x0 y0 slope (min_y, max_y) in
  (min_y <= y)%Q ∧ (y <= max_y)%Q ∧
  ((min_y <= slope * (x - x0) + y0)%Q →
   (slope * (x - x0) + y0 <= max_y)%Q →
   (y == slope * (x - x0) + y0)%Q).
Proof.
  intros Hr. cbn. set (line := (slope * (x - x0) + y0)%Q).
  destruct (py_max_spec line min_y) as (Ha & Hb & Hc).
  destruct (py_min_spec (py_max line min_y) max_y) as (Hd & He & Hf).
  split; [|split; [done|]].
  - destruct Hf as [Hf | Hf]; rewrite Hf; done.
  - intros Hlo Hhi.
    assert (py_max line min_y == line)%Q as Hmax.
    { destruct Hc as [Hc | Hc]; rewrite Hc; [reflexivity|].
      rewrite Hc in Ha. by apply Qle_antisym. }
    destruct Hf as [Hf | Hf]; rewrite Hf; [done|].
    rewrite Hf in Hd. rewrite Hmax in Hd. by apply Qle_antisym.
Qed.

(** [clipped_linear] stays in its range, and is the line itself where the
    line is in the range. *)
Theorem clipped_linear_range (x x0 y0 slope min_y max_y : Q) :
  (min_y <= max_y)%Q →
  let y := clipped_linear x x0 y0 slope (min_y, max_y) in
  (min_y <= y)%Q ∧ (y <= max_y)%Q ∧
  ((min_y <= slope * (x - x0) + y0)%Q →
   (slope * (x - x0) + y0 <= max_y)%Q →
   (y == slope * (x - x0) + y0)%Q).
Proof. apply clipped_linear_bounds. Qed.

Lemma clipped_linear_range_witness :
  let y := clipped_linear 40 0 1 (- (1 # 32)) (0, 1)%Q in
  (0 <= y)%Q ∧ (y <= 1)%Q ∧
  ((0 <= - (1 # 32) * (40 - 0) + 1)%Q →
   (- (1 # 32) * (40 - 0) + 1 <= 1)%Q →
   (y == - (1 # 32) * (40 - 0) + 1)%Q).
Proof. apply (clipped_linear_range 40 0 1 (- (1 # 32)) 0 1). done. Defined.

(** ** The reason of a score *)

Lemma status_not_correct s : bf.Status_str s ≠ "correct"%string.
Proof. by destruct s. Qed.

Section Scores.

Variable self : MultiIOTaskManager.
Variable code : list ascii.
Variable clocks : nat → nat → Q.

(** The run on test case [k] succeeds with the expected output. *)
Definition passes (k : nat) (input_seq output_seq : list Z) : Prop :=
  ∃ r, run_case self code clocks k input_seq = Ok r ∧
       bf.success r = true ∧ bf.output r = output_seq.

Lemma score_loop_reason : ∀ io_seqs k0 tr res reason tr' res' reason',
  score_loop self code clocks k0 io_seqs (tr, res, reason)
    = Ok (tr', res', reason') →
  (reason' = "correct"%string ↔
   reason = "correct"%string ∧
   ∀ k i o, io_seqs !! k = Some (i, o) → passes (k0 + k) i o) ∧
  (reason' = "correct"%string → res' = res ++ io_seqs.*2).
Proof.
  induction io_seqs as [|[i0 o0] rest IH];
    intros k0 tr res reason tr' res' reason' Hloop; cbn [score_loop] in Hloop.
  { injection Hloop as <- <- <-. split.
    - split; [intros ->; split; [done|]; by intros k i o ?|by intros [-> _]].
    - intros _. cbn. by rewrite app_nil_r. }
  bind_inv Hloop. rename a into r0.
  assert (∀ P : Prop, (∀ k i o, ((i0, o0) :: rest) !! k = Some (i, o) →
                                passes (k0 + k) i o) → 
          (passes k0 i0 o0 → P) → P) as Hhead.
  { intros P Hall HP. apply HP. rewrite <- (Nat.add_0_r k0).
    by apply (Hall 0). }
  destruct (bf.success r0) eqn:Hs; cbn [negb] in Hloop.
  2: { injection Hloop as <- <- <-. split.
       - split; [by intros ?%status_not_correct|]. intros [_ Hall].
         apply (Hhead _ Hall). intros (r & Hr & Hsr & _). congruence.
       - by intros ?%status_not_correct. }
  bind_inv Hloop. rename a into q.
  destruct (decide (bf.output r0 = o0)) as [Hout|Hout];
    apply IH in Hloop as [Hiff Hres].
  - split.
    + rewrite Hiff. split; intros [-> Hall]; (split; [done|]).
      * intros [|k] i o Hk.
        { injection Hk as <- <-. rewrite Nat.add_0_r. by exists r0. }
        replace (k0 + S k) with (S k0 + k) by lia. by apply Hall.
      * intros k i o Hk. replace (S k0 + k) with (k0 + S k) by lia.
        by apply Hall.
    + intros Hc. rewrite (Hres Hc), <- app_assoc. cbn. by rewrite Hout.
  - assert (reason' ≠ "correct"%string) as Hne.
    { intros Hc. apply Hiff in Hc as [Hc _]. by case_decide. }
    split; [|done]. split; [done|]. intros [_ Hall].
    apply (Hhead _ Hall). intros (r & Hr & _ & Hro). congruence.
Qed.

(** [_score_code] gives the reason ["correct"] exactly when the run on every
    test case succeeds with the expected output, and then the outputs it
    reports are the expected ones. *)
Theorem score_code_correct_iff (info : RewardInfo) :
  _score_code self code clocks = Ok info →
  (reason info = "correct"%string ↔
   ∀ k i o, make_io_set (task self) !! k = Some (i, o) → passes k i o) ∧
  (reason info = "correct"%string → code_output info = correct_output info).
Proof.
  unfold _score_code, score_on. intros Hscore. bind_inv Hscore.
  destruct a as [[tr res] rsn]. bind_inv Hscore. injection Hscore as <-.
  cbn [reason code_output correct_output].
  apply score_loop_reason in H as [Hiff Hres]. split; [|done].
  rewrite Hiff. split; [by intros [_ ?] | by intros ?].
Qed.

End Scores.

Lemma score_code_correct_iff_witness :
  ∃ self info,
    __init__ code_tasks_facts.print_task None None None None None None None
      None = Ok self ∧
    _score_code self (bf.program "+.+.+.") (fun _ _ => 0%Q) = Ok info ∧
    (reason info = "correct"%string ↔
     ∀ k i o, make_io_set (task self) !! k = Some (i, o) →
              passes self (bf.program "+.+.+.") (fun _ _ => 0%Q) k i o) ∧
    (reason info = "correct"%string →
     code_output info = correct_output info).
Proof.
  eexists _, _. split; [reflexivity|].
  assert (∀ x y : outcome RewardInfo, x = y → y = x) as Hsym by done.
  split; [apply Hsym; vm_compute; reflexivity|].
  apply (score_code_correct_iff _ (bf.program "+.+.+.") (fun _ _ => 0%Q)).
  vm_compute. reflexivity.
Defined.

(** ** The best reward bounds every score *)

Lemma compute_best_reward_default base cb clb :
  (0 < base)%Z → ∀ io_seqs acc,
  ∃ best,
    _compute_best_reward reward.absolute_distance_reward base cb clb
      io_seqs acc = Ok best ∧
    (best == acc + inject_Z (Z.of_nat (length io_seqs)) * (1 + cb + clb))%Q.
Proof.
  intros Hb. induction io_seqs as [|[i o] rest IH]; intros acc;
    cbn [_compute_best_reward].
  { eexists. split; [done|]. cbn. ring. }
  destruct (reward_facts.reward_range o o base Hb) as (r & -> & _ & Hr & _).
  cbn [mbind outcome_bind obind].
  destruct (IH (acc + r + cb + clb)%Q) as (best & -> & Hbest).
  exists best. split; [done|]. rewrite Hbest.
  assert (r == 1)%Q as -> by by apply Hr.
  cbn [length]. rewrite Nat2Z.inj_succ. unfold Z.succ.
  rewrite inject_Z_plus. ring.
Qed.

(** With the default reward function and a positive base the constructor
    returns, and [best_reward] is the number of test cases times
    [1 + correct_bonus + code_length_bonus]. *)
Theorem init_best_reward (task : BaseTask)
    (max_code_length min_code_length : option Q)
    (max_execution_steps : option Z)
    (correct_bonus code_length_bonus failure_reward : option Q)
    (require_correct_syntax : option bool) :
  (0 < task_base task)%Z →
  ∃ self,
    __init__ task max_code_length min_code_length max_execution_steps
      correct_bonus code_length_bonus failure_reward None
      require_correct_syntax = Ok self ∧
    (best_reward self ==
     inject_Z (Z.of_nat (length (make_io_set task)))
     * (1 + code_tasks.correct_bonus self
          + code_tasks.code_length_bonus self))%Q ∧
    (good_reward self == 0.75 * best_reward self)%Q.
Proof.
  intros Hb. unfold __init__. cbv zeta.
  change (default reward.absolute_distance_reward None)
    with reward.absolute_distance_reward.
  destruct (compute_best_reward_default (task_base task)
              (default 1%Q correct_bonus) (default 1%Q code_length_bonus)
              Hb (make_io_set task) 0%Q) as (best & -> & Heq).
  cbn [mbind outcome_bind obind].
  eexists. split; [done|].
  cbn [best_reward good_reward code_tasks.correct_bonus
       code_tasks.code_length_bonus].
  split; [|reflexivity]. rewrite Heq. ring.
Qed.

Lemma init_best_reward_witness :
  ∃ self,
    __init__ code_tasks_facts.print_task None None None None None None None
      None = Ok self ∧
    (best_reward self ==
     inject_Z (Z.of_nat (length (make_io_set code_tasks_facts.print_task)))
     * (1 + code_tasks.correct_bonus self
          + code_tasks.code_length_bonus self))%Q ∧
    (good_reward self == 0.75 * best_reward self)%Q.
Proof.
  apply (init_best_reward code_tasks_facts.print_task None None None None
           None None None). 
  reflexivity.
Defined.

Section Bound.

Variable self : MultiIOTaskManager.
Variable code : list ascii.
Variable clocks : nat → nat → Q.

Hypothesis default_fn : reward_fn self = reward.absolute_distance_reward.
Hypothesis base_pos : (0 < task_base (task self))%Z.
Hypothesis correct_bonus_nonneg : (0 <= correct_bonus self)%Q.
Hypothesis length_bonus_nonneg : (0 <= code_length_bonus self)%Q.

Lemma length_bonus_le :
  (length_bonus self code <= code_length_bonus self)%Q ∧
  ((min_code_length self == max_code_length self)%Q →
   (length_bonus self code == code_length_bonus self)%Q).
Proof.
  unfold length_bonus. destruct (Qeq_bool _ _) eqn:E.
  { split; [apply Qle_refl | reflexivity]. }
  split.
  - destruct (clipped_linear_bounds
                (inject_Z (Z.of_nat (length code))) (min_code_length self)
                1 (- time_penalty self) 0 1 ltac:(done)) as (Hlo & Hhi & _).
    revert Hlo Hhi. generalize (clipped_linear
      (inject_Z (Z.of_nat (length code))) (min_code_length self)
      1 (- time_penalty self) (0, 1)%Q).
    intros c Hlo Hhi. nra.
  - intros Heq. apply Qeq_bool_neq in E. done.
Qed.

(** The score one test case can add. *)
Definition unit_reward : Q :=
  (1 + correct_bonus self + code_length_bonus self)%Q.

Lemma score_loop_bound : ∀ io_seqs k0 tr res reason,
  ∃ tr' res' reason',
    score_loop self code clocks k0 io_seqs (tr, res, reason)
      = Ok (tr', res', reason') ∧
    (tr' = failure_reward self ∨
     (tr' <= tr + inject_Z (Z.of_nat (length io_seqs)) * unit_reward)%Q) ∧
    (reason' = "correct"%string →
     (min_code_length self == max_code_length self)%Q →
     (tr' == tr + inject_Z (Z.of_nat (length io_seqs)) * unit_reward)%Q).
Proof.
  induction io_seqs as [|[i0 o0] rest IH]; intros k0 tr res reason;
    cbn [score_loop].
  { eexists _, _, _. split; [done|]. cbn [length].
    change (inject_Z (Z.of_nat 0)) with 0%Q. rewrite Qmult_0_l.
    split; [right; lra | intros; ring]. }
  destruct (code_tasks_facts.run_case_total self code clocks k0 i0)
    as [r0 ->].
  cbn [mbind outcome_bind obind]. destruct (bf.success r0); cbn [negb].
  2: { eexists _, _, _. split; [done|]. split; [by left|].
       by intros ?%status_not_correct. }
  rewrite default_fn.
  destruct (reward_facts.reward_range (bf.output r0) o0
              (task_base (task self)) base_pos) as (q & -> & Hq1 & Hqeq & _).
  cbn [mbind outcome_bind obind].
  destruct length_bonus_le as [Hlb Hlbeq].
  assert (inject_Z (Z.of_nat (length ((i0, o0) :: rest))) * unit_reward
          == inject_Z (Z.of_nat (length rest)) * unit_reward + unit_reward)%Q
    as Hsucc.
  { cbn [length]. rewrite Nat2Z.inj_succ. unfold Z.succ.
    rewrite inject_Z_plus. ring. }
  assert (0 <= inject_Z (Z.of_nat (length rest)))%Q as Hn.
  { unfold Qle, inject_Z. cbn. lia. }
  revert Hsucc. unfold unit_reward in *.
  generalize (inject_Z (Z.of_nat (length ((i0, o0) :: rest)))
              * (1 + correct_bonus self + code_length_bonus self))%Q.
  intros total Hsucc.
  destruct (decide (bf.output r0 = o0)) as [Hout|Hout].
  - destruct (IH (S k0) (tr + q + correct_bonus self
                         + length_bonus self code)%Q
                (res ++ [bf.output r0]) reason)
      as (tr' & res' & reason' & -> & Hle & Heq).
    eexists _, _, _. split; [done|]. split.
    + destruct Hle as [?|Hle]; [by left | right]. lra.
    + intros Hc Hmm. rewrite (Heq Hc Hmm), (Hlbeq Hmm), Hsucc.
      assert (q == 1)%Q as -> by by apply Hqeq. ring.
  - destruct (IH (S k0) (tr + q)%Q (res ++ [bf.output r0])
                (if decide (reason = "correct"%string)
                 then "wrong"%string else reason))
      as (tr' & res' & reason' & Hloop & Hle & Heq).
    rewrite Hloop. eexists _, _, _. split; [done|]. split.
    + destruct Hle as [?|Hle]; [by left | right]. lra.
    + intros Hc. apply score_loop_reason in Hloop as [Hiff _].
      apply Hiff in Hc as [Hc _]. by case_decide.
Qed.

End Bound.

(** [best_reward] is the best score: for a manager built with the default
    reward function on a task with a positive base and at least one test
    case, with bonuses that are not negative and a failure reward that is
    not positive, [_score_code] returns and the last episode reward is at
    most 1; it is 1 for a program judged correct when [min_code_length]
    equals [max_code_length]. *)
Theorem score_at_most_one (task : BaseTask)
    (max_code_length min_code_length : option Q)
    (max_execution_steps : option Z)
    (correct_bonus code_length_bonus failure_reward : option Q)
    (require_correct_syntax : option bool)
    (self : MultiIOTaskManager) (code : list ascii) (clocks : nat → nat → Q) :
  __init__ task max_code_length min_code_length max_execution_steps
    correct_bonus code_length_bonus failure_reward None
    require_correct_syntax = Ok self →
  (0 < task_base task)%Z →
  make_io_set task ≠ [] →
  (0 <= code_tasks.correct_bonus self)%Q →
  (0 <= code_tasks.code_length_bonus self)%Q →
  (code_tasks.failure_reward self <= 0)%Q →
  ∃ info r,
    _score_code self code clocks = Ok info ∧
    last (episode_rewards info) = Some r ∧ (r <= 1)%Q ∧
    (reason info = "correct"%string →
     (code_tasks.min_code_length self == code_tasks.max_code_length self)%Q →
     (r == 1)%Q).
Proof.
  intros Hinit Hb Hio Hcb Hclb Hfr.
  assert (reward_fn self = reward.absolute_distance_reward ∧
          code_tasks.task self = task ∧
          (best_reward self ==
           inject_Z (Z.of_nat (length (make_io_set task)))
           * unit_reward self)%Q) as (Hfn & Htask & Hbest).
  { revert Hinit. unfold __init__. cbv zeta.
    change (default reward.absolute_distance_reward None)
      with reward.absolute_distance_reward.
    destruct (compute_best_reward_default (task_base task)
                (default 1%Q correct_bonus) (default 1%Q code_length_bonus)
                Hb (make_io_set task) 0%Q) as (best & -> & Heq).
    cbn [mbind outcome_bind obind]. intros [= <-].
    unfold unit_reward.
    cbn [reward_fn code_tasks.task best_reward code_tasks.correct_bonus
         code_tasks.code_length_bonus].
    do 2 (split; [done|]). rewrite Heq. ring. }
  rewrite <- Htask in Hb, Hio, Hbest.
  destruct (score_loop_bound self code clocks Hfn Hb Hcb Hclb
              (make_io_set (code_tasks.task self)) 0 0%Q [] "correct"%string)
    as (tr' & res' & reason' & Hloop & Hle & Heq).
  assert (1 <= best_reward self)%Q as Hpos.
  { rewrite Hbest.
    assert (1 <= inject_Z (Z.of_nat
                             (length (make_io_set (code_tasks.task self)))))%Q.
    { destruct (make_io_set (code_tasks.task self)); [done|].
      unfold Qle, inject_Z. cbn [length Qnum Qden]. lia. }
    unfold unit_reward. nra. }
  unfold _score_code, score_on. rewrite Hloop.
  cbn [mbind outcome_bind obind].
  destruct (Qeq_bool (best_reward self) 0) eqn:E.
  { apply Qeq_bool_eq in E. lra. }
  cbn [mbind outcome_bind obind]. eexists _, _. split; [done|].
  cbn [episode_rewards reason]. split; [by rewrite last_snoc|]. split.
  - apply Qle_shift_div_r; [lra|].
    destruct Hle as [->|Hle]; [lra|]. rewrite Hbest. lra.
  - intros Hc Hmm. rewrite (Heq Hc Hmm), <- Hbest.
    field. lra.
Qed.

Lemma score_at_most_one_witness :
  ∃ self info r,
    __init__ code_tasks_facts.print_task None None None None None None None
      None = Ok self ∧
    _score_code self (bf.program "+.+.+.") (fun _ _ => 0%Q) = Ok info ∧
    last (episode_rewards info) = Some r ∧ (r <= 1)%Q ∧
    (reason info = "correct"%string →
     (code_tasks.min_code_length self == code_tasks.max_code_length self)%Q →
     (r == 1)%Q).
Proof.
  eexists. 
  destruct (score_at_most_one code_tasks_facts.print_task None None None
              None None None None _ (bf.program "+.+.+.") (fun _ _ => 0%Q)
              eq_refl) as (info & r & H);
    [done | done | done | done | done |].
  exists info, r. split; [reflexivity | exact H].
Defined.

End code_tasks_more.

(** * utils.py: more about MaxUniquePriorityQueue *)

Module heapq_more.
Import heapq heapq_facts.

Section Order.

Context {A : Type}.
Variable lt : A → A → bool.
Hypothesis lt_asym : ∀ x y, lt x y = true → le lt x y.
Hypothesis le_trans : ∀ x y z, le lt x y → le lt y z → le lt x z.

Lemma heap_ok_prefix (h : list A) (x : A) :
  heap_ok lt (h ++ [x]) → heap_ok lt h.
Proof.
  intros Hok i Hi a b Ha Hb. apply (Hok i Hi a b).
  - apply lookup_app_l_Some, Ha.
  - apply lookup_app_l_Some, Hb.
Qed.

(** [heappop] removes the root, which no item of the heap is below, and
    leaves a heap of the other items. *)
Lemma heappop_ok (h : list A) :
  heap_ok lt h → h ≠ [] →
  ∃ x h', heappop lt h = Ok (x, h') ∧ h !! 0 = Some x ∧
          heap_ok lt h' ∧ h ≡ₚ x :: h' ∧ ∀ y, y ∈ h → le lt x y.
Proof.
  intros Hok Hne. unfold heappop.
  destruct (last h) as [lastelt|] eqn:Hlast; [|by apply last_None in Hlast].
  apply last_Some in Hlast as [init ->].
  rewrite length_app, Nat.add_sub, take_app_length.
  destruct init as [|r rest].
  { eexists _, _. split; [done|]. split; [done|].
    split; [apply heap_ok_nil|]. split; [done|].
    intros y ->%list_elem_of_singleton. by apply le_refl. }
  pose proof (heap_ok_prefix _ _ Hok) as Hok'.
  destruct (siftup_ok lt lt_asym le_trans (<[0:=lastelt]> (r :: rest)))
    as [Hheap Hperm].
  - cbn. lia.
  - intros i Hi Hne0 Hne1. apply heap_le_insert_ne; [done..|]. by apply Hok'.
  - eexists _, _. split; [done|]. split; [done|]. split; [done|]. split.
    + rewrite Hperm. cbn. apply perm_skip. symmetry.
      apply Permutation_cons_append.
    + by apply (heap_ok_root lt lt_asym le_trans).
Qed.

(** [max] returns an item that no item is above: the first such one. *)
Lemma py_max_ok : ∀ (rest : list A) (first : A),
  py_max lt first rest ∈ first :: rest ∧
  ∀ y, y ∈ first :: rest → le lt y (py_max lt first rest).
Proof.
  unfold py_max. induction rest as [|x rest IH]; intros first; cbn [foldl].
  { split; [by left|]. intros y ->%list_elem_of_singleton.
    by apply le_refl. }
  destruct (lt first x) eqn:E.
  - destruct (IH x) as [Hin Hmax]. split; [by right|].
    intros y [->|Hy]%elem_of_cons; [|by apply Hmax].
    apply (le_trans _ x); [by apply lt_asym | apply Hmax; by left].
  - destruct (IH first) as [Hin Hmax]. split.
    + apply elem_of_cons in Hin as [->|Hin]; [by left | by do 2 right].
    + intros y [->|[->|Hy]%elem_of_cons]%elem_of_cons.
      * apply Hmax. by left.
      * apply (le_trans _ first); [done | apply Hmax; by left].
      * apply Hmax. by right.
Qed.

(** [min] of a list whose first item is not above any other is that first
    item. *)
Lemma py_min_first : ∀ (rest : list A) (first : A),
  (∀ y, y ∈ rest → le lt first y) → py_min lt first rest = first.
Proof.
  unfold py_min. induction rest as [|x rest IH]; intros first Hmin;
    cbn [foldl]; [done|].
  rewrite (Hmin x ltac:(by left)). apply IH. intros y Hy. apply Hmin.
  by right.
Qed.

End Order.

End heapq_more.

Module mpq_more.
Import utils heapq_facts heapq_more mpq_facts.

Section Queue.

Context {Item : Type} `{Countable Item} {Extra : Type}.

Abbreviation container := (MPQItemContainer Item Extra).
Abbreviation queue := (MaxUniquePriorityQueue Item Extra).

(** What every queue built by the methods satisfies, whatever was pushed. *)
Record queue_wf (q : queue) : Prop := QueueWf {
  wf_heap : heap_ok container_lt (heap q);
  wf_items : unique_items q = list_to_set (item <$> heap q);
  wf_nodup : NoDup (item <$> heap q);
  wf_size : length (heap q) ≤ capacity q
}.

Lemma queue_wf_init cap : queue_wf (mpq_init cap : queue).
Proof. split; cbn; [apply heap_ok_nil | done | constructor | lia]. Qed.

Lemma push_wf (q : queue) (c : container) :
  queue_wf q →
  ∃ q', push (score c) (item c) (extra_data c) q = Ok q' ∧
        queue_wf q' ∧ capacity q' = capacity q ∧
        (∀ x, x ∈ heap q' → x ∈ heap q ∨ x = c).
Proof.
  intros [Hheap Hitems Hnd Hsize]. unfold push. rewrite container_eta.
  destruct (decide (item c ∈ unique_items q)) as [Hin|Hout].
  { exists q. split; [done|]. split; [done|]. split; [done|]. by left. }
  assert (item c ∉ item <$> heap q) as Hc.
  { by rewrite Hitems, elem_of_list_to_set in Hout. }
  destruct (decide (capacity q ≤ length (heap q))) as [Hge|Hlt].
  - destruct (heapq.heappushpop container_lt (heap q) c)
      as [popped heap'] eqn:Hpp.
    apply (heappushpop_ok container_lt container_lt_asym container_le_trans)
      in Hpp as (Hheap' & Hperm & _ & _); [|done].
    destruct popped as [ps pi pe] eqn:Hpopped. rewrite <- Hpopped in *.
    assert (pi = item popped) as -> by by rewrite Hpopped.
    assert (NoDup (item popped :: (item <$> heap'))) as Hnd'.
    { change (NoDup (item <$> popped :: heap')). rewrite Hperm.
      cbn. by apply NoDup_cons. }
    apply NoDup_cons in Hnd' as [Hpopped_out Hnd'].
    assert (∀ i, i ∈ item popped :: (item <$> heap')
                 ↔ i ∈ item c :: (item <$> heap q)) as Hsame.
    { intros i. change (i ∈ item <$> popped :: heap'
                        ↔ i ∈ item <$> c :: heap q). by rewrite Hperm. }
    unfold set_remove. rewrite decide_True.
    2:{ rewrite Hitems. apply elem_of_union.
        rewrite elem_of_singleton, elem_of_list_to_set.
        apply elem_of_cons, Hsame. by left. }
    rewrite bind_Ok. eexists. split; [done|].
    assert (length heap' = length (heap q)) as Hlen.
    { apply Permutation_length in Hperm. cbn in Hperm. lia. }
    split; [split; cbn; [done | | done | lia]|split; [done|]].
    + rewrite Hitems. apply set_eq. intros i.
      rewrite elem_of_difference, elem_of_union, !elem_of_singleton,
        !elem_of_list_to_set.
      specialize (Hsame i). rewrite !elem_of_cons in Hsame. split.
      * intros [Hi Hne]. destruct (proj2 Hsame Hi) as [?|?]; done.
      * intros Hi. split; [apply Hsame; by right | by intros ->].
    + cbn. intros x Hx.
      assert (x ∈ c :: heap q) as Hx' by (rewrite <- Hperm; by right).
      apply elem_of_cons in Hx' as [->|Hx']; [by right | by left].
  - destruct (heappush_ok container_lt container_lt_asym container_le_trans
                (heap q) c Hheap) as [Hheap' Hperm].
    eexists. split; [done|].
    split; [split; cbn; [done | | |]|split; [done|]].
    + rewrite Hitems. apply set_eq. intros i.
      rewrite elem_of_union, elem_of_singleton, !elem_of_list_to_set.
      rewrite Hperm. cbn. by rewrite elem_of_cons.
    + rewrite Hperm. cbn. by apply NoDup_cons.
    + apply Permutation_length in Hperm. cbn in Hperm. lia.
    + cbn. intros x Hx. rewrite Hperm in Hx.
      apply elem_of_cons in Hx as [->|Hx]; [by right | by left].
Qed.

Lemma push_all_wf_from : ∀ (calls : list container) (q : queue),
  queue_wf q →
  ∃ q', push_all calls q = Ok q' ∧ queue_wf q' ∧ capacity q' = capacity q ∧
        (∀ x, x ∈ heap q' → x ∈ heap q ∨ x ∈ calls).
Proof.
  induction calls as [|c calls IH]; intros q Hwf; cbn [push_all].
  { exists q. split; [done|]. split; [done|]. split; [done|]. by left. }
  destruct (push_wf q c Hwf) as (q1 & -> & Hwf1 & Hcap1 & Hin1).
  rewrite bind_Ok.
  destruct (IH q1 Hwf1) as (q' & -> & Hwf' & Hcap' & Hin').
  exists q'. split; [done|]. split; [done|]. split; [congruence|].
  intros x Hx. destruct (Hin' x Hx) as [Hx1|Hx1]; [|by do 2 right].
  destruct (Hin1 x Hx1) as [?| ->]; [by left | right; by left].
Qed.

(** Any sequence of pushes, with items and scores repeated at will, goes
    through without an error and leaves a queue within its capacity whose
    heap holds containers that were pushed, no item twice, and whose set is
    the set of the items in the heap. *)
Theorem push_all_wf (cap : nat) (calls : list container) :
  ∃ q : queue,
    push_all calls (mpq_init cap) = Ok q ∧
    capacity q = cap ∧ length (heap q) ≤ cap ∧
    heap_ok container_lt (heap q) ∧
    NoDup (item <$> heap q) ∧
    unique_items q = list_to_set (item <$> heap q) ∧
    (∀ x, x ∈ heap q → x ∈ calls).
Proof.
  destruct (push_all_wf_from calls (mpq_init cap) (queue_wf_init cap))
    as (q & Hq & [Hheap Hitems Hnd Hsize] & Hcap & Hin).
  exists q. cbn in Hcap. rewrite Hcap in Hsize. repeat (split; [done|]).
  intros x Hx. destruct (Hin x Hx) as [Hx'|]; [|done].
  by apply elem_of_nil in Hx'.
Qed.

(** [pop] on a queue that is not empty returns the container at the root
    of the heap, which is also what [get_min] shows; no container of the
    queue scores below it, and the queue left holds the other containers. *)
Theorem pop_min (q : queue) :
  queue_wf q → heap q ≠ [] →
  ∃ (c : container) (q' : queue),
    pop q = Ok (Some (unpack c), q') ∧
    get_min q = Ok (Some (unpack c)) ∧
    queue_wf q' ∧ capacity q' = capacity q ∧
    heap q ≡ₚ c :: heap q' ∧
    (∀ x, x ∈ heap q → (score c <= score x)%Q) ∧
    unique_items q' = unique_items q ∖ {[item c]}.
Proof.
  intros [Hheap Hitems Hnd Hsize] Hne.
  destruct (heappop_ok container_lt container_lt_asym container_le_trans
              (heap q) Hheap Hne) as (c & h' & Hpop & Hroot & Hheap' & Hperm
                                        & Hmin).
  exists c, (MkQueue (capacity q) h' (unique_items q ∖ {[item c]})).
  assert (NoDup (item c :: (item <$> h'))) as Hnd'.
  { change (NoDup (item <$> c :: h')). by rewrite <- Hperm. }
  apply NoDup_cons in Hnd' as [Hc Hnd'].
  assert (item c ∈ unique_items q) as Hin.
  { rewrite Hitems, elem_of_list_to_set, Hperm. cbn. by left. }
  split; [|split].
  - unfold pop. destruct (heap q) as [|c0 rest] eqn:Hh; [done|].
    rewrite Hpop, bind_Ok. unfold set_remove. by rewrite decide_True.
  - unfold get_min. destruct (heap q) as [|c0 rest] eqn:Hh; [done|].
    injection Hroot as ->. cbn [heapq.nsmallest_1].
    rewrite py_min_first; [done|].
    intros y Hy. apply Hmin. by right.
  - split; [split; cbn; [done | | done |]|].
    + rewrite Hitems. apply set_eq. intros i.
      rewrite elem_of_difference, elem_of_singleton, !elem_of_list_to_set.
      rewrite Hperm. cbn. rewrite elem_of_cons. split.
      * intros [[->|?] ?]; done.
      * intros Hi. split; [by right | by intros ->].
    + apply Permutation_length in Hperm. cbn in Hperm. lia.
    + split; [done|]. split; [done|]. split; [|done].
      intros x Hx. apply container_le_iff. by apply Hmin.
Qed.

(** [get_max] on a queue that is not empty shows a container of the queue
    that no container of the queue scores above. *)
Theorem get_max_top (q : queue) :
  heap q ≠ [] →
  ∃ c : container,
    get_max q = Ok (Some (unpack c)) ∧ c ∈ heap q ∧
    ∀ x, x ∈ heap q → (score x <= score c)%Q.
Proof.
  intros Hne. unfold get_max. destruct (heap q) as [|c0 rest]; [done|].
  destruct (py_max_ok container_lt container_lt_asym container_le_trans
              rest c0) as [Hin Hmax].
  eexists. split; [done|]. split; [done|].
  intros x Hx. apply container_le_iff. by apply Hmax.
Qed.

End Queue.

Definition sample_queue : MaxUniquePriorityQueue string nat :=
  MkQueue 2 [Container 3%Q ",[.,]" None; Container 5%Q ",." (Some 7)]
    {[ ",[.,]"; ",." ]}.

Lemma sample_queue_wf : queue_wf sample_queue.
Proof.
  split; cbn.
  - intros i Hi x y Hx Hy. destruct i as [|[|i]]; [lia | | done].
    cbn in Hx, Hy. injection Hx as <-. injection Hy as <-. reflexivity.
  - set_solver.
  - repeat (apply NoDup_cons_2;
              [rewrite ?not_elem_of_cons, elem_of_nil;
               repeat split; [discriminate..|tauto]|]).
    apply NoDup_nil_2.
  - lia.
Qed.

Lemma pop_min_witness :
  ∃ (c : MPQItemContainer string nat) q',
    pop sample_queue = Ok (Some (unpack c), q') ∧
    get_min sample_queue = Ok (Some (unpack c)) ∧
    queue_wf q' ∧ capacity q' = capacity sample_queue ∧
    heap sample_queue ≡ₚ c :: heap q' ∧
    (∀ x, x ∈ heap sample_queue → (score c <= score x)%Q) ∧
    unique_items q' = unique_items sample_queue ∖ {[item c]}.
Proof. apply (pop_min sample_queue sample_queue_wf). done. Defined.

Lemma get_max_top_witness :
  ∃ c : MPQItemContainer string nat,
    get_max sample_queue = Ok (Some (unpack c)) ∧ c ∈ heap sample_queue ∧
    ∀ x, x ∈ heap sample_queue → (score x <= score c)%Q.
Proof. apply (get_max_top sample_queue). done. Defined.

End mpq_more.

(** * utils.py: more about RouletteWheel *)

Module roulette_more.
Import utils.

(** The partial sums of the weights [ws] on top of [acc]. *)
Fixpoint running (acc : Q) (ws : list Q) : list Q :=
  match ws with
  | [] => []
  | w :: ws => (acc + w)%Q :: running (acc + w) ws
  end.

Lemma running_length : ∀ ws acc, length (running acc ws) = length ws.
Proof. induction ws as [|w ws IH]; intros acc; cbn; [done|]. by rewrite IH. Qed.

Lemma running_snoc : ∀ ws acc w,
  running acc (ws ++ [w]) =
  running acc ws ++ [(default acc (last (running acc ws)) + w)%Q].
Proof.
  induction ws as [|a ws IH]; intros acc w; cbn [running app]; [done|].
  rewrite IH.
  replace (default acc (last ((acc + a)%Q :: running (acc + a) ws)))
    with (default (acc + a)%Q (last (running (acc + a) ws))); [done|].
  rewrite last_cons. by destruct (last (running (acc + a) ws)).
Qed.

Lemma running_lookup_0 ws acc s :
  running acc ws !! 0 = Some s → ∃ w, ws !! 0 = Some w ∧ s = (acc + w)%Q.
Proof. destruct ws as [|w ws]; [done|]. intros [= <-]. by exists w. Qed.

Lemma running_lookup_S : ∀ ws acc i s,
  running acc ws !! S i = Some s →
  ∃ p w, running acc ws !! i = Some p ∧ ws !! S i = Some w ∧
         s = (p + w)%Q.
Proof.
  induction ws as [|a ws IH]; intros acc i s; [done|]. cbn [running].
  destruct i as [|i].
  - cbn. intros (w & Hw & ->)%running_lookup_0. by exists (acc + a)%Q, w.
  - intros Hs. apply IH in Hs as (p & w & Hp & Hw & ->). by exists p, w.
Qed.

Lemma running_step ws acc i p s :
  Forall (fun w => 0 <= w)%Q ws →
  running acc ws !! i = Some p → running acc ws !! S i = Some s →
  (p <= s)%Q.
Proof.
  intros Hws Hp (p' & w & Hp' & Hw & ->)%running_lookup_S.
  assert (p' = p) as -> by congruence.
  rewrite Forall_lookup in Hws. specialize (Hws _ _ Hw). cbn in Hws. lra.
Qed.

Lemma running_sorted ws acc :
  Forall (fun w => 0 <= w)%Q ws →
  ∀ j i ai aj, i ≤ j → running acc ws !! i = Some ai →
               running acc ws !! j = Some aj → (ai <= aj)%Q.
Proof.
  intros Hws. induction j as [|j IH]; intros i ai aj Hij Hi Hj.
  { assert (i = 0) as -> by lia. assert (ai = aj) as -> by congruence.
    apply Qle_refl. }
  destruct (decide (i = S j)) as [->|Hne].
  { assert (ai = aj) as -> by congruence. apply Qle_refl. }
  destruct (lookup_lt_is_Some_2 (running acc ws) j) as [p Hp].
  { apply lookup_lt_Some in Hj. lia. }
  apply (Qle_trans _ p); [apply (IH i); [lia | done..]|].
  by eapply running_step.
Qed.

Lemma running_lower ws acc i s :
  Forall (fun w => 0 <= w)%Q ws →
  running acc ws !! i = Some s → (acc <= s)%Q.
Proof.
  intros Hws Hs.
  destruct (lookup_lt_is_Some_2 (running acc ws) 0) as [s0 Hs0].
  { apply lookup_lt_Some in Hs. lia. }
  apply (Qle_trans _ s0); [|by apply (running_sorted ws acc Hws i 0); [lia|..]].
  apply running_lookup_0 in Hs0 as (w & Hw & ->).
  rewrite Forall_lookup in Hws. specialize (Hws _ _ Hw). cbn in Hws. lra.
Qed.

Section Wheel.

Context {Obj : Type} {Key : Type} `{Countable Key}.

Abbreviation wheel := (RouletteWheel Obj Key).

(** What every wheel built by the methods satisfies. *)
Record wheel_wf (self : wheel) : Prop := WheelWf {
  wf_objects : length (objects self) = length (weights self);
  wf_sums : partial_sums self = running 0 (weights self);
  wf_nonneg : Forall (fun w => 0 <= w)%Q (weights self)
}.

Lemma add_wf obj weight key (self self' : wheel) added :
  add obj weight key self = Ok (added, self') →
  wheel_wf self →
  wheel_wf self' ∧
  length (objects self') =
    length (objects self) + (if added then 1 else 0) ∧
  (added = false → self' = self).
Proof.
  intros Hadd [Hlen Hsums Hnn]. unfold add in Hadd.
  destruct (Qle_bool 0 weight) eqn:Hw; cbn [negb] in Hadd; [|done].
  apply Qle_bool_iff in Hw.
  assert (wheel_wf self) as Hwf by done.
  assert (∀ k2w,
    wheel_wf (MkWheel (unique_mode self) (objects self ++ [obj])
                (weights self ++ [weight])
                (partial_sums self ++ [(total_weight self + weight)%Q])
                k2w (save_file self)
                (match save_file self with
                 | Some _ => save_to_disk_buffer self ++ [(obj, weight, key)]
                 | None => save_to_disk_buffer self
                 end))) as Happ.
  { intros k2w. split; cbn.
    - rewrite !length_app. cbn. lia.
    - rewrite running_snoc, <- Hsums. done.
    - apply Forall_app. split; [done|]. by apply Forall_singleton. }
  destruct (unique_mode self), key as [k|]; try done.
  - destruct (keys_to_weights self !! k); injection Hadd as <- <-.
    + split; [done|]. split; [lia | done].
    + split; [apply Happ|]. cbn. rewrite length_app. cbn. split; [lia|done].
  - injection Hadd as <- <-.
    split; [apply Happ|]. cbn. rewrite length_app. cbn. split; [lia|done].
Qed.

Lemma clear_buffer_wf (self : wheel) :
  wheel_wf self → wheel_wf (clear_buffer self).
Proof. by intros [? ? ?]. Qed.

Lemma load_entries_wf : ∀ records (self self' : wheel),
  load_entries records self = Ok self' → wheel_wf self → wheel_wf self'.
Proof.
  induction records as [|[[obj weight] key] rest IH]; intros self self' Hload Hwf;
    cbn [load_entries] in Hload.
  { by injection Hload as <-. }
  bind_inv Hload. destruct a as [added self1].
  apply (IH self1); [done|]. by eapply add_wf.
Qed.

Lemma wheel_init_wf mode file (fs : disk Obj Key) (self : wheel) :
  wheel_init mode file fs = Ok self → wheel_wf self.
Proof.
  assert (wheel_wf (MkWheel mode [] [] [] ∅ file [] : wheel)) as Hempty.
  { split; cbn; [done | done | constructor]. }
  unfold wheel_init. destruct file as [path|]; [|by intros [= <-]].
  destruct (fs !! path) as [records|]; [|by intros [= <-]].
  intros Hload. bind_inv Hload. injection Hload as <-.
  apply clear_buffer_wf. by eapply load_entries_wf.
Qed.

Lemma run_ops_wf : ∀ ops (self self' : wheel) (fs fs' : disk Obj Key),
  run_ops ops self fs = Ok (self', fs') → wheel_wf self → wheel_wf self'.
Proof.
  induction ops as [|[obj weight key|] rest IH]; intros self self' fs fs' Hrun Hwf;
    cbn [run_ops] in Hrun.
  - by injection Hrun as <- <-.
  - bind_inv Hrun. destruct a as [added self1].
    apply (IH self1 _ fs fs'); [done|]. by eapply add_wf.
  - bind_inv Hrun. destruct a as [self1 fs1].
    apply (IH self1 _ fs1 fs'); [done|].
    unfold incremental_save in H0. destruct (save_file self); [|done].
    injection H0 as <- <-. by apply clear_buffer_wf.
Qed.

(** Whatever file a wheel is loaded from and whatever is added and saved
    afterwards, the wheel holds one weight per object, no weight is
    negative, the partial sums are the running sums of the weights and so
    never decrease, and [total_weight] is not negative. *)
Theorem wheel_sums mode file (fs fs' : disk Obj Key) ops (self0 self : wheel) :
  wheel_init mode file fs = Ok self0 →
  run_ops ops self0 fs = Ok (self, fs') →
  length (objects self) = length (weights self) ∧
  length (partial_sums self) = length (weights self) ∧
  partial_sums self = running 0 (weights self) ∧
  Forall (fun w => 0 <= w)%Q (weights self) ∧
  (∀ i j si sj, i ≤ j → partial_sums self !! i = Some si →
                partial_sums self !! j = Some sj → (si <= sj)%Q) ∧
  (0 <= total_weight self)%Q.
Proof.
  intros Hinit Hrun.
  destruct (run_ops_wf _ _ _ _ _ Hrun (wheel_init_wf _ _ _ _ Hinit))
    as [Hlen Hsums Hnn].
  split; [done|]. split; [by rewrite Hsums, running_length|].
  split; [done|]. split; [done|]. split.
  - rewrite Hsums. intros i j si sj Hij Hi Hj.
    by apply (running_sorted _ 0 Hnn j i).
  - unfold total_weight. destruct (last (partial_sums self)) eqn:E; [|done].
    rewrite last_lookup, Hsums in E. by eapply running_lower.
Qed.

Lemma midpoint lo hi : lo < hi → lo ≤ (lo + hi) / 2 < hi.
Proof.
  intros Hlt. split.
  - apply Nat.div_le_lower_bound; lia.
  - apply Nat.Div0.div_lt_upper_bound; lia.
Qed.

(** [bisect_right] on a list that never decreases returns the position
    after the last item that is not above [x]. *)
Lemma bisect_loop_spec (a : list Q) (x : Q) :
  (∀ i j ai aj, i ≤ j → a !! i = Some ai → a !! j = Some aj →
                (ai <= aj)%Q) →
  ∀ fuel lo hi,
    hi - lo ≤ fuel → lo ≤ hi ≤ length a →
    (∀ j aj, j < lo → a !! j = Some aj → (aj <= x)%Q) →
    (∀ j aj, hi ≤ j → a !! j = Some aj → (x < aj)%Q) →
    ∃ i, bisect_loop fuel a x lo hi = Ok i ∧ i ≤ length a ∧
         (∀ j aj, j < i → a !! j = Some aj → (aj <= x)%Q) ∧
         (∀ j aj, i ≤ j → a !! j = Some aj → (x < aj)%Q).
Proof.
  intros Hsorted. induction fuel as [|fuel IH]; intros lo hi Hfuel Hrange Hlo Hhi.
  { cbn. rewrite decide_False by lia. exists lo.
    split; [done|]. split; [lia|]. split; [done|].
    intros j aj Hj. apply Hhi. lia. }
  cbn [bisect_loop]. destruct (decide (lo < hi)) as [Hlt|Hge].
  2: { exists lo. split; [done|]. split; [lia|]. split; [done|].
       intros j aj Hj. apply Hhi. lia. }
  pose proof (midpoint lo hi Hlt) as Hmid.
  set (mid := (lo + hi) / 2) in *.
  destruct (getitem_lt a mid ltac:(lia)) as (a_mid & -> & Ha).
  rewrite bind_Ok. destruct (Qle_bool a_mid x) eqn:Hcmp; cbn [negb].
  - apply Qle_bool_iff in Hcmp. apply IH; [lia | lia | | done].
    intros j aj Hj Haj. apply (Qle_trans _ a_mid); [|done].
    apply (Hsorted j mid); [lia | done..].
  - assert (x < a_mid)%Q as Hx.
    { apply Qnot_le_lt. intros Hle. apply Qle_bool_iff in Hle. congruence. }
    apply IH; [lia | lia | done |].
    intros j aj Hj Haj. apply (Qlt_le_trans _ a_mid); [done|].
    apply (Hsorted mid j); [lia | done..].
Qed.

(** [sample] on a wheel that is not empty returns an object of the wheel
    with its weight.  When the total weight is positive, the spin
    [random * total_weight] falls in the slice of the object returned: at
    or after the partial sum before it and strictly before its own partial
    sum, which is the former plus the weight returned. *)
Theorem sample_slice (random : Q) (self : wheel) :
  wheel_wf self → objects self ≠ [] → (0 <= random)%Q → (random < 1)%Q →
  ∃ i obj weight,
    sample random self = Ok (obj, weight) ∧
    objects self !! i = Some obj ∧ weights self !! i = Some weight ∧
    ((0 < total_weight self)%Q →
     ∃ before upto,
       before = match i with
                | 0 => 0%Q
                | S j => default 0%Q (partial_sums self !! j)
                end ∧
       partial_sums self !! i = Some upto ∧
       upto = (before + weight)%Q ∧
       (before <= random * total_weight self)%Q ∧
       (random * total_weight self < upto)%Q).
Proof.
  intros [Hlen Hsums Hnn] Hne Hr0 Hr1.
  assert (length (partial_sums self) = length (objects self)) as Hlen'.
  { by rewrite Hsums, running_length. }
  assert (0 < length (objects self)) as Hpos.
  { destruct (objects self); [done | cbn; lia]. }
  assert (∀ i j si sj, i ≤ j → partial_sums self !! i = Some si →
            partial_sums self !! j = Some sj → (si <= sj)%Q) as Hsorted.
  { rewrite Hsums. intros i j si sj Hij Hi Hj.
    by apply (running_sorted _ 0 Hnn j i). }
  destruct (lookup_lt_is_Some_2 (partial_sums self)
              (length (partial_sums self) - 1) ltac:(lia)) as [total Htotal].
  assert (total_weight self = total) as Htw.
  { unfold total_weight. rewrite last_lookup.
    replace (Nat.pred (length (partial_sums self)))
      with (length (partial_sums self) - 1) by lia.
    by rewrite Htotal. }
  assert (0 <= total)%Q as Htot0.
  { rewrite Hsums in Htotal. by eapply running_lower. }
  unfold sample, is_empty.
  rewrite bool_decide_eq_false_2.
  2: { intros E. rewrite E in Hlen'. cbn in Hlen'. lia. }
  rewrite Htw. unfold bisect_right.
  destruct (bisect_loop_spec (partial_sums self) (random * total)%Q Hsorted
              (length (partial_sums self)) 0 (length (partial_sums self)))
    as (i & -> & Hi & Hbelow & Habove).
  { lia. } { lia. } { intros j aj Hj. lia. }
  { intros j aj Hj Haj. apply lookup_lt_Some in Haj. lia. }
  rewrite bind_Ok.
  assert (∀ k, k < length (objects self) →
    (0 < total)%Q → k = i →
    ∃ obj weight,
      objects self !! k = Some obj ∧ weights self !! k = Some weight ∧
      ∃ before upto,
        before = match k with
                 | 0 => 0%Q
                 | S j => default 0%Q (partial_sums self !! j)
                 end ∧
        partial_sums self !! k = Some upto ∧ upto = (before + weight)%Q ∧
        (before <= random * total)%Q ∧ (random * total < upto)%Q) as Hslice.
  { intros k Hk Htpos ->.
    destruct (lookup_lt_is_Some_2 (objects self) i Hk) as [obj Hobj].
    destruct (lookup_lt_is_Some_2 (partial_sums self) i ltac:(lia))
      as [upto Hupto].
    exists obj. pose proof Hupto as Hupto'. rewrite Hsums in Hupto'.
    destruct i as [|j].
    - apply running_lookup_0 in Hupto' as (w & Hw & ->).
      exists w. do 2 (split; [done|]). eexists _, _.
      split; [done|]. split; [done|]. split; [done|].
      split; [nra | by apply (Habove 0)].
    - apply running_lookup_S in Hupto' as (p & w & Hp & Hw & ->).
      rewrite <- Hsums in Hp.
      exists w. do 2 (split; [done|]). eexists _, _.
      split; [done|]. rewrite Hp. split; [done|]. split; [done|].
      split; [by apply (Hbelow j); [lia|] | by apply (Habove (S j))]. }
  destruct (decide (i = length (partial_sums self))) as [->|Hni].
  - destruct (getitem_lt (objects self) (length (partial_sums self) - 1)
                ltac:(lia)) as (obj & -> & Hobj).
    destruct (getitem_lt (weights self) (length (partial_sums self) - 1)
                ltac:(lia)) as (w & -> & Hw).
    rewrite !bind_Ok. eexists _, _, _. split; [done|].
    do 2 (split; [done|]). intros Htpos. exfalso.
    specialize (Hbelow (length (partial_sums self) - 1) total ltac:(lia)
                  Htotal). nra.
  - destruct (getitem_lt (objects self) i ltac:(lia)) as (obj & -> & Hobj).
    destruct (getitem_lt (weights self) i ltac:(lia)) as (w & -> & Hw).
    rewrite !bind_Ok. exists i, obj, w. split; [done|].
    do 2 (split; [done|]). intros Htpos.
    destruct (Hslice i ltac:(lia) Htpos eq_refl)
      as (obj' & w' & Hobj' & Hw' & before & upto & Hb & Hu & Hsum & Hlo & Hhi).
    assert (w' = w) as -> by congruence. by exists before, upto.
Qed.

Lemma add_each_count : ∀ objs i weights keys (self self' : wheel) count,
  add_each i objs weights keys self = Ok (count, self') →
  wheel_wf self →
  wheel_wf self' ∧ count ≤ length objs ∧
  length (objects self') = length (objects self) + count.
Proof.
  induction objs as [|obj rest IH]; intros i ws keys self self' count Hrun Hwf;
    cbn [add_each] in Hrun.
  { injection Hrun as <- <-. split; [done|]. cbn. split; lia. }
  bind_inv Hrun. rename a into weight. bind_inv Hrun. rename a into key.
  bind_inv Hrun. destruct a as [added self1].
  bind_inv Hrun. destruct a as [count1 self2]. injection Hrun as <- <-.
  destruct (add_wf _ _ _ _ _ _ H2 Hwf) as (Hwf1 & Hlen1 & _).
  destruct (IH _ _ _ _ _ _ H3 Hwf1) as (Hwf2 & Hle & Hlen2).
  split; [done|]. cbn [length]. destruct added; lia.
Qed.

(** The number that [add_many] returns is the number of objects by which
    the wheel has grown, and is at most the number of objects given. *)
Theorem add_many_count objs weights keys (self self' : wheel) count :
  wheel_wf self →
  add_many objs weights keys self = Ok (count, self') →
  wheel_wf self' ∧ count ≤ length objs ∧
  length (objects self') = length (objects self) + count.
Proof.
  intros Hwf. unfold add_many.
  repeat (destruct (_ : bool); [done|]).
  intros Hrun. by eapply add_each_count.
Qed.

End Wheel.

(** A wheel in unique mode with two programs, and a third offered together
    with one of them again. *)
Definition sample_wheel : RouletteWheel string string :=
  MkWheel true ["+."; ",."] [1; 3]%Q [0 + 1; 0 + 1 + 3]%Q
    {[ "+." := 1%Q; ",." := 3%Q ]} None [].

Lemma sample_wheel_wf : wheel_wf sample_wheel.
Proof.
  split; cbn; [done | done |].
  repeat (apply Forall_cons; split; [done|]). apply Forall_nil_2.
Qed.

Lemma sample_slice_witness :
  ∃ i obj weight,
    sample (1 # 2) sample_wheel = Ok (obj, weight) ∧
    objects sample_wheel !! i = Some obj ∧
    weights sample_wheel !! i = Some weight ∧
    ((0 < total_weight sample_wheel)%Q →
     ∃ before upto,
       before = match i with
                | 0 => 0%Q
                | S j => default 0%Q (partial_sums sample_wheel !! j)
                end ∧
       partial_sums sample_wheel !! i = Some upto ∧
       upto = (before + weight)%Q ∧
       (before <= (1 # 2) * total_weight sample_wheel)%Q ∧
       ((1 # 2) * total_weight sample_wheel < upto)%Q).
Proof.
  apply (sample_slice (1 # 2) sample_wheel sample_wheel_wf); done.
Defined.

Lemma add_many_count_witness :
  ∃ count self',
    add_many [",."; ",[.,]"] [5; 2]%Q (Some [",."; ",[.,]"]) sample_wheel
      = Ok (count, self') ∧
    wheel_wf self' ∧ count ≤ 2 ∧
    length (objects self') = length (objects sample_wheel) + count.
Proof.
  assert (∀ x y : outcome (nat * RouletteWheel string string),
            x = y → y = x) as Hsym by done.
  eexists _, _. split; [apply Hsym; vm_compute; reflexivity|].
  apply (add_many_count [",."; ",[.,]"] [5; 2]%Q (Some [",."; ",[.,]"])
           sample_wheel _ _ sample_wheel_wf).
  vm_compute. reflexivity.
Defined.

Lemma wheel_sums_witness :
  ∃ self0 self fs',
    wheel_init false (Some "wheel.pkl")
      (∅ : disk string string) = Ok self0 ∧
    run_ops [OpAdd "+." 1%Q None; OpSave; OpAdd ",." 3%Q None] self0 ∅
      = Ok (self, fs') ∧
    length (objects self) = length (weights self) ∧
    length (partial_sums self) = length (weights self) ∧
    partial_sums self = running 0 (weights self) ∧
    Forall (fun w => 0 <= w)%Q (weights self) ∧
    (∀ i j si sj, i ≤ j → partial_sums self !! i = Some si →
                  partial_sums self !! j = Some sj → (si <= sj)%Q) ∧
    (0 <= total_weight self)%Q.
Proof.
  eexists _, _, _. split; [reflexivity|]. split; [reflexivity|].
  eapply (wheel_sums false (Some "wheel.pkl") ∅ _
            [OpAdd "+." 1%Q None; OpSave; OpAdd ",." 3%Q None]);
    reflexivity.
Defined.

End roulette_more.

(** * ga_lib.py: mutation and the generational step *)

Module ga_more.
Import ga_lib.

Section Mutation.

Variable Rng : Type.
Variable random : Rng → Q * Rng.
Variable randrange : nat → Rng → nat * Rng.

(** [random.randrange(n)] draws below [n]. *)
Hypothesis randrange_lt : ∀ n rng, 0 < n → (randrange n rng).1 < n.

(** Every token is one of [tokens] or a gene. *)
Definition from_tokens (tokens cs : list ascii) : Prop :=
  ∀ c, c ∈ cs → c ∈ tokens ∨ c ∈ GENES.

Lemma from_tokens_app tokens cs1 cs2 :
  from_tokens tokens cs1 → from_tokens tokens cs2 →
  from_tokens tokens (cs1 ++ cs2).
Proof. intros H1 H2 c [?|?]%elem_of_app; auto. Qed.

Lemma from_tokens_take tokens cs n :
  from_tokens tokens cs → from_tokens tokens (take n cs).
Proof. intros Hcs c Hc. apply Hcs. by eapply subseteq_take. Qed.

Lemma from_tokens_drop tokens cs n :
  from_tokens tokens cs → from_tokens tokens (drop n cs).
Proof. intros Hcs c Hc. apply Hcs. by eapply subseteq_drop. Qed.

Lemma from_tokens_gene tokens g :
  g ∈ GENES → from_tokens tokens [g].
Proof. intros Hg c ->%list_elem_of_singleton. by right. Qed.

Lemma from_tokens_one tokens cs c :
  from_tokens tokens cs → c ∈ cs → from_tokens tokens [c].
Proof. intros Hcs Hc c' ->%list_elem_of_singleton. by apply Hcs. Qed.

Ltac tokens_tac :=
  repeat match goal with
         | |- from_tokens _ (_ ++ _) => apply from_tokens_app
         | |- from_tokens _ (take _ _) => apply from_tokens_take
         | |- from_tokens _ (drop _ _) => apply from_tokens_drop
         end;
  try done;
  try match goal with
      | Hcs : from_tokens ?t ?cs, Hc : ?c ∈ ?cs |- from_tokens ?t [?c] =>
          exact (from_tokens_one t cs c Hcs Hc)
      end.

Lemma mutate_at_keeps tokens rate pos cs mutated rng :
  pos < length cs → from_tokens tokens cs →
  ∃ cs' mutated' rng',
    mutate_at Rng random randrange rate pos (cs, mutated, rng)
      = Ok (cs', mutated', rng') ∧
    length cs' = length cs ∧ from_tokens tokens cs'.
Proof.
  intros Hpos Hcs. unfold mutate_at. destruct (random rng) as [r rng1].
  destruct (Qlt_bool r rate); [|by eexists _, _, _].
  unfold py_randrange. rewrite decide_False by done. rewrite bind_Ok.
  pose proof (randrange_lt (length GENES) rng1 ltac:(cbn; lia)) as Hg.
  destruct (randrange (length GENES) rng1) as [g rng2]. cbn [fst] in Hg.
  destruct (getitem_lt GENES g Hg) as (new_char & -> & Hnew).
  rewrite bind_Ok. apply list_elem_of_lookup_2 in Hnew.
  pose proof (from_tokens_gene tokens new_char Hnew) as Hgene.
  destruct (random rng2) as [x rng3].
  destruct (Qlt_bool x 0.25 && negb (pos =? 0)
            && negb (pos =? length cs - 1)) eqn:Hins.
  { apply andb_prop in Hins as [[_ H0]%andb_prop H1].
    apply negb_true_iff, Nat.eqb_neq in H0, H1.
    destruct (random rng3) as [y rng4].
    destruct (Qlt_bool y 0.50); eexists _, _, _; (split; [done|]);
      (split; [rewrite !length_app, ?length_drop, !length_take; cbn; lia|]);
      tokens_tac. }
  destruct (Qlt_bool x 0.50).
  { destruct (random rng3) as [y rng4].
    destruct (Qlt_bool y 0.50); eexists _, _, _; (split; [done|]);
      (split; [rewrite !length_app, ?length_drop, !length_take; cbn; lia|]);
      tokens_tac. }
  destruct (Qlt_bool x 0.75).
  { destruct (random rng3) as [y rng4].
    destruct (getitem_lt cs 0 ltac:(lia)) as (first & Hfirst & Hfirst').
    destruct (last cs) as [final|] eqn:Hlast.
    2: { apply last_None in Hlast. subst cs. cbn in Hpos. lia. }
    apply list_elem_of_lookup_2 in Hfirst'.
    assert (final ∈ cs) as Hfinal.
    { rewrite last_lookup in Hlast. by eapply list_elem_of_lookup_2. }
    destruct (Qlt_bool y 0.50); rewrite ?Hfirst, ?bind_Ok;
      eexists _, _, _; (split; [done|]);
      (split; [rewrite !length_app, ?length_drop, ?length_take; cbn; lia|]);
      tokens_tac. }
  eexists _, _, _. split; [done|].
  split; [rewrite !length_app, ?length_drop, !length_take; cbn; lia|].
  tokens_tac.
Qed.

Lemma mutate_loop_keeps tokens rate : ∀ positions cs mutated rng,
  Forall (fun pos => pos < length cs) positions → from_tokens tokens cs →
  ∃ cs' mutated' rng',
    mutate_loop Rng random randrange rate positions (cs, mutated, rng)
      = Ok (cs', mutated', rng') ∧
    length cs' = length cs ∧ from_tokens tokens cs'.
Proof.
  induction positions as [|pos rest IH]; intros cs mutated rng Hall Hcs;
    cbn [mutate_loop].
  { by eexists _, _, _. }
  apply Forall_cons in Hall as [Hpos Hrest].
  destruct (mutate_at_keeps tokens rate pos cs mutated rng Hpos Hcs)
    as (cs1 & m1 & rng1 & -> & Hlen1 & Hcs1).
  rewrite bind_Ok.
  destruct (IH cs1 m1 rng1) as (cs' & m' & rng' & -> & Hlen' & Hcs');
    [by rewrite Hlen1 | done |].
  eexists _, _, _. split; [done|]. split; [lia | done].
Qed.

Lemma mutate_single_keeps (code_tokens : list ascii) (rate : Q)
    (rng : Rng) :
  length code_tokens ≤ 1 ∨ last code_tokens ≠ Some "_"%char →
  ∃ cs rng',
    mutate_single Rng random randrange code_tokens rate rng = Ok (cs, rng') ∧
    length cs = length code_tokens ∧
    ∀ c, c ∈ cs → c ∈ code_tokens ∨ c ∈ GENES.
Proof.
  intros Hend. unfold mutate_single.
  destruct (decide (length code_tokens ≤ 1)) as [Hshort|Hlong].
  { eexists _, _. split; [done|]. split; [done|]. by left. }
  destruct Hend as [?|Hend]; [lia|]. rewrite decide_False by done.
  destruct (mutate_loop_keeps code_tokens rate (seq 0 (length code_tokens))
              code_tokens false rng) as (cs & m & rng' & -> & Hlen & Hcs).
  { apply Forall_forall. intros pos Hpos%elem_of_seq. lia. }
  { intros c Hc. by left. }
  rewrite bind_Ok. cbn [length]. rewrite decide_True by lia.
  destruct m; eexists _, _; (split; [done|]).
  - rewrite app_nil_r. done.
  - split; [done|]. by left.
Qed.

(** [mutate_single] on tokens that do not end with ['_'] (or on at most one
    token) returns, and the assertion in it holds: the tokens returned are
    as many as the tokens given, and each is a token given or a gene. *)
Theorem mutate_single_length (code_tokens : list ascii) (rate : Q)
    (rng : Rng) :
  length code_tokens ≤ 1 ∨ last code_tokens ≠ Some "_"%char →
  ∃ cs rng',
    mutate_single Rng random randrange code_tokens rate rng = Ok (cs, rng') ∧
    length cs = length code_tokens ∧
    ∀ c, c ∈ cs → c ∈ code_tokens ∨ c ∈ GENES.
Proof. apply mutate_single_keeps. Qed.

(** ** The generational step *)

(** The tokens held by the children assigned so far. *)
Definition count (children : list (option (list ascii))) : nat :=
  sum_list (from_option length 0 <$> children).

Lemma count_insert : ∀ (children : list (option (list ascii))) i c,
  children !! i = Some None →
  count (<[i := Some c]> children) = count children + length c.
Proof.
  unfold count. induction children as [|x l IH]; intros i c Hi; [done|].
  destruct i as [|i].
  - injection Hi as ->. cbn. lia.
  - change (<[S i:=Some c]> (x :: l)) with (x :: <[i:=Some c]> l).
    rewrite !fmap_cons. cbn [sum_list]. rewrite (IH i c Hi). lia.
Qed.

Lemma sum_list_snoc (l : list nat) (x : nat) :
  sum_list (l ++ [x]) = sum_list l + x.
Proof. induction l as [|y l IH]; cbn; [lia|]. rewrite IH. lia. Qed.

Lemma count_replicate n : count (replicate n None) = 0.
Proof. unfold count. induction n as [|n IH]; cbn; [done|]. by rewrite IH. Qed.

Definition clean (ind : list ascii) : Prop := "_"%char ∉ ind.

Lemma clean_last ind : clean ind → last ind ≠ Some "_"%char.
Proof.
  intros Hclean Hlast. apply Hclean. rewrite last_lookup in Hlast.
  by eapply list_elem_of_lookup_2.
Qed.

Lemma crossover_rng_ok parent1 parent2 rng :
  parent1 ≠ [] → clean parent1 → clean parent2 →
  ∃ child1 child2 rng',
    crossover_rng Rng randrange parent1 parent2 rng
      = Ok (child1, child2, rng') ∧
    length child1 + length child2 = length parent1 + length parent2 ∧
    clean child1 ∧ clean child2.
Proof.
  intros Hne H1 H2. unfold crossover_rng, crossover.
  assert (0 < length parent1) as Hpos by (destruct parent1; [done|cbn; lia]).
  assert (∀ l n, clean l → clean (take n l)) as Htake.
  { intros l n Hl Hin. apply Hl. by eapply subseteq_take. }
  assert (∀ l n, clean l → clean (drop n l)) as Hdrop.
  { intros l n Hl Hin. apply Hl. by eapply subseteq_drop. }
  assert (∀ l l', clean l → clean l' → clean (l ++ l')) as Happ.
  { intros l l' Hl Hl' [?|?]%elem_of_app; done. }
  destruct (decide (length parent2 < length parent1)).
  - rewrite decide_False by lia.
    pose proof (randrange_lt (length parent1) rng Hpos).
    destruct (decide (length parent2 ≤ _)); rewrite bind_Ok;
      eexists _, _, _; (split; [done|]);
      (split; [rewrite ?length_app, ?length_take, ?length_drop; lia|]);
      split; auto.
  - rewrite decide_False by lia.
    pose proof (randrange_lt (length parent2) rng ltac:(lia)).
    destruct (decide (length parent1 ≤ _)); rewrite bind_Ok;
      eexists _, _, _; (split; [done|]);
      (split; [rewrite ?length_app, ?length_take, ?length_drop; lia|]);
      split; auto.
Qed.

Lemma mutate_single_ok ind rate rng :
  clean ind →
  ∃ cs rng', mutate_single Rng random randrange ind rate rng = Ok (cs, rng') ∧
             length cs = length ind.
Proof.
  intros Hclean.
  destruct (mutate_single_keeps ind rate rng) as (cs & rng' & ? & ? & _).
  { right. by apply clean_last. }
  by exists cs, rng'.
Qed.

Section Step.

Variable population : list (list ascii).
Variables mutation_rate crossover_rate : Q.

Hypothesis individuals :
  Forall (fun ind => ind ≠ [] ∧ clean ind) population.

Lemma pairs_loop_ok : ∀ rounds i children rng,
  i + 2 * rounds ≤ length population →
  length children = length population →
  (∀ j, i ≤ j → j < length population → children !! j = Some None) →
  ∃ children' rng',
    pairs_loop Rng random randrange rounds i population mutation_rate
      crossover_rate children rng = Ok (children', rng') ∧
    length children' = length population ∧
    (∀ j, j < i → children' !! j = children !! j) ∧
    (∀ j, i ≤ j → j < i + 2 * rounds →
          ∃ c, children' !! j = Some (Some c)) ∧
    (∀ j, i + 2 * rounds ≤ j → j < length population →
          children' !! j = Some None) ∧
    count children' =
      count children
      + sum_list (length <$> take (2 * rounds) (drop i population)).
Proof.
  induction rounds as [|rounds IH]; intros i children rng Hi Hlen Hnone;
    cbn [pairs_loop].
  { eexists _, _. split; [done|]. split; [done|]. split; [done|].
    split; [intros; lia|]. split; [intros; apply Hnone; lia|].
    change (2 * 0) with 0. rewrite take_0, fmap_nil. cbn [sum_list]. lia. }
  destruct (getitem_lt population i ltac:(lia)) as (p1 & -> & Hp1).
  destruct (getitem_lt population (i + 1) ltac:(lia)) as (p2 & -> & Hp2).
  rewrite !bind_Ok. destruct (random rng) as [r rng1].
  rewrite Forall_lookup in individuals.
  destruct (individuals _ _ Hp1) as [Hne1 Hc1].
  destruct (individuals _ _ Hp2) as [Hne2 Hc2].
  assert (∃ q1 q2 rng2,
    (if Qlt_bool r crossover_rate
     then crossover_rng Rng randrange p1 p2 rng1
     else Ok (p1, p2, rng1)) = Ok (q1, q2, rng2) ∧
    length q1 + length q2 = length p1 + length p2 ∧
    clean q1 ∧ clean q2) as (q1 & q2 & rng2 & -> & Hsum & Hq1 & Hq2).
  { destruct (Qlt_bool r crossover_rate);
      [by apply crossover_rng_ok | by eexists _, _, _]. }
  rewrite bind_Ok.
  destruct (mutate_single_ok q1 mutation_rate rng2 Hq1)
    as (c1 & rng3 & -> & Hl1).
  rewrite bind_Ok.
  destruct (mutate_single_ok q2 mutation_rate rng3 Hq2)
    as (c2 & rng4 & -> & Hl2).
  rewrite bind_Ok.
  assert (setitem children i (Some c1) = Ok (<[i := Some c1]> children))
    as -> by (apply setitem_Ok; split; [lia | done]).
  rewrite bind_Ok.
  assert (setitem (<[i := Some c1]> children) (i + 1) (Some c2)
          = Ok (<[i + 1 := Some c2]> (<[i := Some c1]> children)))
    as -> by (apply setitem_Ok; split; [rewrite length_insert; lia | done]).
  rewrite bind_Ok.
  destruct (IH (i + 2) (<[i + 1 := Some c2]> (<[i := Some c1]> children)) rng4)
    as (children' & rng' & -> & Hlen' & Hbefore & Hdone & Hrest & Hcount).
  { lia. }
  { by rewrite !length_insert. }
  { intros j Hj Hj'. rewrite !list_lookup_insert_ne by lia.
    apply Hnone; lia. }
  exists children', rng'. split; [done|]. split; [done|].
  split; [|split; [|split]].
  - intros j Hj. rewrite Hbefore by lia.
    by rewrite !list_lookup_insert_ne by lia.
  - intros j Hj Hj'. destruct (decide (j < i + 2)) as [Hlt|Hge].
    + rewrite Hbefore by lia. destruct (decide (j = i)) as [->|Hne].
      * exists c1. rewrite list_lookup_insert_ne by lia.
        apply list_lookup_insert_eq. lia.
      * assert (j = i + 1) as -> by lia. exists c2.
        apply list_lookup_insert_eq. rewrite length_insert. lia.
    + apply Hdone; lia.
  - intros j Hj Hj'. apply Hrest; lia.
  - rewrite Hcount, !count_insert.
    2: { apply Hnone; lia. }
    2: { rewrite list_lookup_insert_ne by lia. apply Hnone; lia. }
    replace (2 * S rounds) with (S (S (2 * rounds))) by lia.
    rewrite (drop_S _ _ _ Hp1). cbn [take fmap list_fmap sum_list].
    replace (S i) with (i + 1) by lia.
    rewrite (drop_S _ _ _ Hp2). cbn [take fmap list_fmap sum_list].
    replace (S (i + 1)) with (i + 2) by lia. cbn. lia.
Qed.

Lemma make_even_half n : _make_even n / 2 = n / 2.
Proof.
  unfold _make_even. rewrite Nat.shiftl_mul_pow2, Nat.shiftr_div_pow2.
  cbn [Nat.pow]. rewrite Nat.mul_1_r. by rewrite Nat.div_mul.
Qed.

(** [mutate_and_crossover] on a population that is not empty, of
    individuals that are not empty and hold no ['_'], returns as many
    children as there are parents, every child assigned, and the children
    hold as many tokens as the parents. *)
Theorem mutate_and_crossover_size (rng : Rng) :
  population ≠ [] →
  ∃ children rng',
    mutate_and_crossover Rng random randrange population mutation_rate
      crossover_rate rng = Ok (children, rng') ∧
    length children = length population ∧
    (∀ j, j < length population → ∃ c, children !! j = Some (Some c)) ∧
    count children = sum_list (length <$> population).
Proof.
  intros Hne. unfold mutate_and_crossover. rewrite make_even_half.
  set (n := length population).
  assert (0 < n) as Hn by (subst n; destruct population; [done|cbn; lia]).
  pose proof (Nat.div_mod_eq n 2) as Hdiv.
  pose proof (Nat.mod_upper_bound n 2 ltac:(lia)) as Hmod.
  destruct (pairs_loop_ok (n / 2) 0 (replicate n None) rng)
    as (children & rng' & -> & Hlen & _ & Hdone & Hrest & Hcount).
  { fold n. lia. }
  { by rewrite length_replicate. }
  { intros j _ Hj. by apply lookup_replicate_2. }
  rewrite bind_Ok, Hlen. fold n. rewrite count_replicate, drop_0 in Hcount.
  destruct (decide (n = 2 * (n / 2))) as [Heven|Hodd].
  - destruct (Hdone (n - 1) ltac:(lia) ltac:(lia)) as [c Hc].
    rewrite (proj2 (getitem_Ok _ _ _) Hc), bind_Ok.
    exists children, rng'. split; [done|]. split; [done|]. split.
    + intros j Hj. apply Hdone; lia.
    + rewrite Hcount, <- Heven. subst n. by rewrite firstn_all.
  - specialize (Hrest (n - 1) ltac:(lia) ltac:(fold n; lia)).
    rewrite (proj2 (getitem_Ok _ _ _) Hrest), bind_Ok.
    destruct (getitem_lt population (n - 1) ltac:(fold n; lia))
      as (final & -> & Hfinal).
    rewrite bind_Ok.
    assert (setitem children (n - 1) (Some final)
            = Ok (<[n - 1 := Some final]> children))
      as -> by (apply setitem_Ok; split; [lia | done]).
    rewrite bind_Ok. eexists _, _. split; [done|].
    split; [by rewrite length_insert|]. split.
    + intros j Hj. destruct (decide (j = n - 1)) as [->|Hnj].
      * exists final. apply list_lookup_insert_eq. lia.
      * rewrite list_lookup_insert_ne by lia. apply Hdone; lia.
    + rewrite count_insert, Hcount by done.
      replace (2 * (n / 2)) with (n - 1) by lia.
      rewrite <- (take_drop (n - 1) population) at 2.
      rewrite (drop_S _ _ _ Hfinal), drop_ge by (fold n; lia).
      rewrite fmap_app, fmap_cons, fmap_nil, sum_list_snoc. lia.
Qed.

End Step.

End Mutation.

(** A generator that counts its draws: [random.random()] gives 0.1 on even
    draws and 0.9 on odd ones, [random.randrange(n)] gives the count modulo
    [n]. *)
Definition sample_random (k : nat) : Q * nat :=
  (if Nat.even k then 0.1%Q else 0.9%Q, S k).

Definition sample_randrange (n k : nat) : nat * nat := (k `mod` n, S k).

Lemma sample_randrange_lt n k : 0 < n → (sample_randrange n k).1 < n.
Proof. intros Hn. cbn. apply Nat.mod_upper_bound. lia. Qed.

Lemma mutate_single_length_witness :
  ∃ cs rng',
    mutate_single nat sample_random sample_randrange
      (bf.program "+[>,.<]") 0.5 0 = Ok (cs, rng') ∧
    length cs = length (bf.program "+[>,.<]") ∧
    ∀ c, c ∈ cs → c ∈ bf.program "+[>,.<]" ∨ c ∈ GENES.
Proof.
  apply (mutate_single_length nat sample_random sample_randrange
           sample_randrange_lt (bf.program "+[>,.<]") 0.5 0).
  right. discriminate.
Defined.

Lemma mutate_and_crossover_size_witness :
  let population := [bf.program "+."; bf.program ",[.,]"; bf.program "-"] in
  ∃ children rng',
    mutate_and_crossover nat sample_random sample_randrange population
      0.5 0.5 0 = Ok (children, rng') ∧
    length children = length population ∧
    (∀ j, j < length population → ∃ c, children !! j = Some (Some c)) ∧
    count children = sum_list (length <$> population).
Proof.
  apply (mutate_and_crossover_size nat sample_random sample_randrange
           sample_randrange_lt
           [bf.program "+."; bf.program ",[.,]"; bf.program "-"] 0.5 0.5).
  - unfold clean. cbn.
    repeat (apply Forall_cons; split;
              [split; [discriminate|];
               rewrite !not_elem_of_cons, elem_of_nil;
               repeat split; (discriminate || tauto)|]).
    apply Forall_nil_2.
  - discriminate.
Defined.

End ga_more.

(** * bf.py: syntax errors *)

Module bf_syntax.
Import bf bf_facts.

Lemma stop_check_not_syntax timeout max_steps clock m :
  stop_check timeout max_steps clock m ≠ Some SYNTAX_ERROR.
Proof.
  unfold stop_check. destruct (timed_out _ _ _); [done|].
  by destruct (step_limit_hit _ _).
Qed.

Lemma while_loop_not_syntax code bmap base timeout max_steps clock :
  ∀ fuel m m' ok reason,
    while_loop code bmap base timeout max_steps clock fuel m
      = Ok (m', ok, reason) →
    reason ≠ SYNTAX_ERROR.
Proof.
  induction fuel as [|fuel IH]; intros m m' ok reason; cbn [while_loop];
    (destruct (decide (codeptr m < length code));
       [|by intros [= <- <- <-]]); [done|].
  intros Hl. bind_inv Hl.
  pose proof (stop_check_not_syntax timeout max_steps clock a) as Hns.
  destruct (stop_check timeout max_steps clock a) as [s|].
  - injection Hl as <- <- <-. congruence.
  - by eapply IH.
Qed.

(** [evaluate] reports SYNTAX_ERROR exactly when it is asked to check the
    syntax and [buildbracemap] finds the braces unbalanced; the program is
    then not run: no step is counted and there is no output. *)
Theorem syntax_error_iff fuel clock code input_buffer init_memory base
    timeout max_steps require_correct_syntax output_memory debug r :
  evaluate fuel clock code input_buffer init_memory base timeout max_steps
    require_correct_syntax output_memory debug = Ok r →
  (failure_reason r = SYNTAX_ERROR ↔
   require_correct_syntax = true ∧ (buildbracemap code).2 = false) ∧
  (failure_reason r = SYNTAX_ERROR →
   success r = false ∧ output r = [] ∧ steps r = 0).
Proof.
  unfold evaluate. destruct (buildbracemap code) as [bmap cs]. cbn [snd].
  destruct (require_correct_syntax && negb cs) eqn:Hcheck.
  - apply andb_prop in Hcheck as [-> ->%negb_true_iff].
    by intros [= <-].
  - intros Hr. bind_inv Hr. destruct a as [[m ok] reason].
    bind_inv Hr. injection Hr as <-. cbn [failure_reason].
    apply while_loop_not_syntax in H.
    split; [|done]. split; [done|]. intros [-> ->]. done.
Qed.

Lemma syntax_error_iff_witness :
  ∃ r,
    evaluate 10 (fun _ => 0%Q) (program "+[.") [] None 256 None None
      true false false = Ok r ∧
    (failure_reason r = SYNTAX_ERROR ↔
     true = true ∧ (buildbracemap (program "+[.")).2 = false) ∧
    (failure_reason r = SYNTAX_ERROR →
     success r = false ∧ output r = [] ∧ steps r = 0).
Proof.
  eexists. split; [reflexivity|].
  exact (syntax_error_iff 10 (fun _ => 0%Q) (program "+[.") [] None 256
           None None true false false _ eq_refl).
Defined.

End bf_syntax.

(** * results_lib.py: the names of the shard files *)

Module results_more.
Import results_lib.

Lemma digit_ascii k :
  k < 10 →
  is_digit (ascii_of_nat (48 + k)) = true ∧
  digit_value (ascii_of_nat (48 + k)) = k.
Proof.
  intros Hk. unfold is_digit, digit_value.
  rewrite nat_ascii_embedding by lia. split; [|lia].
  apply andb_true_intro. split; apply Nat.leb_le; lia.
Qed.

Lemma digits_spec : ∀ fuel n acc,
  n < fuel →
  ∃ ds, digits fuel n acc = ds ++ acc ∧ ds ≠ [] ∧
        forallb is_digit ds = true ∧
        foldl (fun m c => 10 * m + digit_value c) 0 ds = n.
Proof.
  induction fuel as [|fuel IH]; intros n acc Hn; [lia|]. cbn [digits].
  pose proof (Nat.div_mod_eq n 10) as Hdiv.
  pose proof (Nat.mod_upper_bound n 10 ltac:(lia)) as Hmod.
  destruct (digit_ascii (n `mod` 10) Hmod) as [Hd Hv].
  destruct (n <? 10) eqn:Hsmall.
  - apply Nat.ltb_lt in Hsmall. exists [ascii_of_nat (48 + n `mod` 10)].
    split; [done|]. split; [done|]. cbn [forallb foldl]. rewrite Hd, Hv.
    split; [done|]. rewrite Nat.mod_small by done. lia.
  - apply Nat.ltb_ge in Hsmall.
    destruct (IH (n / 10) (ascii_of_nat (48 + n `mod` 10) :: acc))
      as (ds & -> & Hne & Hall & Hval).
    { assert (n / 10 < n) by (apply Nat.div_lt; lia). lia. }
    exists (ds ++ [ascii_of_nat (48 + n `mod` 10)]).
    split; [by rewrite <- app_assoc|].
    split; [by destruct ds|].
    rewrite forallb_app, foldl_app. cbn [forallb foldl].
    rewrite Hall, Hd, Hv, Hval. split; [done | lia].
Qed.

Lemma digit_not_underscore c : is_digit c = true → c ≠ "_"%char.
Proof. by intros Hc ->. Qed.

Lemma rfind_none : ∀ s i,
  (∀ c, c ∈ s → c ≠ "_"%char) → rfind_underscore s i = None.
Proof.
  induction s as [|c s IH]; intros i Hs; cbn [rfind_underscore]; [done|].
  rewrite IH by (intros c' Hc'; apply Hs; by right).
  destruct (Ascii.eqb_spec c "_") as [->|_]; [|done].
  by destruct (Hs "_"%char ltac:(by left)).
Qed.

Lemma rfind_app : ∀ s1 s2 i,
  (∀ c, c ∈ s2 → c ≠ "_"%char) →
  rfind_underscore (s1 ++ s2) i = rfind_underscore s1 i.
Proof.
  induction s1 as [|c s1 IH]; intros s2 i Hs; cbn [app rfind_underscore].
  { by apply rfind_none. }
  by rewrite IH.
Qed.

Lemma parts (pre ds suf : list ascii) :
  take (length pre) (pre ++ ds ++ suf) = pre ∧
  drop (length (pre ++ ds ++ suf) - length suf) (pre ++ ds ++ suf) = suf ∧
  take (length (pre ++ ds ++ suf) - length suf) (pre ++ ds ++ suf)
    = pre ++ ds ∧
  drop (length pre) (pre ++ ds) = ds.
Proof.
  assert (length (pre ++ ds ++ suf) - length suf = length (pre ++ ds)) as ->.
  { rewrite !length_app. lia. }
  split; [by rewrite take_app_length|].
  rewrite (app_assoc pre ds suf).
  split; [by rewrite drop_app_length|].
  split; [by rewrite take_app_length | by rewrite drop_app_length].
Qed.

Lemma file_name_parts (k : nat) :
  ∃ ds,
    list_ascii_of_string (file_name k)
      = list_ascii_of_string "experiment_results_" ++ ds
        ++ list_ascii_of_string ".txt" ∧
    ds ≠ [] ∧ forallb is_digit ds = true ∧
    foldl (fun m c => 10 * m + digit_value c) 0 ds = k.
Proof.
  unfold file_name, str_of_nat.
  destruct (digits_spec (S k) k [] ltac:(lia))
    as (ds & -> & Hne & Hall & Hval).
  rewrite app_nil_r, list_ascii_of_string_of_list_ascii. by exists ds.
Qed.

Lemma file_name_matches (k : nat) : search_regex (file_name k) = true.
Proof.
  destruct (file_name_parts k) as (ds & Hs & Hne & Hall & _).
  unfold search_regex. rewrite Hs.
  set (pre := list_ascii_of_string "experiment_results_").
  set (suf := list_ascii_of_string ".txt").
  destruct (parts pre ds suf) as (E1 & E2 & E3 & E4).
  apply orb_true_intro. left. rewrite E1, E2, E3, E4, Hall.
  rewrite !bool_decide_eq_true_2; [done | | done | done].
  rewrite !length_app. destruct ds; [done | cbn; lia].
Qed.

Lemma file_name_id (k : nat) : get_shard_id (file_name k) = Ok k.
Proof.
  destruct (file_name_parts k) as (ds & Hs & Hne & Hall & Hval).
  unfold get_shard_id. rewrite Hs.
  set (pre := list_ascii_of_string "experiment_results_").
  set (suf := list_ascii_of_string ".txt").
  destruct (parts pre ds suf) as (E1 & E2 & E3 & E4).
  change 4 with (length suf). rewrite E2, E3.
  rewrite bool_decide_eq_true_2 by done.
  rewrite (app_assoc pre ds suf), rfind_app by (by intros c Hc; revert Hc;
    subst suf; cbn; rewrite !elem_of_cons, elem_of_nil;
    intros [->|[->|[->|[->|[]]]]]).
  rewrite rfind_app.
  2: { intros c Hc. apply digit_not_underscore.
       rewrite forallb_forall in Hall. apply Hall.
       by apply list_elem_of_In. }
  assert (rfind_underscore pre 0 = Some 18) as -> by done.
  cbv beta iota. change (18 + 1) with (length pre). rewrite E4.
  unfold int_of_digits. destruct ds as [|d ds]; [done|].
  by rewrite Hall, Hval.
Qed.

(** The name that a [Results] object gives the file of shard [n] is one
    that [read_all] picks up, and [get_shard_id] reads [n] back from it; so
    different shards have different files. *)
Theorem file_name_round_trip (n : nat) :
  search_regex (file_name n) = true ∧
  get_shard_id (file_name n) = Ok n ∧
  ∀ m, file_name m = file_name n → m = n.
Proof.
  split; [apply file_name_matches|]. split; [apply file_name_id|].
  intros m Hm. pose proof (file_name_id m) as Hm'.
  rewrite Hm, file_name_id in Hm'. congruence.
Qed.

End results_more.
